(** * The GitLab migration engine of [gitlab_migration.py]

    A shallow embedding of the group resolver
    ([create_target_group_structure]), the project migration worker
    ([migrate_project]) and the recursive driver with its coordinator
    ([migrate_group]), over an abstract hosting platform, followed by a
    simulated platform and the properties of the engine.

    The python-gitlab client is an external collaborator: every request
    the script sends is a constructor of [ApiCall], and a platform is any
    handler that answers such a request with a reply or an exception and
    a new platform state. The script's own control flow (statement
    sequencing, [return], [try]/[except]/[finally], [while]) is a small
    monad with four outcomes. *)

From Stdlib Require Import ZArith List String Ascii Bool Lia Permutation.
Import ListNotations.
Open Scope string_scope.
Open Scope list_scope.
Open Scope Z_scope.

Set Implicit Arguments.

(** ** Objects handed around by the script *)

(** [gitlab.Gitlab(url, private_token=..., timeout=..., ssl_verify=...)]. *)
Record Gitlab := mkGitlab {
  url : string;
  private_token : string;
  timeout : Z;
  ssl_verify : bool
}.

(** A group object; the script reads [name], [id], [path], [full_path]
    and [visibility]. *)
Record Group := mkGroup {
  g_id : Z;
  g_name : string;
  g_path : string;
  g_full_path : string;
  g_visibility : string
}.

(** The [group_data] dictionary of lines 105-114; [parent_id] is the key
    that is only set for subgroups. *)
Record GroupData := mkGroupData {
  gd_name : string;
  gd_path : string;
  gd_visibility : string;
  gd_parent_id : option Z
}.

(** A project object. [p_import_status] is [None] when the object has no
    [import_status] attribute ([hasattr] is false). [p_refreshes] counts
    the [refresh()] calls the handle has been through; the script never
    reads it, a platform may use it to number its replies. *)
Record Project := mkProject {
  p_id : Z;
  p_name : string;
  p_path : string;
  p_path_with_namespace : string;
  p_import_status : option string;
  p_refreshes : nat
}.

(** The export handle of [project.exports.create()]. *)
Record Export := mkExport {
  ex_project_id : Z;
  export_status : string;
  ex_refreshes : nat
}.

(** The downloaded artifact: an opaque byte payload of which the script
    only takes [len]. *)
Record ExportFile := mkExportFile {
  file_len : Z;
  file_project : Z
}.

(** [projects.get] takes an id or a full path. *)
Inductive ProjectKey :=
| ById (id : Z)
| ByPath (path : string).

(** What [projects.import_project] hands back: a dictionary (with or
    without an ['id'] key) or an object. *)
Inductive ImportReply :=
| ReplyDict (id : option Z)
| ReplyObject (p : Project).

(** ** Exceptions *)

Inductive exn :=
| GitlabGetError (msg : string)
| GitlabError (msg : string)        (* any other error of the client *)
| UnboundLocalError (var : string)
| AttributeError (msg : string)
| ValueError (msg : string)
| SystemExit (code : Z).

(** [except Exception] catches everything but [SystemExit]. *)
Definition is_Exception (e : exn) : bool :=
  match e with
  | SystemExit _ => false
  | _ => true
  end.

(** [str(e)]. *)
Definition str (e : exn) : string :=
  match e with
  | GitlabGetError m => m
  | GitlabError m => m
  | AttributeError m => m
  | ValueError m => m
  | UnboundLocalError v =>
      ("cannot access local variable '" ++ v
       ++ "' where it is not associated with a value")%string
  | SystemExit _ => "SystemExit"
  end.

(** ** Requests to the platform *)

Inductive ApiCall :=
| GroupsGet (gl : Gitlab) (path : string)
| GroupsCreate (gl : Gitlab) (data : GroupData)
| GroupProjectsList (g : Group)
| GroupSubgroupsList (g : Group)
| ProjectsGet (gl : Gitlab) (key : ProjectKey)
| ProjectDelete (p : Project)
| ExportsCreate (p : Project)
| ExportRefresh (e : Export)
| ExportDownload (e : Export)
| ProjectsImport (gl : Gitlab) (file : ExportFile) (path : string)
                 (namespace : Z) (name : string)
| ProjectRefresh (p : Project)
| Sleep (seconds : Z).

Definition Reply (c : ApiCall) : Type :=
  match c with
  | GroupsGet _ _ => Group
  | GroupsCreate _ _ => Group
  | GroupProjectsList _ => list Project
  | GroupSubgroupsList _ => list Group
  | ProjectsGet _ _ => Project
  | ProjectDelete _ => unit
  | ExportsCreate _ => Export
  | ExportRefresh _ => Export
  | ExportDownload _ => ExportFile
  | ProjectsImport _ _ _ _ _ => ImportReply
  | ProjectRefresh _ => Project
  | Sleep _ => unit
  end.

(** A platform answers every request. *)
Class Platform (W : Type) :=
  perform : forall c : ApiCall, W -> (exn + Reply c) * W.

(** ** Log lines, one constructor per [logger] call of the three functions *)

Inductive LogLine :=
(* create_target_group_structure *)
| UsingExistingGroup (current_path : string)                  (* l.102 *)
| CreatedGroup (current_path : string)                        (* l.117 *)
(* get_source_group *)
| GotSourceGroup (name : string) (id : Z)                     (* l.75 *)
| SourceGroupNotFound (group_path : string)                   (* l.78 *)
(* migrate_project *)
| StartProject (name : string) (id : Z)                       (* l.141 *)
| ExistsDeleting (name : string)                              (* l.152 *)
| DeletedExisting (name : string)                             (* l.156 *)
| ExistsSkipping (name : string)                              (* l.158 *)
| NotOnTarget (name : string)                                 (* l.162 *)
| DeleteError (msg : string)                                  (* l.165 *)
| ContinueImport (name : string)                              (* l.167 *)
| CheckError (msg : string)                                   (* l.169 *)
| FetchingProject (name : string)                             (* l.173 *)
| PathExistsDeleting (path : string)                          (* l.183 *)
| PathExistsSkipping (path : string)                          (* l.187 *)
| PathCheckError (msg : string)                               (* l.192 *)
| ExportFailed (name : string)                                (* l.205 *)
| ExportSize (name : string) (len : Z)                        (* l.213 *)
| LargeFileWarning (len : Z)                                  (* l.217 *)
| TimeoutRaised (seconds : Z)                                 (* l.224 *)
| TooLarge (name : string) (len : Z)                          (* l.240 *)
| Advice                                                      (* l.241-243 *)
| NoProjectId (name : string)                                 (* l.255 *)
| ImportFailed (name : string)                                (* l.266 *)
| Migrated (name : string) (target : string)                  (* l.269 *)
| WorkerError (name : string) (msg : string)                  (* l.273 *)
(* migrate_group *)
| FoundProjects (group_path : string) (n : nat)               (* l.288 *)
| FutureException (name : string) (msg : string)              (* l.308 *)
| FoundSubgroups (group_path : string) (n : nat)              (* l.313 *)
| StartSubgroup (subgroup_path : string)                      (* l.317 *)
| GroupDone (group_path : string) (success failed : Z).       (* l.320 *)

(** What a future holds (l.302): the worker's return value or the
    exception it raised; a future whose worker never ends stays
    pending. *)
Inductive FutureResult :=
| Value (r : option Project)
| Exception (e : exn)
| Pending.

(** The history of a run, oldest event first: requests sent, lines
    logged, and, for every future the coordinator collects, the worker
    behind it: its arguments, its own history and what the future
    holds. *)
#[warnings="-register-all"]
Inductive Event :=
| Called (c : ApiCall)
| Logged (l : LogLine)
| Ran (target_group : Group) (project : Project) (history : list Event)
      (future : FutureResult).

(** ** The control-flow monad *)

(** The worker's frame: the two locals of [migrate_project] that outlive
    the statement that sets them, the [timeout] attribute of
    [thread_target_gl] and the variable [thread_project] (unbound until
    line 174 has run). *)
Record Frame := mkFrame {
  thread_target_timeout : Z;
  thread_project : option Project
}.

Inductive Outcome (R A : Type) :=
| Normal (a : A)        (* fell through to the next statement *)
| Returned (r : R)      (* executed [return r] *)
| Raised (e : exn)
| Diverged.             (* a loop used up its fuel *)

Arguments Normal {R A} a.
Arguments Returned {R A} r.
Arguments Raised {R A} e.
Arguments Diverged {R A}.

Section Engine.

Context {W : Type} {platform : Platform W}.

Record State := mkState {
  world : W;
  frame : Frame
}.

(** A piece of script: from a state to an outcome, the state it leaves
    and the events it added to the history. *)
Definition Prog (R A : Type) := State -> Outcome R A * State * list Event.

(** The events [t] happened first. *)
Definition after {R A} (t : list Event)
  (r : Outcome R A * State * list Event) : Outcome R A * State * list Event :=
  let '(o, s, t') := r in (o, s, t ++ t').

Definition ret {R A} (a : A) : Prog R A := fun s => (Normal a, s, []).

Definition bind {R A B} (c : Prog R A) (k : A -> Prog R B) : Prog R B :=
  fun s =>
    let '(o, s', t) := c s in
    match o with
    | Normal a => after t (k a s')
    | Returned r => (Returned r, s', t)
    | Raised e => (Raised e, s', t)
    | Diverged => (Diverged, s', t)
    end.

Definition return_ {R A} (r : R) : Prog R A := fun s => (Returned r, s, []).
Definition raise {R A} (e : exn) : Prog R A := fun s => (Raised e, s, []).
Definition diverge {R A} : Prog R A := fun s => (Diverged, s, []).

(** A function call: the callee's [return] ends the callee only. *)
Definition invoke {R R'} (body : Prog R R) : Prog R' R :=
  fun s =>
    let '(o, s', t) := body s in
    match o with
    | Normal a => (Normal a, s', t)
    | Returned r => (Normal r, s', t)
    | Raised e => (Raised e, s', t)
    | Diverged => (Diverged, s', t)
    end.

(** [try: body except ...: handler]; a handler that does not match
    re-raises. *)
Definition try_except {R A} (body : Prog R A) (handler : exn -> Prog R A)
  : Prog R A :=
  fun s =>
    let '(o, s', t) := body s in
    match o with
    | Raised e => after t (handler e s')
    | _ => (o, s', t)
    end.

(** [try: body finally: fin]. *)
Definition try_finally {R A} (body : Prog R A) (fin : Prog R unit)
  : Prog R A :=
  fun s =>
    let '(o, s', t) := body s in
    match o with
    | Diverged => (Diverged, s', t)
    | _ =>
        let '(o', s'', t') := fin s' in
        match o' with
        | Normal _ => (o, s'', t ++ t')
        | Returned r => (Returned r, s'', t ++ t')
        | Raised e => (Raised e, s'', t ++ t')
        | Diverged => (Diverged, s'', t ++ t')
        end
    end.

Definition emit {R} (e : Event) : Prog R unit := fun s => (Normal tt, s, [e]).

Definition log {R} (l : LogLine) : Prog R unit := emit (Logged l).

(** Send a request: the platform answers or raises. *)
Definition call {R} (c : ApiCall) : Prog R (Reply c) :=
  fun s =>
    let (r, w') := perform c (world s) in
    let s' := {| world := w'; frame := frame s |} in
    match r with
    | inl e => (Raised e, s', [Called c])
    | inr v => (Normal v, s', [Called c])
    end.

Definition get_frame {R} : Prog R Frame := fun s => (Normal (frame s), s, []).

Definition set_frame {R} (f : Frame) : Prog R unit :=
  fun s => (Normal tt, {| world := world s; frame := f |}, []).

End Engine.

Arguments State W : clear implicits.
Arguments Prog W R A : clear implicits.

Declare Scope prog_scope.
Delimit Scope prog_scope with prog.
Notation "x <- c ;; k" := (bind c (fun x => k))
  (at level 61, c at next level, right associativity) : prog_scope.
Notation "c ;; k" := (bind c (fun _ => k))
  (at level 61, right associativity) : prog_scope.
Open Scope prog_scope.

(** ** Helpers on strings *)

(** [s.split('/')]: never empty; an empty segment for every doubled,
    leading or trailing slash. *)
Fixpoint split (s : string) : list string :=
  match s with
  | EmptyString => [""]
  | String c s' =>
      if Ascii.eqb c "/"%char then "" :: split s'
      else match split s' with
           | [] => [String c ""]
           | p :: ps => String c p :: ps
           end
  end.

(** The truth value of a string: non-empty. *)
Definition truthy_string (s : string) : bool :=
  match s with
  | EmptyString => false
  | String _ _ => true
  end.

(** [sub in s]. *)
Definition contains (sub s : string) : bool :=
  match index 0 sub s with
  | Some _ => true
  | None => false
  end.

(** [not project_id] for the value of [dict.get('id')]. *)
Definition falsy_id (id : option Z) : bool :=
  match id with
  | None => true
  | Some i => i =? 0
  end.

(** [file_size_mb > n] for [file_size_mb = len(export_file) / (1024 * 1024)]:
    the division by a power of two is exact, so the comparison is the one
    of the integers. *)
Definition size_mb_exceeds (export_file : ExportFile) (n : Z) : bool :=
  n * (1024 * 1024) <? file_len export_file.

(** ** The script *)

Section Script.

Context {W : Type} {platform : Platform W}.

(** [for x in xs: body]. *)
Fixpoint for_each {R A} (xs : list A) (body : A -> Prog W R unit) : Prog W R unit :=
  match xs with
  | [] => ret tt
  | x :: rest => body x ;; for_each rest body
  end.

(** *** [get_source_group], lines 71-79 *)
Definition get_source_group {R} (source_gl : Gitlab) (group_path : string)
  : Prog W R Group :=
  invoke
    (try_except
       (group <- call (GroupsGet source_gl group_path) ;;
        log (GotSourceGroup (g_name group) (g_id group)) ;;
        return_ group)
       (fun e =>
          match e with
          | GitlabGetError _ =>
              log (SourceGroupNotFound group_path) ;;
              raise (SystemExit 1)
          | _ => raise e
          end)).

(** *** [create_target_group_structure], lines 82-121 *)

(** The [for i, part in enumerate(path_parts)] loop, with its two loop
    variables [current_path] and [parent_group]. *)
Fixpoint resolve_parts {R} (target_gl : Gitlab) (source_group : Group)
  (i : nat) (path_parts : list string)
  (current_path : string) (parent_group : option Group)
  : Prog W R (option Group) :=
  match path_parts with
  | [] => ret parent_group
  | part :: rest =>
      let current_path :=
        if truthy_string current_path
        then (current_path ++ "/" ++ part)%string
        else part in
      group <-
        try_except
          (group <- call (GroupsGet target_gl current_path) ;;
           log (UsingExistingGroup current_path) ;;
           ret group)
          (fun e =>
             match e with
             | GitlabGetError _ =>
                 let group_data :=
                   mkGroupData part part (g_visibility source_group) None in
                 group <-
                   (if Nat.eqb i 0
                    then call (GroupsCreate target_gl group_data)
                    else
                      match parent_group with
                      | Some parent =>
                          call (GroupsCreate target_gl
                                  (mkGroupData part part
                                     (g_visibility source_group)
                                     (Some (g_id parent))))
                      | None =>
                          raise (AttributeError
                                   "'NoneType' object has no attribute 'id'")
                      end) ;;
                 log (CreatedGroup current_path) ;;
                 ret group
             | _ => raise e
             end) ;;
      resolve_parts target_gl source_group (S i) rest current_path (Some group)
  end.

(** [path_parts] is never empty ([split] always yields a segment), so
    [parent_group] is a group when the loop is over; the other branch is
    never taken. *)
Definition create_target_group_structure {R} (target_gl : Gitlab)
  (group_path : string) (source_group : Group) : Prog W R Group :=
  invoke
    (let path_parts := split group_path in
     parent_group <-
       resolve_parts target_gl source_group 0 path_parts "" None ;;
     match parent_group with
     | Some group => return_ group
     | None => raise (AttributeError "path_parts is empty")
     end).

(** *** [migrate_project], lines 124-274 *)

Section Worker.

Variables (source_gl target_gl : Gitlab).
Variables (project : Project) (target_group : Group) (overwrite : bool).

(** Lines 128-133. *)
Let source_url := url source_gl.
Let source_token := private_token source_gl.
Let target_url := url target_gl.
Let target_token := private_token target_gl.
Let timeout_ := timeout source_gl.
Let verify_ssl := ssl_verify source_gl.

Definition thread_source_gl : Gitlab :=
  mkGitlab source_url source_token timeout_ verify_ssl.

(** The value of the variable [thread_target_gl]: the session made at
    line 138, with the [timeout] attribute it has now. *)
Definition thread_target_gl {R} : Prog W R Gitlab :=
  f <- get_frame ;;
  ret (mkGitlab target_url target_token (thread_target_timeout f) verify_ssl).

(** [thread_target_gl.timeout = t]. *)
Definition set_thread_target_timeout {R} (t : Z) : Prog W R unit :=
  f <- get_frame ;;
  set_frame (mkFrame t (thread_project f)).

(** [thread_project = p]. *)
Definition bind_thread_project {R} (p : Project) : Prog W R unit :=
  f <- get_frame ;;
  set_frame (mkFrame (thread_target_timeout f) (Some p)).

(** Lines 149-170: the check by name. *)
Definition check_name (project_name target_group_path : string)
  : Prog W (option Project) unit :=
  try_except
    (gl <- thread_target_gl ;;
     existing_project <-
       call (ProjectsGet gl
               (ByPath (target_group_path ++ "/" ++ project_name))) ;;
     if overwrite then
       log (ExistsDeleting project_name) ;;
       call (ProjectDelete existing_project) ;;
       call (Sleep 3) ;;
       log (DeletedExisting project_name)
     else
       log (ExistsSkipping project_name) ;;
       return_ None)
    (fun e =>
       match e with
       | GitlabGetError _ => log (NotOnTarget project_name)
       | _ =>
           if is_Exception e then
             if overwrite then
               log (DeleteError (str e)) ;;
               log (ContinueImport project_name)
             else
               log (CheckError (str e)) ;;
               return_ None
           else raise e
       end).

(** Lines 179-193: the check by path. *)
Definition check_path (project_name target_group_path target_path : string)
  : Prog W (option Project) unit :=
  if negb (String.eqb target_path project_name) then
    try_except
      (gl <- thread_target_gl ;;
       existing_project <-
         call (ProjectsGet gl
                 (ByPath (target_group_path ++ "/" ++ target_path))) ;;
       if overwrite then
         log (PathExistsDeleting target_path) ;;
         call (ProjectDelete existing_project) ;;
         call (Sleep 3)
       else
         log (PathExistsSkipping target_path) ;;
         return_ None)
      (fun e =>
         match e with
         | GitlabGetError _ => ret tt
         | _ =>
             if is_Exception e then
               log (PathCheckError (str e)) ;;
               return_ None
             else raise e
         end)
  else ret tt.

(** Lines 201-206: [while export.export_status != 'finished']. *)
Fixpoint wait_export (fuel : nat) (thread_project : Project) (export : Export)
  : Prog W (option Project) Export :=
  if negb (String.eqb (export_status export) "finished") then
    match fuel with
    | O => diverge
    | S fuel' =>
        call (Sleep 5) ;;
        export <- call (ExportRefresh export) ;;
        if String.eqb (export_status export) "failed" then
          log (ExportFailed (p_name thread_project)) ;;
          return_ None
        else wait_export fuel' thread_project export
    end
  else ret export.

(** Lines 219-247: the import call inside its timeout bracket. *)
Definition import_with_timeout (thread_project : Project)
  (export_file : ExportFile) (target_path target_name : string)
  : Prog W (option Project) ImportReply :=
  f <- get_frame ;;
  let original_timeout := thread_target_timeout f in
  (if size_mb_exceeds export_file 200 then
     set_thread_target_timeout (Z.max original_timeout 120) ;;
     gl <- thread_target_gl ;;
     log (TimeoutRaised (timeout gl))
   else ret tt) ;;
  try_finally
    (try_except
       (gl <- thread_target_gl ;;
        call (ProjectsImport gl export_file target_path
                (g_id target_group) target_name))
       (fun e =>
          if is_Exception e then
            set_thread_target_timeout original_timeout ;;
            (if contains "413: Request Entity Too Large" (str e) then
               log (TooLarge (p_name thread_project) (file_len export_file)) ;;
               log Advice
             else ret tt) ;;
            raise e
          else raise e))
    (set_thread_target_timeout original_timeout).

(** [hasattr(p, 'import_status') and p.import_status != 'finished']. *)
Definition import_pending (p : Project) : bool :=
  match p_import_status p with
  | Some status => negb (String.eqb status "finished")
  | None => false
  end.

(** [hasattr(p, 'import_status') and p.import_status == 'failed']. *)
Definition import_failed (p : Project) : bool :=
  match p_import_status p with
  | Some status => String.eqb status "failed"
  | None => false
  end.

(** Lines 262-267. *)
Fixpoint wait_import (fuel : nat) (import_project : Project)
  : Prog W (option Project) Project :=
  if import_pending import_project then
    match fuel with
    | O => diverge
    | S fuel' =>
        call (Sleep 5) ;;
        import_project <- call (ProjectRefresh import_project) ;;
        if import_failed import_project then
          log (ImportFailed (p_name project)) ;;
          return_ None
        else wait_import fuel' import_project
    end
  else ret import_project.

(** Lines 251-270: from the reply of the import call to the result. *)
Definition poll_import (fuel : nat) (thread_project : Project)
  (target_path : string) (reply : ImportReply)
  : Prog W (option Project) (option Project) :=
  import_project <-
    match reply with
    | ReplyDict project_id =>
        if falsy_id project_id then
          log (NoProjectId (p_name project)) ;;
          return_ None
        else
          call (ProjectsGet target_gl
                  (ById (match project_id with Some i => i | None => 0 end)))
    | ReplyObject p => ret p
    end ;;
  import_project <- wait_import fuel import_project ;;
  log (Migrated (p_name thread_project)
         (g_full_path target_group ++ "/" ++ target_path)) ;;
  return_ (Some import_project).

(** Lines 145-270: the body of the outer [try]. *)
Definition migrate_project_try (fuel : nat)
  : Prog W (option Project) (option Project) :=
  let project_name := p_name project in
  let target_group_path := g_full_path target_group in
  check_name project_name target_group_path ;;
  log (FetchingProject project_name) ;;
  thread_project <- call (ProjectsGet thread_source_gl (ById (p_id project))) ;;
  bind_thread_project thread_project ;;
  let target_path := p_path thread_project in
  let target_name := p_name thread_project in
  check_path project_name target_group_path target_path ;;
  export <- call (ExportsCreate thread_project) ;;
  export <- call (ExportRefresh export) ;;
  export <- wait_export fuel thread_project export ;;
  export_file <- call (ExportDownload export) ;;
  log (ExportSize (p_name thread_project) (file_len export_file)) ;;
  (if size_mb_exceeds export_file 100
   then log (LargeFileWarning (file_len export_file))
   else ret tt) ;;
  import_project <-
    import_with_timeout thread_project export_file target_path target_name ;;
  poll_import fuel thread_project target_path import_project.

(** The whole function. The sessions of lines 136-139 are fresh objects;
    [thread_project] is not bound yet. The handler of lines 272-274 reads
    [thread_project.name]. *)
Definition migrate_project (fuel : nat) : Prog W (option Project) (option Project) :=
  set_frame (mkFrame timeout_ None) ;;
  log (StartProject (p_name project) (p_id project)) ;;
  try_except
    (migrate_project_try fuel)
    (fun e =>
       if is_Exception e then
         f <- get_frame ;;
         match thread_project f with
         | Some thread_project =>
             log (WorkerError (p_name thread_project) (str e)) ;;
             return_ None
         | None => raise (UnboundLocalError "thread_project")
         end
       else raise e).

End Worker.

(** *** [migrate_group], lines 277-320 *)

Section Driver.

(** The order in which the futures of one batch complete is not fixed by
    the script ([as_completed]): it is a parameter, applied to the list
    of submitted projects. A worker runs from start to end when its turn
    comes. [max_workers] bounds how many would overlap, which plays no
    part once the order is given; but the pool of line 294 refuses a
    bound that is not positive. A future that re-raises something other
    than an [Exception] ends the loop (line 306 does not catch it); the
    workers whose futures have not been collected by then do not appear
    in the history. *)
Variable schedule : list Project -> list Project.

Variables (source_gl target_gl : Gitlab).
Variables (patience : nat) (max_workers : Z) (overwrite : bool).

(** A submitted worker, run to its end: the future keeps the value the
    worker returned, or the exception that left it. *)
Definition submit {R} (target_group : Group) (project : Project)
  (worker : Prog W (option Project) (option Project))
  : Prog W R FutureResult :=
  fun s =>
    let '(o, s', t) := worker s in
    match o with
    | Normal r =>
        (Normal (Value r), s', [Ran target_group project t (Value r)])
    | Returned r =>
        (Normal (Value r), s', [Ran target_group project t (Value r)])
    | Raised e =>
        (Normal (Exception e), s',
         [Ran target_group project t (Exception e)])
    | Diverged => (Diverged, s', [Ran target_group project t Pending])
    end.

(** The truth value of the worker's result (l.303). *)
Definition truthy (result : option Project) : bool :=
  match result with
  | Some _ => true
  | None => false
  end.

(** Lines 299-309, one round of the [for future in as_completed(...)]
    loop. *)
Definition collect_one {R} (target_group : Group) (project : Project)
  (counts : Z * Z) : Prog W R (Z * Z) :=
  let (success_count, failed_count) := counts in
  future <-
    submit target_group project
      (migrate_project source_gl target_gl project target_group
         overwrite patience) ;;
  try_except
    (result <-
       match future with
       | Value r => ret r
       | Exception e => raise e
       | Pending => diverge
       end ;;
     if truthy result
     then ret (success_count + 1, failed_count)
     else ret (success_count, failed_count + 1))
    (fun e =>
       if is_Exception e then
         log (FutureException (p_name project) (str e)) ;;
         ret (success_count, failed_count + 1)
       else raise e).

(** Lines 290-309: the batch of one group. *)
Fixpoint collect {R} (target_group : Group) (completed : list Project)
  (counts : Z * Z) : Prog W R (Z * Z) :=
  match completed with
  | [] => ret counts
  | project :: rest =>
      counts <- collect_one target_group project counts ;;
      collect target_group rest counts
  end.

(** Line 294: [ThreadPoolExecutor(max_workers=max_workers)] raises
    [ValueError] when [max_workers <= 0]. *)
Definition open_pool {R} : Prog W R unit :=
  if max_workers <=? 0
  then raise (ValueError "max_workers must be greater than 0")
  else ret tt.

Fixpoint migrate_group (fuel : nat) (source_group_path : string)
  : Prog W unit unit :=
  match fuel with
  | O => diverge
  | S fuel' =>
      source_group <- get_source_group source_gl source_group_path ;;
      target_group <-
        create_target_group_structure target_gl source_group_path
          source_group ;;
      projects <- call (GroupProjectsList source_group) ;;
      log (FoundProjects source_group_path (List.length projects)) ;;
      open_pool ;;
      counts <- collect target_group (schedule projects) (0, 0) ;;
      subgroups <- call (GroupSubgroupsList source_group) ;;
      log (FoundSubgroups source_group_path (List.length subgroups)) ;;
      for_each subgroups
        (fun subgroup =>
           let subgroup_path :=
             (source_group_path ++ "/" ++ g_path subgroup)%string in
           log (StartSubgroup subgroup_path) ;;
           migrate_group fuel' subgroup_path) ;;
      log (GroupDone source_group_path (fst counts) (snd counts))
  end.

End Driver.

End Script.

(** ** A simulated platform

    Two instances behind one handler. The source instance is read-only:
    a table of groups by full path and a table of projects by id, each
    project with the statuses its export job shows refresh after refresh
    and the size of its artifact. The target instance is a growing list
    of groups (the id of a group is its position, counted from 1), a list
    of projects, and a few switches that decide how it answers: lookups
    that fail with a server error, the upload limit, the shape of the
    reply to an import and the statuses an import job shows. *)

Module Sim.

Definition source_url : string := "https://source.example".
Definition target_url : string := "https://target.example".

Definition source_session (t : Z) : Gitlab :=
  mkGitlab source_url "source-token" t true.
Definition target_session (t : Z) : Gitlab :=
  mkGitlab target_url "target-token" t true.

Record SourceNode := mkSourceNode {
  sn_id : Z;
  sn_name : string;
  sn_path : string;
  sn_visibility : string;
  sn_projects : list Project;
  sn_subgroups : list Group
}.

Record SourceProject := mkSourceProject {
  sp_name : string;
  sp_path : string;
  sp_export : nat -> string;
  sp_size : Z
}.

Record TargetGroup := mkTargetGroup {
  tg_name : string;
  tg_path : string;
  tg_full_path : string;
  tg_visibility : string;
  tg_parent : option Z
}.

Inductive ReplyShape := AsObject | AsDict | AsDictWithoutId.

Record World := mkWorld {
  source_groups : string -> option SourceNode;
  source_projects : Z -> option SourceProject;
  lookup_fault : string -> option string;
  upload_limit : Z;
  reply_shape : string -> ReplyShape;
  import_status : string -> nat -> option string;
  target_groups : list TargetGroup;
  target_projects : list Project;
  next_project_id : Z
}.

Definition with_target_groups (w : World) (gs : list TargetGroup) : World :=
  mkWorld (source_groups w) (source_projects w) (lookup_fault w)
    (upload_limit w) (reply_shape w) (import_status w)
    gs (target_projects w) (next_project_id w).

Definition with_target_projects (w : World) (ps : list Project) (next : Z)
  : World :=
  mkWorld (source_groups w) (source_projects w) (lookup_fault w)
    (upload_limit w) (reply_shape w) (import_status w)
    (target_groups w) ps next.

Definition on_source (gl : Gitlab) : bool := String.eqb (url gl) source_url.

Definition group_object (id : Z) (g : TargetGroup) : Group :=
  mkGroup id (tg_name g) (tg_path g) (tg_full_path g) (tg_visibility g).

(** The first group with this full path, from position [i] on. *)
Fixpoint find_group (path : string) (i : Z) (gs : list TargetGroup)
  : option Group :=
  match gs with
  | [] => None
  | g :: rest =>
      if String.eqb (tg_full_path g) path then Some (group_object i g)
      else find_group path (i + 1) rest
  end.

Definition group_by_id (id : Z) (gs : list TargetGroup) : option TargetGroup :=
  if 1 <=? id then nth_error gs (Z.to_nat (id - 1)) else None.

Definition has_path (path : string) (p : Project) : bool :=
  String.eqb (p_path_with_namespace p) path.

Definition has_project (w : World) (path : string) : bool :=
  existsb (has_path path) (target_projects w).

Definition groups_get (gl : Gitlab) (path : string) (w : World)
  : (exn + Group) * World :=
  if on_source gl then
    match source_groups w path with
    | Some n =>
        (inr (mkGroup (sn_id n) (sn_name n) (sn_path n) path
                (sn_visibility n)), w)
    | None => (inl (GitlabGetError "404 Group Not Found"), w)
    end
  else if String.eqb path "" then
    (inl (GitlabGetError "404 Not Found"), w)
  else
    match find_group path 1 (target_groups w) with
    | Some g => (inr g, w)
    | None => (inl (GitlabGetError "404 Group Not Found"), w)
    end.

Definition add_group (data : GroupData) (full : string) (w : World)
  : (exn + Group) * World :=
  let g := mkTargetGroup (gd_name data) (gd_path data) full
             (gd_visibility data) (gd_parent_id data) in
  (inr (group_object (Z.of_nat (List.length (target_groups w)) + 1) g),
   with_target_groups w (target_groups w ++ [g])).

Definition groups_create (gl : Gitlab) (data : GroupData) (w : World)
  : (exn + Group) * World :=
  if on_source gl then (inl (GitlabError "403 Forbidden"), w)
  else if String.eqb (gd_path data) "" then
    (inl (GitlabError "400 Path can't be blank"), w)
  else
    match gd_parent_id data with
    | None => add_group data (gd_path data) w
    | Some pid =>
        match group_by_id pid (target_groups w) with
        | Some parent =>
            add_group data (tg_full_path parent ++ "/" ++ gd_path data) w
        | None => (inl (GitlabError "404 Parent Not Found"), w)
        end
    end.

Definition group_projects_list (g : Group) (w : World)
  : (exn + list Project) * World :=
  match source_groups w (g_full_path g) with
  | Some n => (inr (sn_projects n), w)
  | None => (inl (GitlabError "404 Group Not Found"), w)
  end.

Definition group_subgroups_list (g : Group) (w : World)
  : (exn + list Group) * World :=
  match source_groups w (g_full_path g) with
  | Some n => (inr (sn_subgroups n), w)
  | None => (inl (GitlabError "404 Group Not Found"), w)
  end.

Definition projects_get (gl : Gitlab) (key : ProjectKey) (w : World)
  : (exn + Project) * World :=
  if on_source gl then
    match key with
    | ById id =>
        match source_projects w id with
        | Some sp =>
            (inr (mkProject id (sp_name sp) (sp_path sp) "" None 0), w)
        | None => (inl (GitlabGetError "404 Project Not Found"), w)
        end
    | ByPath _ => (inl (GitlabGetError "404 Project Not Found"), w)
    end
  else
    match key with
    | ByPath path =>
        match lookup_fault w path with
        | Some msg => (inl (GitlabError msg), w)
        | None =>
            match find (has_path path) (target_projects w) with
            | Some p => (inr p, w)
            | None => (inl (GitlabGetError "404 Project Not Found"), w)
            end
        end
    | ById id =>
        match find (fun p => p_id p =? id) (target_projects w) with
        | Some p => (inr p, w)
        | None => (inl (GitlabGetError "404 Project Not Found"), w)
        end
    end.

Definition project_delete (p : Project) (w : World) : (exn + unit) * World :=
  (inr tt,
   with_target_projects w
     (filter (fun q => negb (p_id q =? p_id p)) (target_projects w))
     (next_project_id w)).

Definition exports_create (p : Project) (w : World) : (exn + Export) * World :=
  match source_projects w (p_id p) with
  | Some _ => (inr (mkExport (p_id p) "none" 0), w)
  | None => (inl (GitlabError "404 Project Not Found"), w)
  end.

Definition export_refresh (e : Export) (w : World) : (exn + Export) * World :=
  match source_projects w (ex_project_id e) with
  | Some sp =>
      (inr (mkExport (ex_project_id e) (sp_export sp (ex_refreshes e))
              (S (ex_refreshes e))), w)
  | None => (inl (GitlabError "404 Project Not Found"), w)
  end.

Definition export_download (e : Export) (w : World)
  : (exn + ExportFile) * World :=
  match source_projects w (ex_project_id e) with
  | Some sp => (inr (mkExportFile (sp_size sp) (ex_project_id e)), w)
  | None => (inl (GitlabError "404 Project Not Found"), w)
  end.

Definition projects_import (gl : Gitlab) (file : ExportFile) (path : string)
  (namespace : Z) (name : string) (w : World)
  : (exn + ImportReply) * World :=
  if upload_limit w <? file_len file then
    (inl (GitlabError "413: Request Entity Too Large"), w)
  else
    match group_by_id namespace (target_groups w) with
    | None => (inl (GitlabError "404 Namespace Not Found"), w)
    | Some g =>
        let full := (tg_full_path g ++ "/" ++ path)%string in
        if has_project w full then
          (inl (GitlabError "400 Path has already been taken"), w)
        else
          let p := mkProject (next_project_id w) name path full
                     (import_status w full 0) 0 in
          let w' := with_target_projects w (target_projects w ++ [p])
                      (next_project_id w + 1) in
          match reply_shape w full with
          | AsObject => (inr (ReplyObject p), w')
          | AsDict => (inr (ReplyDict (Some (p_id p))), w')
          | AsDictWithoutId => (inr (ReplyDict None), w')
          end
    end.

Definition project_refresh (p : Project) (w : World)
  : (exn + Project) * World :=
  (inr (mkProject (p_id p) (p_name p) (p_path p) (p_path_with_namespace p)
          (import_status w (p_path_with_namespace p) (S (p_refreshes p)))
          (S (p_refreshes p))), w).

#[global] Instance platform : Platform World :=
  fun c =>
    match c as c0 return World -> (exn + Reply c0) * World with
    | GroupsGet gl path => groups_get gl path
    | GroupsCreate gl data => groups_create gl data
    | GroupProjectsList g => group_projects_list g
    | GroupSubgroupsList g => group_subgroups_list g
    | ProjectsGet gl key => projects_get gl key
    | ProjectDelete p => project_delete p
    | ExportsCreate p => exports_create p
    | ExportRefresh e => export_refresh e
    | ExportDownload e => export_download e
    | ProjectsImport gl file path namespace name =>
        projects_import gl file path namespace name
    | ProjectRefresh p => project_refresh p
    | Sleep _ => fun w => (inr tt, w)
    end.

End Sim.

(** ** Sample worlds

    The source of the specification's scenario: group [team/alpha] with
    projects [svc1] and [svc2] and subgroup [beta] with project [svc3]. *)

Module Scenario.

Import Sim.

Definition listed (id : Z) (name : string) : Project :=
  mkProject id name name "" None 0.

Definition alpha : SourceNode :=
  mkSourceNode 10 "alpha" "alpha" "private"
    [listed 1 "svc1"; listed 2 "svc2"]
    [mkGroup 11 "beta" "beta" "team/alpha/beta" "internal"].

Definition beta : SourceNode :=
  mkSourceNode 11 "beta" "beta" "internal" [listed 3 "svc3"] [].

Definition groups (path : string) : option SourceNode :=
  if String.eqb path "team/alpha" then Some alpha
  else if String.eqb path "team/alpha/beta" then Some beta
  else None.

(** An export that is done at the second refresh. *)
Definition quick (n : nat) : string :=
  match n with
  | O => "started"
  | S _ => "finished"
  end.

Definition projects (id : Z) : option SourceProject :=
  if id =? 1 then Some (mkSourceProject "svc1" "svc1" quick 1000)
  else if id =? 2 then Some (mkSourceProject "svc2" "svc2" quick 2000)
  else if id =? 3 then Some (mkSourceProject "svc3" "svc3" quick 3000)
  else None.

Definition done (path : string) (n : nat) : option string := Some "finished".

(** Nothing on the target yet. *)
Definition empty_target : World :=
  mkWorld groups projects (fun _ => None) 1000000000 (fun _ => AsObject) done
    [] [] 1.

(** The target already has [team/alpha/svc1]. *)
Definition svc1_on_target : World :=
  mkWorld groups projects (fun _ => None) 1000000000 (fun _ => AsObject) done
    [mkTargetGroup "team" "team" "team" "private" None;
     mkTargetGroup "alpha" "alpha" "team/alpha" "private" (Some 1)]
    [mkProject 1 "svc1" "svc1" "team/alpha/svc1" (Some "finished") 0] 2.

Definition start (w : World) : State World := mkState w (mkFrame 0 None).

(** A run over [team/alpha], futures completing in submission order,
    with the default bound of 5 workers. *)
Definition run_with (patience fuel : nat) (overwrite : bool) (w : World)
  : Outcome unit unit * State World * list Event :=
  migrate_group (fun l => l) (source_session 30) (target_session 30)
    patience 5 overwrite fuel "team/alpha" (start w).

Definition run (overwrite : bool) (w : World)
  : Outcome unit unit * State World * list Event :=
  run_with 5 5 overwrite w.

(** The groups [team] and [team/alpha] exist on the target. *)
Definition target_tree : list TargetGroup :=
  [mkTargetGroup "team" "team" "team" "private" None;
   mkTargetGroup "alpha" "alpha" "team/alpha" "private" (Some 1)].

(** What the resolver returns for [team/alpha] then. *)
Definition alpha_on_target : Group :=
  mkGroup 2 "alpha" "alpha" "team/alpha" "private".

(** One worker, for a project listed in [team/alpha]. *)
Definition work (project : Project) (overwrite : bool) (w : World)
  : Outcome (option Project) (option Project) * State World * list Event :=
  migrate_project (source_session 30) (target_session 30) project
    alpha_on_target overwrite 5 (start w).

(** [svc1] has the path [service-one], and the target answers a lookup
    of [team/alpha/service-one] with a server error. *)
Definition renamed_projects (id : Z) : option SourceProject :=
  if id =? 1 then Some (mkSourceProject "svc1" "service-one" quick 1000)
  else projects id.

Definition path_fault (path : string) : option string :=
  if String.eqb path "team/alpha/service-one"
  then Some "500 Internal Server Error"
  else None.

Definition faulty_path : World :=
  mkWorld groups renamed_projects path_fault 1000000000 (fun _ => AsObject)
    done target_tree [] 1.

(** The target answers an import with a dictionary that holds the id,
    and the import job then goes from [started] to [failed]. *)
Definition failing (path : string) (n : nat) : option string :=
  match n with
  | O => Some "started"
  | S _ => Some "failed"
  end.

Definition dict_reply : World :=
  mkWorld groups projects (fun _ => None) 1000000000 (fun _ => AsDict)
    failing target_tree [] 1.

(** A project that is listed in the group but cannot be fetched from the
    source by its id. *)
Definition ghost : Project := listed 99 "ghost".

Definition groups_only : World :=
  mkWorld groups projects (fun _ => None) 1000000000 (fun _ => AsObject)
    done target_tree [] 1.

(** The export of [svc1] never leaves [started]. *)
Definition stuck (n : nat) : string := "started".

Definition stuck_projects (id : Z) : option SourceProject :=
  if id =? 1 then Some (mkSourceProject "svc1" "svc1" stuck 1000)
  else projects id.

Definition stuck_export : World :=
  mkWorld groups stuck_projects (fun _ => None) 1000000000
    (fun _ => AsObject) done [] [] 1.

End Scenario.

(** ** A large artifact

    The sample source with an artifact of 250 MB for [svc2], on a
    target that has the groups. *)
Module Large.

Import Sim.

Definition projects (id : Z) : option SourceProject :=
  if id =? 2
  then Some (mkSourceProject "svc2" "svc2" Scenario.quick 262144000)
  else Scenario.projects id.

Definition source : World :=
  mkWorld Scenario.groups projects (fun _ => None) 1000000000
    (fun _ => AsObject) Scenario.done Scenario.target_tree [] 1.

End Large.

(** ** A source that fails once

    The simulated platform behind a source that answers the first export
    request it gets with a server error; from then on, and for every
    other request, it answers as the simulated platform does. The flag
    says whether that first request has been seen. *)
Module Flaky.

Definition World : Type := (Sim.World * bool)%type.

Definition is_export_request (c : ApiCall) : bool :=
  match c with
  | ExportsCreate _ => true
  | _ => false
  end.

Definition platform : Platform World :=
  fun c ww =>
    let '(w, seen) := ww in
    if is_export_request c && negb seen then
      (inl (GitlabError "500 Internal Server Error"), (w, true))
    else
      let '(r, w') := Sim.platform c w in (r, (w', seen)).

(** A run over [team/alpha] without overwrite, futures completing in
    submission order. *)
Definition run (ww : World)
  : Outcome unit unit * State World * list Event :=
  @migrate_group World platform (fun l => l) (Sim.source_session 30)
    (Sim.target_session 30) 5 5 false 5 "team/alpha"
    (mkState ww (mkFrame 0 None)).

End Flaky.

(** ** A platform that is down

    [time.sleep] returns; every request is answered with a gateway
    error. There is nothing to remember. *)
Module Broken.

Definition platform : Platform unit :=
  fun c =>
    match c as c0 return unit -> (exn + Reply c0) * unit with
    | Sleep _ => fun w => (inr tt, w)
    | _ => fun w => (inl (GitlabError "502 Bad Gateway"), w)
    end.

End Broken.

(** ** Vocabulary of the statements *)

Definition is_log (e : Event) : Prop :=
  match e with
  | Logged _ => True
  | _ => False
  end.

(** The polls of a waiting loop, as the platform answers them. One round
    is [time.sleep(5)] followed by [refresh()]; the handle is [None] once
    a round has raised. *)

Section Polls.

Context {W : Type} {platform : Platform W}.

Definition export_round (w : W) (e : Export) : W * option Export :=
  match perform (Sleep 5) w with
  | (inl _, w1) => (w1, None)
  | (inr _, w1) =>
      match perform (ExportRefresh e) w1 with
      | (inl _, w2) => (w2, None)
      | (inr e', w2) => (w2, Some e')
      end
  end.

Fixpoint export_polls (k : nat) (w : W) (e : Export) : W * option Export :=
  match k with
  | O => (w, Some e)
  | S k' =>
      match export_round w e with
      | (w', Some e') => export_polls k' w' e'
      | (w', None) => (w', None)
      end
  end.

(** The poll broke, or showed [finished] or [failed]. *)
Definition export_settled (seen : option Export) : Prop :=
  match seen with
  | None => True
  | Some e => export_status e = "finished" \/ export_status e = "failed"
  end.

Definition import_round (w : W) (p : Project) : W * option Project :=
  match perform (Sleep 5) w with
  | (inl _, w1) => (w1, None)
  | (inr _, w1) =>
      match perform (ProjectRefresh p) w1 with
      | (inl _, w2) => (w2, None)
      | (inr p', w2) => (w2, Some p')
      end
  end.

Fixpoint import_polls (k : nat) (w : W) (p : Project) : W * option Project :=
  match k with
  | O => (w, Some p)
  | S k' =>
      match import_round w p with
      | (w', Some p') => import_polls k' w' p'
      | (w', None) => (w', None)
      end
  end.

(** The poll broke, or showed a handle that ends the loop: [failed], or
    no longer pending ([finished], or no status at all). *)
Definition import_settled (seen : option Project) : Prop :=
  match seen with
  | None => True
  | Some p => import_pending p = false \/ import_failed p = true
  end.

End Polls.

Definition outcome_of {W R A} (r : Outcome R A * State W * list Event)
  : Outcome R A := fst (fst r).

Definition final {W R A} (r : Outcome R A * State W * list Event)
  : State W := snd (fst r).

Definition history {W R A} (r : Outcome R A * State W * list Event)
  : list Event := snd r.

(** A relation between the state a piece of script starts in and the
    state it leaves, whatever its outcome. *)
Definition respects {W : Type} (P : State W -> State W -> Prop) {R A}
  (c : Prog W R A) : Prop :=
  forall s, P s (final (c s)).

(** The timeout of the worker's target session is what it was. *)
Definition same_timeout {W : Type} (s s' : State W) : Prop :=
  thread_target_timeout (frame s') = thread_target_timeout (frame s).

(** The futures of a history that hold a project (the worker returned
    the imported project), and the others. *)
Definition succeeded (e : Event) : bool :=
  match e with
  | Ran _ _ _ (Value (Some _)) => true
  | _ => false
  end.

Definition not_succeeded (e : Event) : bool :=
  match e with
  | Ran _ _ _ (Value (Some _)) => false
  | Ran _ _ _ _ => true
  | _ => false
  end.

Definition count (f : Event -> bool) (t : list Event) : Z :=
  Z.of_nat (List.length (filter f t)).

(** The projects whose futures a history collects, in order. *)
Fixpoint ran_projects (t : list Event) : list Project :=
  match t with
  | [] => []
  | Ran _ p _ _ :: rest => p :: ran_projects rest
  | _ :: rest => ran_projects rest
  end.

(** The session the worker makes for the target at line 138: the
    target's url and token, the source's timeout and verification
    flag. *)
Definition worker_target_session (source_gl target_gl : Gitlab) : Gitlab :=
  mkGitlab (url target_gl) (private_token target_gl) (timeout source_gl)
    (ssl_verify source_gl).

(** One round of the collecting loop (lines 299-309), by what the worker
    behind the future did. *)
Definition collected {W R} (tg : Group) (p : Project) (sc fc : Z)
  (w : Outcome (option Project) (option Project) * State W * list Event)
  : Outcome R (Z * Z) * State W * list Event :=
  match outcome_of w with
  | Normal r | Returned r =>
      (Normal (if truthy r then (sc + 1, fc) else (sc, fc + 1)), final w,
       [Ran tg p (history w) (Value r)])
  | Raised e =>
      if is_Exception e then
        (Normal (sc, fc + 1), final w,
         [Ran tg p (history w) (Exception e);
          Logged (FutureException (p_name p) (str e))])
      else (Raised e, final w, [Ran tg p (history w) (Exception e)])
  | Diverged => (Diverged, final w, [Ran tg p (history w) Pending])
  end.

(** Membership in a history, for closed histories. *)
Ltac in_history := repeat first [ left; reflexivity | right ].

Ltac not_in_history :=
  let H := fresh in
  intros H; repeat (destruct H as [H|H]; [discriminate H|]); exact H.

(** ** The resolver as the specification words it

    "Split [group_path] on [/]; walk segments left to right, accumulating
    the prefix path. For each prefix, attempt a lookup by full path; if
    absent, create it with the segment as both name and path, setting
    parent = previous level's GroupNode for all but the first segment,
    and visibility [the one given] for every created group at any depth.
    Returns the GroupNode for the final (full) path." *)

(** The full path made of these segments. *)
Definition join (segments : list string) : string :=
  String.concat "/" segments.

Section ResolveSpec.

Context {W : Type} {platform : Platform W}.

Fixpoint resolve_levels {R} (target : Gitlab) (visibility : string)
  (walked : list string) (previous : option Group) (segments : list string)
  : Prog W R (option Group) :=
  match segments with
  | [] => ret previous
  | segment :: rest =>
      let prefix := join (walked ++ [segment]) in
      node <-
        try_except
          (call (GroupsGet target prefix))
          (fun e =>
             match e with
             | GitlabGetError _ =>
                 call (GroupsCreate target
                         (mkGroupData segment segment visibility
                            (option_map g_id previous)))
             | _ => raise e
             end) ;;
      resolve_levels target visibility (walked ++ [segment]) (Some node) rest
  end.

Definition resolve_or_create {R} (target : Gitlab) (group_path : string)
  (visibility : string) : Prog W R Group :=
  invoke
    (node <- resolve_levels target visibility [] None (split group_path) ;;
     match node with
     | Some group => return_ group
     | None => raise (AttributeError "path_parts is empty")
     end).

End ResolveSpec.

(** The requests of a history, without the log lines between them. *)
Fixpoint requests (t : list Event) : list ApiCall :=
  match t with
  | [] => []
  | Called c :: rest => c :: requests rest
  | _ :: rest => requests rest
  end.

(** Two runs that differ in their log lines only. *)
Definition same_run {W R A} (r1 r2 : Outcome R A * State W * list Event)
  : Prop :=
  outcome_of r1 = outcome_of r2 /\
  final r1 = final r2 /\
  requests (history r1) = requests (history r2).

(** ** Vocabulary for runs on the simulated platform *)

(** A relation between platform states, read on script states. *)
Definition on_world {W} (P : W -> W -> Prop) (s s' : State W) : Prop :=
  P (world s) (world s').

(** An outcome that lets the caller go on: the script neither hangs nor
    leaves through [SystemExit]. *)
Definition ok {R A} (o : Outcome R A) : Prop :=
  match o with
  | Diverged => False
  | Raised e => is_Exception e = true
  | _ => True
  end.

(** From a platform state that satisfies [Inv], the piece of script ends
    in such a state with an outcome that lets the caller go on. *)
Definition safe {W} (Inv : W -> Prop) {R A} (c : Prog W R A) : Prop :=
  forall s, Inv (world s) ->
            Inv (world (final (c s))) /\ ok (outcome_of (c s)).

Module SimSpec.

Import Sim.

(** The source and the switches are the same, the target has the same
    groups at the same positions and maybe more. *)
Definition same_source (w w' : World) : Prop :=
  source_groups w' = source_groups w /\
  source_projects w' = source_projects w /\
  lookup_fault w' = lookup_fault w /\
  upload_limit w' = upload_limit w /\
  reply_shape w' = reply_shape w /\
  import_status w' = import_status w /\
  exists more, target_groups w' = target_groups w ++ more.

(** Moreover no project has left the target. *)
Definition grows (w w' : World) : Prop :=
  same_source w w' /\
  forall path, has_project w path = true -> has_project w' path = true.

(** A status that ends a waiting loop. *)
Definition export_ends (status : string) : Prop :=
  status = "finished" \/ status = "failed".

Definition import_ends (status : option string) : Prop :=
  match status with
  | None => True
  | Some st => st = "finished" \/ st = "failed"
  end.

(** Every job shows an ending status within [patience] polls, from any
    poll on. *)
Definition patient (patience : nat) (w : World) : Prop :=
  (forall id sp n,
      source_projects w id = Some sp ->
      exists k, (k < patience)%nat /\ export_ends (sp_export sp (n + k))) /\
  (forall path n,
      exists k, (k < patience)%nat /\
                import_ends (import_status w path (S (n + k)))).









End SimSpec.

(** The value of [current_path] after the loop of the resolver has gone
    through these segments. *)
Fixpoint accumulate (current_path : string) (path_parts : list string)
  : string :=
  match path_parts with
  | [] => current_path
  | part :: rest =>
      accumulate
        (if truthy_string current_path
         then (current_path ++ "/" ++ part)%string
         else part) rest
  end.

(** The full path of the target group of a source path. *)
Definition target_path_of (group_path : string) : string :=
  accumulate "" (split group_path).

(** No segment of the path is empty. *)
Definition well_formed (group_path : string) : Prop :=
  Forall (fun part => part <> "") (split group_path).

Module SimGroups.

Import Sim.

(** The group object names a group that the target has, under the id and
    the full path the object shows. *)
Definition placed (w : World) (g : Group) : Prop :=
  exists tg, group_by_id (g_id g) (target_groups w) = Some tg /\
             tg_full_path tg = g_full_path g.

End SimGroups.

(** ** Postconditions

    [wp c Q s]: run from [s], the piece of script [c] ends with an
    outcome, a state and a history that satisfy [Q]. *)
Definition wp {W R A} (c : Prog W R A)
  (Q : Outcome R A -> State W -> list Event -> Prop) (s : State W) : Prop :=
  Q (outcome_of (c s)) (final (c s)) (history (c s)).

(** What is left to show once a piece of script has run and [k] comes
    next. *)
Definition wp_then {W R A B} (k : A -> Prog W R B)
  (Q : Outcome R B -> State W -> list Event -> Prop)
  (o : Outcome R A) (s : State W) (t : list Event) : Prop :=
  match o with
  | Normal a => wp (k a) (fun o' s' t' => Q o' s' (t ++ t')) s
  | Returned r => Q (Returned r) s t
  | Raised e => Q (Raised e) s t
  | Diverged => Q Diverged s t
  end.

(** The same for the handler of a [try]. *)
Definition wp_handle {W R A} (h : exn -> Prog W R A)
  (Q : Outcome R A -> State W -> list Event -> Prop)
  (o : Outcome R A) (s : State W) (t : list Event) : Prop :=
  match o with
  | Raised e => wp (h e) (fun o' s' t' => Q o' s' (t ++ t')) s
  | _ => Q o s t
  end.


(** ** Vocabulary for the order of a run *)

(** Every event of the history satisfies [Q], wherever the piece of
    script starts. *)
Definition emits {W} (Q : Event -> Prop) {R A} (c : Prog W R A) : Prop :=
  forall s, Forall Q (history (c s)).

(** What [migrate_group] does before it submits anything (lines
    279-288): it fetches the source group, resolves the target group and
    lists the projects. *)
Definition head_event (e : Event) : Prop :=
  match e with
  | Called (GroupsGet _ _) | Called (GroupsCreate _ _)
  | Called (GroupProjectsList _) => True
  | Logged (GotSourceGroup _ _) | Logged (SourceGroupNotFound _)
  | Logged (UsingExistingGroup _) | Logged (CreatedGroup _)
  | Logged (FoundProjects _ _) => True
  | _ => False
  end.

(** What the batch of a group adds to the history of the coordinator
    (lines 290-309): one future per worker, and the line of line 308. *)
Definition batch_event (e : Event) : Prop :=
  match e with
  | Ran _ _ _ _ => True
  | Logged (FutureException _ _) => True
  | _ => False
  end.

(** The worker behind the future has come to its end. *)
Definition drained (e : Event) : Prop :=
  match e with
  | Ran _ _ _ Pending => False
  | _ => True
  end.

(** The last line of [migrate_group] (line 320). *)
Definition closing_event (e : Event) : Prop :=
  match e with
  | Logged (GroupDone _ _ _) => True
  | _ => False
  end.

Definition ends_normally {R A} (o : Outcome R A) : bool :=
  match o with
  | Normal _ => true
  | _ => false
  end.

(** [in_turn body xs s t]: [t] is the history of [body] run on the
    elements of [xs] one after the other, in the order of the list, each
    from the state the one before has left, up to the first that does not
    end normally. *)
Inductive in_turn {W R A} (body : A -> Prog W R unit)
  : list A -> State W -> list Event -> Prop :=
| turn_over s : in_turn body [] s []
| turn_last x xs s :
    ends_normally (outcome_of (body x s)) = false ->
    in_turn body (x :: xs) s (history (body x s))
| turn_next x xs s t :
    ends_normally (outcome_of (body x s)) = true ->
    in_turn body xs (final (body x s)) t ->
    in_turn body (x :: xs) s (history (body x s) ++ t).

(** ** Vocabulary for the coverage of a run *)

(** What the resolver and [get_source_group] add to a history. *)
Definition lookup_event (e : Event) : Prop :=
  match e with
  | Called (GroupsGet _ _) | Called (GroupsCreate _ _) => True
  | Logged (GotSourceGroup _ _) | Logged (SourceGroupNotFound _)
  | Logged (UsingExistingGroup _) | Logged (CreatedGroup _) => True
  | _ => False
  end.

(** The futures of a history, in order: the full path of the target
    group and the project the worker was given. *)
Fixpoint handed (t : list Event) : list (string * Project) :=
  match t with
  | [] => []
  | Ran tg p _ _ :: rest => (g_full_path tg, p) :: handed rest
  | _ :: rest => handed rest
  end.

(** The groups whose projects were listed (line 288), in order. *)
Fixpoint visited (t : list Event) : list string :=
  match t with
  | [] => []
  | Logged (FoundProjects path _) :: rest => path :: visited rest
  | _ :: rest => visited rest
  end.

(** The closing lines (line 320), in order: the group and the sum of its
    two counters. *)
Fixpoint tallies (t : list Event) : list (string * Z) :=
  match t with
  | [] => []
  | Logged (GroupDone path success failed) :: rest =>
      (path, success + failed) :: tallies rest
  | _ :: rest => tallies rest
  end.

(** What a future holds, by how the worker ended. *)
Definition future_of (o : Outcome (option Project) (option Project))
  : FutureResult :=
  match o with
  | Normal r | Returned r => Value r
  | Raised e => Exception e
  | Diverged => Pending
  end.

(** The source tree of the simulated platform, as a run of depth [fuel]
    from [path] goes through it. *)
Module SimTree.

Import Sim.

Section Tree.

Variable schedule : list Project -> list Project.
Variable w : World.

Definition child_path (path : string) (subgroup : Group) : string :=
  path ++ "/" ++ g_path subgroup.

(** The groups, a group before its subgroups. *)
Fixpoint groups_of (fuel : nat) (path : string) : list string :=
  match fuel with
  | O => []
  | S fuel' =>
      match source_groups w path with
      | None => []
      | Some n =>
          path :: flat_map (fun sub => groups_of fuel' (child_path path sub))
                    (sn_subgroups n)
      end
  end.

(** The projects with the target group they go to: the batch of a group
    in the order of completion, then the subgroups. *)
Fixpoint plan (fuel : nat) (path : string) : list (string * Project) :=
  match fuel with
  | O => []
  | S fuel' =>
      match source_groups w path with
      | None => []
      | Some n =>
          map (pair (target_path_of path)) (schedule (sn_projects n))
          ++ flat_map (fun sub => plan fuel' (child_path path sub))
               (sn_subgroups n)
      end
  end.

(** The number of projects of every group, a group after its
    subgroups. *)
Fixpoint sizes (fuel : nat) (path : string) : list (string * Z) :=
  match fuel with
  | O => []
  | S fuel' =>
      match source_groups w path with
      | None => []
      | Some n =>
          flat_map (fun sub => sizes fuel' (child_path path sub))
            (sn_subgroups n)
          ++ [(path, Z.of_nat (List.length (sn_projects n)))]
      end
  end.

(** The tree under [path] is no deeper than [fuel], every subgroup that
    is listed can be fetched, and no segment of a path is empty. *)
Fixpoint closed (fuel : nat) (path : string) : Prop :=
  match fuel with
  | O => False
  | S fuel' =>
      well_formed path /\
      match source_groups w path with
      | None => False
      | Some n =>
          Forall (fun sub => closed fuel' (child_path path sub))
            (sn_subgroups n)
      end
  end.

End Tree.

(** The projects of the tree with their target groups, in the order of
    the listings. *)
Definition projects_of : World -> nat -> string -> list (string * Project) :=
  plan (fun projects => projects).

End SimTree.

(** The worker behind a future of a run on the simulated platform: it
    ran from a state between the two given ones, for a target group that
    the target had then. [le] is the order in which the platform
    moves. *)
Definition worker_run (le : Sim.World -> Sim.World -> Prop)
  (source_gl target_gl : Gitlab) (overwrite : bool) (patience : nat)
  (s s' : State Sim.World) (e : Event) : Prop :=
  match e with
  | Ran tg p h f =>
      exists si,
        le (world s) (world si) /\
        SimGroups.placed (world si) tg /\
        h = history (migrate_project source_gl target_gl p tg overwrite
                       patience si) /\
        f = future_of (outcome_of
                         (migrate_project source_gl target_gl p tg overwrite
                            patience si)) /\
        le (world (final (migrate_project source_gl target_gl p tg overwrite
                            patience si))) (world s')
  | _ => True
  end.

(** A run of [migrate_group] on the simulated platform, from [s], that
    comes to its end and has handed out, visited and counted what is
    expected. *)
Definition covers (le : Sim.World -> Sim.World -> Prop)
  (source_gl target_gl : Gitlab) (overwrite : bool) (patience : nat)
  (s : State Sim.World)
  (projects : list (string * Project)) (groups : list string)
  (totals : list (string * Z))
  (r : Outcome unit unit * State Sim.World * list Event) : Prop :=
  outcome_of r = Normal tt /\
  le (world s) (world (final r)) /\
  handed (history r) = projects /\
  visited (history r) = groups /\
  tallies (history r) = totals /\
  Forall (worker_run le source_gl target_gl overwrite patience s (final r))
    (history r).

(** The worker behind the future logged a skip, by name or by path. *)
Definition skip_logged (e : Event) : bool :=
  match e with
  | Logged (ExistsSkipping _) | Logged (PathExistsSkipping _) => true
  | _ => false
  end.

Definition skipped_future (e : Event) : bool :=
  match e with
  | Ran _ _ h _ => existsb skip_logged h
  | _ => false
  end.

(** A future of the batch for the target group with this full path. *)
Definition in_batch_of (target_group_path : string) (e : Event) : bool :=
  match e with
  | Ran tg _ _ _ => String.eqb (g_full_path tg) target_group_path
  | _ => false
  end.

(** ** Vocabulary for what a run never does *)

(** The requests behind an event, those of the workers included. *)
Fixpoint requests_of (e : Event) : list ApiCall :=
  match e with
  | Called c => [c]
  | Logged _ => []
  | Ran _ _ h _ => flat_map requests_of h
  end.

(** All the requests of a run, in order, a worker's requests where its
    future is collected. *)
Definition all_requests (t : list Event) : list ApiCall :=
  flat_map requests_of t.

(** Every request behind the event satisfies [Q]. *)
Definition within (Q : ApiCall -> Prop) (e : Event) : Prop :=
  Forall Q (requests_of e).

Definition not_a_delete (c : ApiCall) : Prop :=
  match c with
  | ProjectDelete _ => False
  | _ => True
  end.

(** A request that creates a group or imports a project is sent with the
    url and the token of [target_gl]. *)
Definition writes_to (target_gl : Gitlab) (c : ApiCall) : Prop :=
  match c with
  | GroupsCreate gl _ | ProjectsImport gl _ _ _ _ =>
      url gl = url target_gl /\ private_token gl = private_token target_gl
  | _ => True
  end.

(** The line of line 308 reports the unbound variable of line 273. *)
Definition reports_unbound_local (e : Event) : Prop :=
  match e with
  | Logged (FutureException _ msg) =>
      msg = str (UnboundLocalError "thread_project")
  | _ => True
  end.

(** A download is the download of an export that shows [finished]. *)
Definition of_a_finished_export (c : ApiCall) : Prop :=
  match c with
  | ExportDownload e => export_status e = "finished"
  | _ => True
  end.

(** What the loop of the resolver appends to a [current_path] that is
    not empty. *)
Fixpoint appended (path_parts : list string) : string :=
  match path_parts with
  | [] => ""
  | part :: rest => ("/" ++ part ++ appended rest)%string
  end.

(** The simulated target has a group under this full path. *)
Definition has_group (w : Sim.World) (path : string) : Prop :=
  exists g, SimGroups.placed w g /\ g_full_path g = path.

(** ** The entry point

    [connect_to_gitlab] (lines 55-68) and [main] (lines 323-346). What
    [parse_arguments] hands back is an input of [main]: the namespace of
    the command line, or what [argparse] raises. [KeyboardInterrupt]
    comes from the user, not from the platform, and is not among the
    exceptions of the model; the handler of lines 341-343 is therefore
    not reached. *)

(** The namespace of [parse_arguments] (lines 42-52). *)
Record Args := mkArgs {
  source_url : string;
  source_token : string;
  target_url : string;
  target_token : string;
  source_group : string;
  timeout_arg : Z;
  verify_ssl_arg : bool;
  max_workers : Z;
  overwrite_arg : bool
}.

(** What the body of the [try] of lines 57-62 does, the constructor and
    [gl.auth()]: it goes through, raises [GitlabAuthenticationError], or
    raises something else. *)
Inductive AuthReply :=
| Authenticated
| AuthenticationError
| AuthRaised (e : exn).

Class Authenticator (W : Type) :=
  auth : Gitlab -> W -> AuthReply * W.

(** The lines that the two functions log. *)
Inductive MainLine :=
| MigrationStarted                                            (* l.326 *)
| ConnectedTo (url : string)                                  (* l.61 *)
| AuthenticationFailed (url : string)                         (* l.64 *)
| ConnectionFailed (url : string) (msg : string)              (* l.67 *)
| MigrationCompleted (seconds : Z)                            (* l.340 *)
| MigrationFailed (msg : string).                             (* l.345 *)

(** The history of [main]: authentications, its own lines, and the
    events of [migrate_group]. *)
Inductive MainEvent :=
| Auth (gl : Gitlab)
| Said (l : MainLine)
| Script (e : Event).

(** How the process ends: with an exit status, or never. *)
Inductive Exit :=
| Exited (code : Z)
| Hung.

Section Main.

Context {W : Type} {platform : Platform W} {authenticator : Authenticator W}.

(** Lines 55-68. [sys.exit(1)] raises [SystemExit]. *)
Definition connect_to_gitlab (url token : string) (timeout : Z)
  (verify_ssl : bool) (w : W) : (exn + Gitlab) * W * list MainEvent :=
  let gl := mkGitlab url token timeout verify_ssl in
  let (reply, w') := auth gl w in
  match reply with
  | Authenticated => (inr gl, w', [Auth gl; Said (ConnectedTo url)])
  | AuthenticationError =>
      (inl (SystemExit 1), w', [Auth gl; Said (AuthenticationFailed url)])
  | AuthRaised e =>
      if is_Exception e then
        (inl (SystemExit 1), w',
         [Auth gl; Said (ConnectionFailed url (str e))])
      else (inl e, w', [Auth gl])
  end.

(** The handlers of lines 341-346, for what the body of the [try] has
    raised: an [Exception] is logged and the process exits with 1;
    [SystemExit] goes through. *)
Definition main_handler (e : exn) (w : W) (t : list MainEvent)
  : Exit * W * list MainEvent :=
  if is_Exception e then
    (Exited 1, w, t ++ [Said (MigrationFailed (str e))])
  else
    match e with
    | SystemExit code => (Exited code, w, t)
    | _ => (Exited 1, w, t)
    end.

(** The order of completion of the futures, the fuel of the loops and of
    the recursion, and the clock are parameters. *)
Variable schedule : list Project -> list Project.
Variables (patience fuel : nat).
Variable clock : W -> Z.

(** Lines 323-346. *)
Definition main (parsed : exn + Args) (w : W) : Exit * W * list MainEvent :=
  let start_time := clock w in
  let started := [Said MigrationStarted] in
  match parsed with
  | inl e => main_handler e w started
  | inr args =>
      let '(source, w1, t1) :=
        connect_to_gitlab (source_url args) (source_token args)
          (timeout_arg args) (verify_ssl_arg args) w in
      match source with
      | inl e => main_handler e w1 (started ++ t1)
      | inr source_gl =>
          let '(target, w2, t2) :=
            connect_to_gitlab (target_url args) (target_token args)
              (timeout_arg args) (verify_ssl_arg args) w1 in
          match target with
          | inl e => main_handler e w2 (started ++ t1 ++ t2)
          | inr target_gl =>
              let '(o, s3, t3) :=
                migrate_group schedule source_gl target_gl patience
                  (max_workers args) (overwrite_arg args) fuel
                  (source_group args)
                  (mkState w2 (mkFrame (timeout_arg args) None)) in
              let t := started ++ t1 ++ t2 ++ map Script t3 in
              match o with
              | Normal _ | Returned _ =>
                  let end_time := clock (world s3) in
                  (Exited 0, world s3,
                   t ++ [Said (MigrationCompleted (end_time - start_time))])
              | Raised e => main_handler e (world s3) t
              | Diverged => (Hung, world s3, t)
              end
          end
      end
  end.

End Main.

(** The exceptions that a run lets through to [main]: an [Exception],
    or the [SystemExit] of line 79. *)
Definition exits_with_one (e : exn) : Prop :=
  is_Exception e = true \/ e = SystemExit 1.

(** What a piece of script raises satisfies [P]. *)
Definition raises {W} (P : exn -> Prop) {R A} (c : Prog W R A) : Prop :=
  forall s e, outcome_of (c s) = Raised e -> P e.

(** The line that ends a run that went through. *)
Definition completion_line (e : MainEvent) : Prop :=
  match e with
  | Said (MigrationCompleted _) => True
  | _ => False
  end.

(** A history without that line. *)
Definition unfinished (t : list MainEvent) : Prop :=
  Forall (fun e => ~ completion_line e) t.

(** The simulated instances know one token each; there is nothing at
    another url. *)
#[global] Instance sim_authenticator : Authenticator Sim.World :=
  fun gl w =>
    if String.eqb (url gl) Sim.source_url then
      if String.eqb (private_token gl) "source-token"
      then (Authenticated, w) else (AuthenticationError, w)
    else if String.eqb (url gl) Sim.target_url then
      if String.eqb (private_token gl) "target-token"
      then (Authenticated, w) else (AuthenticationError, w)
    else (AuthRaised (GitlabError "Connection refused"), w).

(** A command line for the simulated instances. *)
Definition sim_args (source_token target_token path : string)
  (timeout : Z) (workers : Z) (overwrite : bool) : Args :=
  mkArgs Sim.source_url source_token Sim.target_url target_token path
    timeout true workers overwrite.

(** What a piece of script hands back with [return] satisfies [P]. *)
Definition returns {W R} (P : R -> Prop) {A} (c : Prog W R A) : Prop :=
  forall s r, outcome_of (c s) = Returned r -> P r.

(** What the history of a worker that hands back [q] looks like: an
    import request for the id of the target group, then, at the very
    end, the line that reports the migration to the path of that request
    under the full path of the group; and [q] is no longer pending. *)
Definition imported_into (tg : Group) (q : Project) (t : list Event) : Prop :=
  import_pending q = false /\
  exists gl file path name t0,
    t = t0 ++ [Logged (Migrated name (g_full_path tg ++ "/" ++ path))] /\
    In (Called (ProjectsImport gl file path (g_id tg) name)) t0.

(** The postcondition of a worker that has the history [pre] behind
    it. *)
Definition delivered (tg : Group) (pre : list Event)
  (o : Outcome (option Project) (option Project)) (t : list Event) : Prop :=
  match o with
  | Returned (Some q) => imported_into tg q (pre ++ t)
  | _ => True
  end.

(** The two sessions that [main] makes from the command line. *)
Definition source_session_of (args : Args) : Gitlab :=
  mkGitlab (source_url args) (source_token args) (timeout_arg args)
    (verify_ssl_arg args).

Definition target_session_of (args : Args) : Gitlab :=
  mkGitlab (target_url args) (target_token args) (timeout_arg args)
    (verify_ssl_arg args).

(** What [main] has behind it once both connections are made. *)
Definition connected (args : Args) : list MainEvent :=
  [Said MigrationStarted;
   Auth (source_session_of args); Said (ConnectedTo (source_url args));
   Auth (target_session_of args); Said (ConnectedTo (target_url args))].

(** An event of [migrate_group]. *)
Definition of_the_script (e : MainEvent) : Prop :=
  match e with
  | Script _ => True
  | _ => False
  end.

(** What the events of a worker carry, for the timeout [original] that
    its sessions are made with: a lookup by path is sent with [original];
    an import is sent with the larger of [original] and 120 when its
    artifact is above 200 MB, and with [original] otherwise; the line of
    line 224 reports the raised value. *)
Definition scoped (original : Z) (e : Event) : Prop :=
  match e with
  | Called (ProjectsImport gl file _ _ _) =>
      timeout gl =
      if size_mb_exceeds file 200 then Z.max original 120 else original
  | Called (ProjectsGet gl (ByPath _)) => timeout gl = original
  | Logged (TimeoutRaised t) => t = Z.max original 120
  | _ => True
  end.

(** A piece of the worker that is entered with the timeout [original] on
    the target session sends scoped requests only, and leaves with
    [original], however it ends. *)
Definition keeps_timeout {W R A} (original : Z) (c : Prog W R A) : Prop :=
  forall s,
    thread_target_timeout (frame s) = original ->
    Forall (scoped original) (history (c s)) /\
    thread_target_timeout (frame (final (c s))) = original.

(** A piece of script that comes to an end: with a value, or with an
    exception. *)
Definition falls_or_raises {W R A} (c : Prog W R A) : Prop :=
  forall s,
    match outcome_of (c s) with
    | Normal _ | Raised _ => True
    | _ => False
    end.

(** A piece of script that does not go on for ever. *)
Definition halts {W R A} (c : Prog W R A) : Prop :=
  forall s, outcome_of (c s) <> Diverged.

(** An event of [main] that is not an event of a batch or of what
    follows it: a line or an authentication of [main] itself, or a
    lookup, a creation or the listing of the projects. *)
Definition before_the_batch (e : MainEvent) : Prop :=
  match e with
  | Script e' => head_event e'
  | _ => True
  end.

(** * Properties *)

(** ** Segments *)

Lemma split_not_nil (s : string) : split s <> [].
Proof.
  induction s as [|c s IH]; simpl; [discriminate|].
  destruct (Ascii.eqb c "/"); [discriminate|].
  destruct (split s); discriminate.
Qed.

(** ** The timeout bracket of the import call *)

Section Bracket.

Context {W : Type} {platform : Platform W}.
Variables (source_gl target_gl : Gitlab) (target_group : Group).

Lemma import_with_timeout_large tp export_file target_path
  target_name (s : State W) :
  size_mb_exceeds export_file 200 = true ->
  let original := thread_target_timeout (frame s) in
  let raised :=
    mkGitlab (url target_gl) (private_token target_gl) (Z.max original 120)
      (ssl_verify source_gl) in
  let request :=
    ProjectsImport raised export_file target_path (g_id target_group)
      target_name in
  let '(o, s', t) :=
    import_with_timeout source_gl target_gl target_group tp
      export_file target_path target_name s in
  120 <= timeout raised /\
  (exists logs,
      t = Logged (TimeoutRaised (Z.max original 120)) :: Called request :: logs
      /\ Forall is_log logs) /\
  thread_target_timeout (frame s') = original /\
  thread_project (frame s') = thread_project (frame s) /\
  world s' = snd (perform request (world s)) /\
  o = match fst (perform request (world s)) with
      | inl e => Raised e
      | inr reply => Normal reply
      end.
Proof.
  intros Hbig. unfold import_with_timeout.
  cbv [bind get_frame set_thread_target_timeout set_frame thread_target_gl
       try_finally try_except call log emit ret raise].
  rewrite Hbig. simpl.
  destruct (perform _ (world s)) as [[e|reply] w'] eqn:E; simpl.
  - destruct (is_Exception e); simpl.
    + destruct (contains _ (str e)); simpl;
        (split; [lia|]); (split; [eexists; split; [reflexivity|]; repeat constructor|]);
        auto.
    + (split; [lia|]); (split; [eexists; split; [reflexivity|]; repeat constructor|]);
        auto.
  - (split; [lia|]); (split; [eexists; split; [reflexivity|]; repeat constructor|]);
        auto.
Qed.

End Bracket.


(** ** Stepping through a script *)

Section Steps.

Context {W : Type} {platform : Platform W}.

Lemma outcome_after {R A} t (r : Outcome R A * State W * list Event) :
  outcome_of (after t r) = outcome_of r.
Proof. destruct r as [[o s] t']. reflexivity. Qed.

Lemma final_after {R A} t (r : Outcome R A * State W * list Event) :
  final (after t r) = final r.
Proof. destruct r as [[o s] t']. reflexivity. Qed.

Lemma history_after {R A} t (r : Outcome R A * State W * list Event) :
  history (after t r) = t ++ history r.
Proof. destruct r as [[o s] t']. reflexivity. Qed.

Lemma after_nil {R A} (r : Outcome R A * State W * list Event) :
  after [] r = r.
Proof. destruct r as [[o s] t']. reflexivity. Qed.

Lemma after_after {R A} t1 t2 (r : Outcome R A * State W * list Event) :
  after t1 (after t2 r) = after (t1 ++ t2) r.
Proof. destruct r as [[o s] t']. simpl. now rewrite app_assoc. Qed.

Lemma result_eta {R A} (r : Outcome R A * State W * list Event) :
  r = (outcome_of r, final r, history r).
Proof. destruct r as [[o s] t']. reflexivity. Qed.

Lemma call_bind {R B} (c : ApiCall) (k : Reply c -> Prog W R B) s :
  (x <- call c ;; k x) s =
  match perform c (world s) with
  | (inl e, w') => (Raised e, mkState w' (frame s), [Called c])
  | (inr v, w') => after [Called c] (k v (mkState w' (frame s)))
  end.
Proof.
  unfold bind, call. destruct (perform c (world s)) as [[e|v] w']; reflexivity.
Qed.

Lemma log_bind {R B} l (k : Prog W R B) s :
  (log l ;; k) s = after [Logged l] (k s).
Proof. reflexivity. Qed.

Lemma ret_bind {R A B} (a : A) (k : A -> Prog W R B) s :
  (x <- ret a ;; k x) s = k a s.
Proof. unfold bind, ret. now rewrite after_nil. Qed.

Lemma get_frame_bind {R B} (k : Frame -> Prog W R B) s :
  (f <- get_frame ;; k f) s = k (frame s) s.
Proof. unfold bind, get_frame. now rewrite after_nil. Qed.

(** The pool of line 294 opens for a positive bound, and for no other. *)
Lemma open_pool_bind {R B} max_workers (k : Prog W R B) s :
  0 < max_workers -> (open_pool max_workers ;; k) s = k s.
Proof.
  intros H. unfold open_pool.
  destruct (max_workers <=? 0) eqn:E; [apply Z.leb_le in E; lia|].
  apply ret_bind.
Qed.

Lemma open_pool_refuses {R B} max_workers (k : Prog W R B) s :
  max_workers <= 0 ->
  (open_pool max_workers ;; k) s =
  (Raised (ValueError "max_workers must be greater than 0"), s, []).
Proof.
  intros H. unfold open_pool.
  destruct (max_workers <=? 0) eqn:E; [|apply Z.leb_gt in E; lia].
  reflexivity.
Qed.

Lemma set_frame_bind {R B} f (k : Prog W R B) s :
  (set_frame f ;; k) s = k (mkState (world s) f).
Proof. unfold bind, set_frame. now rewrite after_nil. Qed.

Lemma thread_target_gl_bind {R B} source_gl target_gl
  (k : Gitlab -> Prog W R B) s :
  (gl <- thread_target_gl source_gl target_gl ;; k gl) s =
  k (mkGitlab (url target_gl) (private_token target_gl)
       (thread_target_timeout (frame s)) (ssl_verify source_gl)) s.
Proof.
  unfold thread_target_gl, bind, get_frame, ret. simpl.
  now rewrite !after_nil.
Qed.

Lemma bind_assoc {R A B C} (c : Prog W R A) (k : A -> Prog W R B)
  (h : B -> Prog W R C) s :
  (y <- (x <- c ;; k x) ;; h y) s = (x <- c ;; y <- k x ;; h y) s.
Proof.
  unfold bind. destruct (c s) as [[o s1] t1]. destruct o; try reflexivity.
  destruct (k a s1) as [[o2 s2] t2]. simpl. destruct o2; try reflexivity.
  destruct (h a0 s2) as [[o3 s3] t3]. simpl. now rewrite app_assoc.
Qed.

Lemma bind_normal {R A B} (c : Prog W R A) (k : A -> Prog W R B) s a s' t :
  c s = (Normal a, s', t) -> bind c k s = after t (k a s').
Proof. unfold bind. intros ->. reflexivity. Qed.

(** [Diverged] is never caught. *)
Lemma bind_diverged {R A B} (c : Prog W R A) (k : A -> Prog W R B) s :
  outcome_of (c s) = Diverged -> outcome_of (bind c k s) = Diverged.
Proof.
  unfold bind, outcome_of. destruct (c s) as [[o s1] t1]. simpl.
  intros ->. reflexivity.
Qed.

Lemma try_except_diverged {R A} (c : Prog W R A) h s :
  outcome_of (c s) = Diverged -> outcome_of (try_except c h s) = Diverged.
Proof.
  unfold try_except, outcome_of. destruct (c s) as [[o s1] t1]. simpl.
  intros ->. reflexivity.
Qed.

Lemma bind_returned {R A B} (c : Prog W R A) (k : A -> Prog W R B) s r s' t :
  c s = (Returned r, s', t) -> bind c k s = (Returned r, s', t).
Proof. unfold bind. intros ->. reflexivity. Qed.

Lemma bind_raised {R A B} (c : Prog W R A) (k : A -> Prog W R B) s e s' t :
  c s = (Raised e, s', t) -> bind c k s = (Raised e, s', t).
Proof. unfold bind. intros ->. reflexivity. Qed.

Lemma try_except_returned {R A} (c : Prog W R A) h s r s' t :
  c s = (Returned r, s', t) -> try_except c h s = (Returned r, s', t).
Proof. unfold try_except. intros ->. reflexivity. Qed.

Lemma try_except_normal {R A} (c : Prog W R A) h s a s' t :
  c s = (Normal a, s', t) -> try_except c h s = (Normal a, s', t).
Proof. unfold try_except. intros ->. reflexivity. Qed.

Lemma try_except_raised {R A} (c : Prog W R A) h s e s' t :
  c s = (Raised e, s', t) -> try_except c h s = after t (h e s').
Proof. unfold try_except. intros ->. reflexivity. Qed.

Lemma bind_try_except_raised {R A B} (c : Prog W R A) h
  (k : A -> Prog W R B) s e s' t :
  c s = (Raised e, s', t) ->
  bind (try_except c h) k s = after t (bind (h e) k s').
Proof.
  intros H. unfold bind, try_except. rewrite H.
  destruct (h e s') as [[o s1] t1]. simpl.
  destruct o; try reflexivity.
  destruct (k a s1) as [[o2 s2] t2]. simpl. now rewrite app_assoc.
Qed.

Lemma bind_try_except_normal {R A B} (c : Prog W R A) h
  (k : A -> Prog W R B) s a s' t :
  c s = (Normal a, s', t) ->
  bind (try_except c h) k s = after t (k a s').
Proof. intros H. unfold bind, try_except. now rewrite H. Qed.

Lemma invoke_diverged {R R'} (c : Prog W R R) s :
  outcome_of (c s) = Diverged ->
  outcome_of (invoke (R':=R') c s) = Diverged.
Proof.
  unfold invoke, outcome_of. destruct (c s) as [[o s1] t1]. simpl.
  intros ->. reflexivity.
Qed.

Lemma submit_diverged {R} tg p (c : Prog W (option Project) (option Project))
  s :
  outcome_of (c s) = Diverged ->
  outcome_of (submit (R:=R) tg p c s) = Diverged.
Proof.
  unfold submit, outcome_of. destruct (c s) as [[o s1] t1]. simpl.
  intros ->. reflexivity.
Qed.

End Steps.

(** ** The waiting loops *)

Section Waiting.

Context {W : Type} {platform : Platform W}.

Lemma wait_export_eq fuel tp e :
  wait_export (S fuel) tp e =
  if negb (String.eqb (export_status e) "finished") then
    (call (Sleep 5) ;;
     export <- call (ExportRefresh e) ;;
     if String.eqb (export_status export) "failed" then
       log (ExportFailed (p_name tp)) ;; return_ None
     else wait_export fuel tp export)
  else ret e.
Proof. reflexivity. Qed.

Lemma wait_export_finished fuel tp e (s : State W) :
  export_status e = "finished" ->
  wait_export fuel tp e s = (Normal e, s, []).
Proof.
  intros H. destruct fuel; simpl; rewrite H; reflexivity.
Qed.

Lemma export_polls_eq k (w : W) e :
  export_polls (S k) w e =
  match export_round w e with
  | (w', Some e') => export_polls k w' e'
  | (w', None) => (w', None)
  end.
Proof. reflexivity. Qed.

(** One round of the export loop, when the handle is not [finished]. *)
Lemma wait_export_round fuel tp e (s : State W) :
  String.eqb (export_status e) "finished" = false ->
  wait_export (S fuel) tp e s =
  match perform (Sleep 5) (world s) with
  | (inl x, w1) => (Raised x, mkState w1 (frame s), [Called (Sleep 5)])
  | (inr _, w1) =>
      match perform (ExportRefresh e) w1 with
      | (inl x, w2) =>
          (Raised x, mkState w2 (frame s),
           [Called (Sleep 5); Called (ExportRefresh e)])
      | (inr e', w2) =>
          if String.eqb (export_status e') "failed" then
            (Returned None, mkState w2 (frame s),
             [Called (Sleep 5); Called (ExportRefresh e);
              Logged (ExportFailed (p_name tp))])
          else
            after [Called (Sleep 5); Called (ExportRefresh e)]
              (wait_export fuel tp e' (mkState w2 (frame s)))
      end
  end.
Proof.
  intros H. rewrite wait_export_eq, H. change (negb false) with true.
  cbv iota. rewrite call_bind.
  destruct (perform (Sleep 5) (world s)) as [[x|[]] w1]; [reflexivity|].
  rewrite call_bind. simpl world. simpl frame.
  destruct (perform (ExportRefresh e) w1) as [[x|e'] w2]; [reflexivity|].
  destruct (String.eqb (export_status e') "failed").
  - reflexivity.
  - now rewrite after_after.
Qed.

(** Enough fuel for a loop that settles at its [k+1]-th poll. *)
Lemma wait_export_ends k : forall tp e (s : State W),
  export_settled (snd (export_polls (S k) (world s) e)) ->
  outcome_of (wait_export (S k) tp e s) <> Diverged.
Proof.
  induction k as [|k IH]; intros tp e s Hk;
    (destruct (String.eqb (export_status e) "finished") eqn:E;
     [apply String.eqb_eq in E; rewrite wait_export_finished by exact E;
      discriminate|]);
    rewrite wait_export_round by exact E;
    rewrite export_polls_eq in Hk; unfold export_round in Hk;
    (destruct (perform (Sleep 5) (world s)) as [[x|[]] w1]; [discriminate|]);
    (destruct (perform (ExportRefresh e) w1) as [[x|e'] w2]; [discriminate|]);
    (destruct (String.eqb (export_status e') "failed") eqn:F; [discriminate|]);
    rewrite outcome_after.
  - simpl in Hk. destruct Hk as [Hk|Hk].
    + rewrite wait_export_finished by exact Hk. discriminate.
    + rewrite Hk in F. discriminate.
  - apply IH. exact Hk.
Qed.

Lemma wait_export_ended fuel : forall tp e (s : State W),
  outcome_of (wait_export fuel tp e s) <> Diverged ->
  export_status e = "finished" \/
  exists k, export_settled (snd (export_polls (S k) (world s) e)).
Proof.
  induction fuel as [|fuel IH]; intros tp e s H;
    (destruct (String.eqb (export_status e) "finished") eqn:E;
     [left; now apply String.eqb_eq|]); right.
  - exfalso. apply H. simpl. rewrite E. reflexivity.
  - rewrite wait_export_round in H by exact E.
    destruct (perform (Sleep 5) (world s)) as [[x|[]] w1] eqn:Es.
    { exists O. simpl. unfold export_round. rewrite Es. exact I. }
    destruct (perform (ExportRefresh e) w1) as [[x|e'] w2] eqn:Er.
    { exists O. simpl. unfold export_round. rewrite Es, Er. exact I. }
    destruct (String.eqb (export_status e') "failed") eqn:F.
    { exists O. simpl. unfold export_round. rewrite Es, Er. simpl.
      right. now apply String.eqb_eq. }
    rewrite outcome_after in H.
    destruct (IH tp e' _ H) as [Hf|[k Hk]].
    + exists O. simpl. unfold export_round. rewrite Es, Er. simpl. now left.
    + exists (S k). rewrite export_polls_eq. unfold export_round.
      rewrite Es, Er. exact Hk.
Qed.

(** More fuel does not hurt. *)
Lemma wait_export_more fuel : forall tp e (s : State W),
  outcome_of (wait_export fuel tp e s) <> Diverged ->
  wait_export (S fuel) tp e s = wait_export fuel tp e s.
Proof.
  induction fuel as [|fuel IH]; intros tp e s H;
    (destruct (String.eqb (export_status e) "finished") eqn:E;
     [apply String.eqb_eq in E; now rewrite !wait_export_finished by exact E|]).
  - exfalso. apply H. simpl. rewrite E. reflexivity.
  - rewrite wait_export_round in H by exact E.
    rewrite (wait_export_round (S fuel)), (wait_export_round fuel) by exact E.
    destruct (perform (Sleep 5) (world s)) as [[x|[]] w1]; [reflexivity|].
    destruct (perform (ExportRefresh e) w1) as [[x|e'] w2]; [reflexivity|].
    destruct (String.eqb (export_status e') "failed"); [reflexivity|].
    rewrite outcome_after in H. now rewrite IH.
Qed.

Lemma wait_import_eq project fuel p :
  wait_import project (S fuel) p =
  if import_pending p then
    (call (Sleep 5) ;;
     import_project <- call (ProjectRefresh p) ;;
     if import_failed import_project then
       log (ImportFailed (p_name project)) ;; return_ None
     else wait_import project fuel import_project)
  else ret p.
Proof. reflexivity. Qed.

Lemma wait_import_settled project fuel p (s : State W) :
  import_pending p = false ->
  wait_import project fuel p s = (Normal p, s, []).
Proof.
  intros H. destruct fuel; simpl; rewrite H; reflexivity.
Qed.

Lemma import_polls_eq k (w : W) p :
  import_polls (S k) w p =
  match import_round w p with
  | (w', Some p') => import_polls k w' p'
  | (w', None) => (w', None)
  end.
Proof. reflexivity. Qed.

(** One round of the import loop, when the handle is pending. *)
Lemma wait_import_round project fuel p (s : State W) :
  import_pending p = true ->
  wait_import project (S fuel) p s =
  match perform (Sleep 5) (world s) with
  | (inl x, w1) => (Raised x, mkState w1 (frame s), [Called (Sleep 5)])
  | (inr _, w1) =>
      match perform (ProjectRefresh p) w1 with
      | (inl x, w2) =>
          (Raised x, mkState w2 (frame s),
           [Called (Sleep 5); Called (ProjectRefresh p)])
      | (inr p', w2) =>
          if import_failed p' then
            (Returned None, mkState w2 (frame s),
             [Called (Sleep 5); Called (ProjectRefresh p);
              Logged (ImportFailed (p_name project))])
          else
            after [Called (Sleep 5); Called (ProjectRefresh p)]
              (wait_import project fuel p' (mkState w2 (frame s)))
      end
  end.
Proof.
  intros H. rewrite wait_import_eq, H. rewrite call_bind.
  destruct (perform (Sleep 5) (world s)) as [[x|[]] w1]; [reflexivity|].
  rewrite call_bind. simpl world. simpl frame.
  destruct (perform (ProjectRefresh p) w1) as [[x|p'] w2]; [reflexivity|].
  destruct (import_failed p').
  - reflexivity.
  - now rewrite after_after.
Qed.

Lemma wait_import_ends project k : forall p (s : State W),
  import_settled (snd (import_polls (S k) (world s) p)) ->
  outcome_of (wait_import project (S k) p s) <> Diverged.
Proof.
  induction k as [|k IH]; intros p s Hk;
    (destruct (import_pending p) eqn:E;
     [|rewrite wait_import_settled by exact E; discriminate]);
    rewrite wait_import_round by exact E;
    rewrite import_polls_eq in Hk; unfold import_round in Hk;
    (destruct (perform (Sleep 5) (world s)) as [[x|[]] w1]; [discriminate|]);
    (destruct (perform (ProjectRefresh p) w1) as [[x|p'] w2]; [discriminate|]);
    (destruct (import_failed p') eqn:F; [discriminate|]);
    rewrite outcome_after.
  - simpl in Hk. destruct Hk as [Hk|Hk].
    + rewrite wait_import_settled by exact Hk. discriminate.
    + rewrite Hk in F. discriminate.
  - apply IH. exact Hk.
Qed.

Lemma wait_import_ended project fuel : forall p (s : State W),
  outcome_of (wait_import project fuel p s) <> Diverged ->
  import_pending p = false \/
  exists k, import_settled (snd (import_polls (S k) (world s) p)).
Proof.
  induction fuel as [|fuel IH]; intros p s H;
    (destruct (import_pending p) eqn:E; [|now left]); right.
  - exfalso. apply H. simpl. rewrite E. reflexivity.
  - rewrite wait_import_round in H by exact E.
    destruct (perform (Sleep 5) (world s)) as [[x|[]] w1] eqn:Es.
    { exists O. simpl. unfold import_round. rewrite Es. exact I. }
    destruct (perform (ProjectRefresh p) w1) as [[x|p'] w2] eqn:Er.
    { exists O. simpl. unfold import_round. rewrite Es, Er. exact I. }
    destruct (import_failed p') eqn:F.
    { exists O. simpl. unfold import_round. rewrite Es, Er. simpl.
      now right. }
    rewrite outcome_after in H.
    destruct (IH p' _ H) as [Hf|[k Hk]].
    + exists O. simpl. unfold import_round. rewrite Es, Er. simpl. now left.
    + exists (S k). rewrite import_polls_eq. unfold import_round.
      rewrite Es, Er. exact Hk.
Qed.

End Waiting.

(** ** Waiting on the simulated platform *)

Section SimWaiting.

Import Sim.

Lemma sim_export_round (w : World) e sp :
  source_projects w (ex_project_id e) = Some sp ->
  export_round w e =
  (w, Some (mkExport (ex_project_id e) (sp_export sp (ex_refreshes e))
              (S (ex_refreshes e)))).
Proof.
  intros H. unfold export_round, perform, platform, export_refresh.
  now rewrite H.
Qed.

Lemma sim_export_polls k : forall (w : World) e sp,
  source_projects w (ex_project_id e) = Some sp ->
  export_polls (S k) w e =
  (w, Some (mkExport (ex_project_id e)
              (sp_export sp (ex_refreshes e + k)%nat)
              (S (ex_refreshes e + k)))).
Proof.
  induction k as [|k IH]; intros w e sp H;
    rewrite export_polls_eq, (sim_export_round _ _ H).
  - simpl. now rewrite Nat.add_0_r.
  - rewrite (IH _ _ sp) by exact H. simpl.
    now rewrite Nat.add_succ_r.
Qed.

(** An export whose statuses never become [finished] or [failed] keeps
    the loop going, whatever the fuel. *)
Lemma sim_export_stuck fuel tp e sp (s : State World) :
  source_projects (world s) (ex_project_id e) = Some sp ->
  export_status e <> "finished" ->
  (forall n, sp_export sp n <> "finished" /\ sp_export sp n <> "failed") ->
  outcome_of (wait_export fuel tp e s) = Diverged.
Proof.
  intros Hsp He Hn.
  destruct (outcome_of (wait_export fuel tp e s)) eqn:E; try reflexivity;
    exfalso;
    (destruct (@wait_export_ended _ _ fuel tp e s) as [H|[k H]];
     [rewrite E; discriminate | now apply He |]);
    rewrite (sim_export_polls k _ _ Hsp) in H; simpl in H;
    destruct (Hn (ex_refreshes e + k)%nat) as [H1 H2];
    destruct H as [H|H]; contradiction.
Qed.

End SimWaiting.

(** ** A stuck export on the scenario's source *)

Section Stuck.

Import Sim Scenario.

Lemma stuck_worker patience gs fr tg :
  g_full_path tg = "team/alpha" ->
  outcome_of
    (migrate_project (source_session 30) (target_session 30)
       (listed 1 "svc1") tg false patience
       (mkState (with_target_groups stuck_export gs) fr)) = Diverged.
Proof.
  intros Htg.
  unfold migrate_project. rewrite set_frame_bind, log_bind, outcome_after.
  apply try_except_diverged. unfold migrate_project_try. rewrite Htg.
  erewrite bind_normal by (vm_compute; reflexivity).
  rewrite outcome_after, log_bind, outcome_after.
  do 5 (erewrite bind_normal by (vm_compute; reflexivity);
        rewrite outcome_after).
  apply bind_diverged.
  eapply sim_export_stuck.
  - vm_compute. reflexivity.
  - discriminate.
  - intros n. split; discriminate.
Qed.

Lemma stuck_run patience fuel :
  outcome_of (run_with patience (S fuel) false stuck_export) = Diverged.
Proof.
  unfold run_with. simpl migrate_group.
  do 3 (erewrite bind_normal by (vm_compute; reflexivity);
        rewrite outcome_after).
  rewrite log_bind, outcome_after.
  rewrite open_pool_bind by reflexivity.
  apply bind_diverged. simpl collect. apply bind_diverged.
  unfold collect_one. apply bind_diverged. apply submit_diverged.
  apply stuck_worker. reflexivity.
Qed.

End Stuck.

(** C10, as the script has it. The two waiting loops have no cap.
    Whatever the platform, the export loop comes to an end with some
    amount of fuel exactly when the handle is [finished] on entry or some
    later poll settles (shows [finished] or [failed], or breaks); the
    same holds for the import loop, where a handle without status also
    ends it. No amount of fuel is enough otherwise: on the scenario's
    source with an export that stays [started], the whole run diverges
    for every fuel and every patience. *)
Theorem waiting_has_no_cap :
  (forall W (platform : Platform W) tp e (s : State W),
      (exists fuel, outcome_of (wait_export fuel tp e s) <> Diverged) <->
      (export_status e = "finished" \/
       exists k, export_settled (snd (export_polls (S k) (world s) e))))
  /\
  (forall W (platform : Platform W) project p (s : State W),
      (exists fuel, outcome_of (wait_import project fuel p s) <> Diverged) <->
      (import_pending p = false \/
       exists k, import_settled (snd (import_polls (S k) (world s) p))))
  /\
  (forall patience fuel,
      outcome_of (Scenario.run_with patience (S fuel) false
                    Scenario.stuck_export) = Diverged).
Proof.
  split; [|split].
  - intros W platform tp e s. split.
    + intros [fuel H]. now apply wait_export_ended in H.
    + intros [H|[k H]].
      * exists O. rewrite wait_export_finished by exact H. discriminate.
      * exists (S k). now apply wait_export_ends.
  - intros W platform project p s. split.
    + intros [fuel H]. now apply wait_import_ended in H.
    + intros [H|[k H]].
      * exists O. rewrite wait_import_settled by exact H. discriminate.
      * exists (S k). now apply wait_import_ends.
  - exact stuck_run.
Qed.

(** C10, the other ways out. A loop also ends when a poll raises, and
    the import loop when the handle has no [import_status]: on a platform
    that is down, the export loop over a handle that shows [started] ends
    with the error of the first [refresh()] whatever the fuel, and no
    poll ever shows a handle that is [finished] or [failed]; on any
    platform, the import loop over a project without status ends at
    once, without a poll. *)
Lemma a_broken_poll_ends_the_wait :
  let e := mkExport 1 "started" 0 in
  (forall tp fuel f,
      outcome_of
        (@wait_export unit Broken.platform (S fuel) tp e (mkState tt f))
      = Raised (GitlabError "502 Bad Gateway")) /\
  (forall k e',
      snd (@export_polls unit Broken.platform k tt e) = Some e' ->
      export_status e' <> "finished" /\ export_status e' <> "failed") /\
  (forall W (platform : Platform W) project fuel p (s : State W),
      p_import_status p = None ->
      wait_import project fuel p s = (Normal p, s, [])).
Proof.
  intros e. split; [|split].
  - intros tp fuel f. reflexivity.
  - intros [|k] e' H; cbn in H; [|discriminate].
    inversion H. subst e'. split; discriminate.
  - intros W platform project fuel p s H.
    destruct fuel; cbn [wait_import]; unfold import_pending; rewrite H;
      reflexivity.
Qed.

(** ** Relations kept by every statement *)

Section Respect.

Context {W : Type} {platform : Platform W}.
Variable P : State W -> State W -> Prop.
Hypothesis P_refl : forall s, P s s.
Hypothesis P_trans : forall s1 s2 s3, P s1 s2 -> P s2 s3 -> P s1 s3.

Lemma respects_ret {R A} (a : A) : respects P (ret (R:=R) a).
Proof. intros s. apply P_refl. Qed.

Lemma respects_return {R A} (r : R) : respects P (return_ (A:=A) r).
Proof. intros s. apply P_refl. Qed.

Lemma respects_raise {R A} e : respects P (raise (R:=R) (A:=A) e).
Proof. intros s. apply P_refl. Qed.

Lemma respects_diverge {R A} : respects P (diverge (R:=R) (A:=A)).
Proof. intros s. apply P_refl. Qed.

Lemma respects_log {R} l : respects P (log (R:=R) l).
Proof. intros s. apply P_refl. Qed.

Lemma respects_get_frame {R} : respects P (get_frame (R:=R)).
Proof. intros s. apply P_refl. Qed.

Lemma respects_thread_target_gl {R} source_gl target_gl :
  respects P (thread_target_gl (R:=R) source_gl target_gl).
Proof. intros s. apply P_refl. Qed.

Lemma respects_bind {R A B} (c : Prog W R A) (k : A -> Prog W R B) :
  respects P c -> (forall a, respects P (k a)) -> respects P (bind c k).
Proof.
  intros Hc Hk s. unfold bind. specialize (Hc s).
  destruct (c s) as [[o s1] t1]. unfold final in *. simpl in *.
  destruct o; simpl; auto.
  specialize (Hk a s1). unfold final in Hk.
  destruct (k a s1) as [[o2 s2] t2]. simpl in *. eauto.
Qed.

Lemma respects_try_except {R A} (c : Prog W R A) h :
  respects P c -> (forall e, respects P (h e)) -> respects P (try_except c h).
Proof.
  intros Hc Hh s. unfold try_except. specialize (Hc s).
  destruct (c s) as [[o s1] t1]. unfold final in *. simpl in *.
  destruct o; simpl; auto.
  specialize (Hh e s1). unfold final in Hh.
  destruct (h e s1) as [[o2 s2] t2]. simpl in *. eauto.
Qed.

Lemma respects_try_finally {R A} (c : Prog W R A) fin :
  respects P c -> respects P fin -> respects P (try_finally c fin).
Proof.
  intros Hc Hf s. unfold try_finally. specialize (Hc s).
  destruct (c s) as [[o s1] t1]. unfold final in *. simpl in *.
  specialize (Hf s1). unfold final in Hf.
  destruct (fin s1) as [[o2 s2] t2]. simpl in *.
  destruct o; simpl; auto; destruct o2; simpl; eauto.
Qed.

Lemma respects_invoke {R R'} (c : Prog W R R) :
  respects P c -> respects P (invoke (R':=R') c).
Proof.
  intros Hc s. unfold invoke. specialize (Hc s).
  destruct (c s) as [[o s1] t1]. unfold final in *. simpl in *.
  destruct o; simpl; auto.
Qed.

Lemma respects_submit {R} tg p (c : Prog W (option Project) (option Project)) :
  respects P c -> respects P (submit (R:=R) tg p c).
Proof.
  intros Hc s. unfold submit. specialize (Hc s).
  destruct (c s) as [[o s1] t1]. unfold final in *. simpl in *.
  destruct o; simpl; auto.
Qed.

Lemma respects_call {R} c :
  (forall w f, P (mkState w f) (mkState (snd (perform c w)) f)) ->
  respects P (call (R:=R) c).
Proof.
  intros H s. unfold call, final. specialize (H (world s) (frame s)).
  destruct (perform c (world s)) as [[e|v] w']; destruct s; simpl in *; auto.
Qed.

Lemma respects_for_each {R A} (xs : list A) (body : A -> Prog W R unit) :
  (forall x, respects P (body x)) -> respects P (for_each xs body).
Proof.
  intros H. induction xs as [|x xs IH]; simpl.
  - apply respects_ret.
  - apply respects_bind; auto.
Qed.

End Respect.

(** Break a goal [respects P c] down along the shape of [c]; [leaf] is
    tried on what is left (requests and loops). *)
Ltac respect_step refl trans :=
  lazymatch goal with
  | |- respects _ (ret _) => eapply respects_ret; exact refl
  | |- respects _ (return_ _) => eapply respects_return; exact refl
  | |- respects _ (raise _) => eapply respects_raise; exact refl
  | |- respects _ diverge => eapply respects_diverge; exact refl
  | |- respects _ (log _) => eapply respects_log; exact refl
  | |- respects _ get_frame => eapply respects_get_frame; exact refl
  | |- respects _ (thread_target_gl _ _) =>
      eapply respects_thread_target_gl; exact refl
  | |- respects _ (bind _ _) =>
      eapply respects_bind; [exact trans | | intro]
  | |- respects _ (try_except _ _) =>
      eapply respects_try_except; [exact trans | | intro]
  | |- respects _ (try_finally _ _) =>
      eapply respects_try_finally; [exact trans | | ]
  | |- respects _ (invoke _) => eapply respects_invoke
  | |- respects _ (submit _ _ _) => eapply respects_submit
  | |- respects _ (if ?b then _ else _) => destruct b
  | |- respects _ (match ?x with _ => _ end) => destruct x
  end.

Ltac respect_with refl trans leaf :=
  repeat first [ leaf | respect_step refl trans ].

(** ** The worker leaves the timeout of its target session as it was *)

Section Timeout.

Context {W : Type} {platform : Platform W}.

Lemma same_timeout_refl (s : State W) : same_timeout s s.
Proof. reflexivity. Qed.

Lemma same_timeout_trans (s1 s2 s3 : State W) :
  same_timeout s1 s2 -> same_timeout s2 s3 -> same_timeout s1 s3.
Proof. unfold same_timeout. congruence. Qed.

Lemma call_same_timeout {R} c : respects same_timeout (call (W:=W) (R:=R) c).
Proof. apply respects_call. reflexivity. Qed.

Lemma bind_thread_project_same_timeout {R} p :
  respects same_timeout (bind_thread_project (W:=W) (R:=R) p).
Proof. intros s. reflexivity. Qed.

Lemma import_with_timeout_same_timeout source_gl target_gl target_group tp
  export_file target_path target_name :
  respects same_timeout
    (import_with_timeout (W:=W) source_gl target_gl target_group tp
       export_file target_path target_name).
Proof.
  intros s. unfold same_timeout, final, import_with_timeout.
  cbv [bind get_frame set_thread_target_timeout set_frame thread_target_gl
       try_finally try_except call log emit ret raise after].
  destruct (size_mb_exceeds export_file 200); simpl;
    destruct (perform _ (world s)) as [[e|reply] w']; simpl;
    try destruct (is_Exception e); simpl;
    try destruct (contains _ (str e)); reflexivity.
Qed.

Ltac timeout_leaf :=
  first [ match goal with
          | |- respects _ (call ?c) => exact (call_same_timeout c)
          end
        | apply bind_thread_project_same_timeout
        | apply import_with_timeout_same_timeout ].

Ltac timeout_steps :=
  respect_with same_timeout_refl same_timeout_trans ltac:(timeout_leaf).

Lemma wait_export_same_timeout fuel : forall tp e,
  respects same_timeout (wait_export (W:=W) fuel tp e).
Proof.
  induction fuel as [|fuel IH]; intros tp e; simpl; timeout_steps.
  apply IH.
Qed.

Lemma wait_import_same_timeout project fuel : forall p,
  respects same_timeout (wait_import (W:=W) project fuel p).
Proof.
  induction fuel as [|fuel IH]; intros p; simpl; timeout_steps.
  apply IH.
Qed.

Lemma migrate_project_try_same_timeout source_gl target_gl project
  target_group overwrite fuel :
  respects same_timeout
    (migrate_project_try (W:=W) source_gl target_gl project target_group
       overwrite fuel).
Proof.
  unfold migrate_project_try, check_name, check_path, poll_import.
  respect_with same_timeout_refl same_timeout_trans
    ltac:(first [ apply wait_export_same_timeout
                | apply wait_import_same_timeout
                | timeout_leaf ]).
Qed.

End Timeout.

Section Scoped.

Context {W : Type} {platform : Platform W}.

Lemma migrate_project_timeout source_gl target_gl project target_group
  overwrite fuel (s : State W) :
  thread_target_timeout
    (frame (final (migrate_project source_gl target_gl project target_group
                     overwrite fuel s))) = timeout source_gl.
Proof.
  unfold migrate_project. rewrite set_frame_bind, log_bind, final_after.
  set (s0 := mkState (world s) (mkFrame (timeout source_gl) None)).
  transitivity (thread_target_timeout (frame s0)); [|reflexivity].
  revert s0. generalize (mkState (world s) (mkFrame (timeout source_gl) None)).
  apply (@respects_try_except _ same_timeout (@same_timeout_trans W)).
  - apply migrate_project_try_same_timeout.
  - intro e.
    respect_with (@same_timeout_refl W) (@same_timeout_trans W) fail.
Qed.

End Scoped.

(** ** The timeout of the worker's target session *)

Section KeepsTimeout.

Context {W : Type} {platform : Platform W}.
Variable original : Z.

Lemma kt_ret {R A} (a : A) : keeps_timeout original (ret (W:=W) (R:=R) a).
Proof. intros s H. split; [constructor|exact H]. Qed.

Lemma kt_return {R A} (r : R) :
  keeps_timeout original (return_ (W:=W) (A:=A) r).
Proof. intros s H. split; [constructor|exact H]. Qed.

Lemma kt_raise {R A} e :
  keeps_timeout original (raise (W:=W) (R:=R) (A:=A) e).
Proof. intros s H. split; [constructor|exact H]. Qed.

Lemma kt_diverge {R A} :
  keeps_timeout original (diverge (W:=W) (R:=R) (A:=A)).
Proof. intros s H. split; [constructor|exact H]. Qed.

Lemma kt_log {R} l :
  scoped original (Logged l) ->
  keeps_timeout original (log (W:=W) (R:=R) l).
Proof. intros Hl s H. split; [repeat constructor; exact Hl|exact H]. Qed.

Lemma kt_call {R} c :
  scoped original (Called c) -> keeps_timeout original (call (R:=R) c).
Proof.
  intros Hc s H. unfold call, history, final.
  destruct (perform c (world s)) as [[e|v] w']; cbn;
    (split; [repeat constructor; exact Hc|exact H]).
Qed.

Lemma kt_set_frame {R} f :
  thread_target_timeout f = original ->
  keeps_timeout original (set_frame (W:=W) (R:=R) f).
Proof. intros Hf s H. split; [constructor|exact Hf]. Qed.

Lemma kt_bind {R A B} (c : Prog W R A) (k : A -> Prog W R B) :
  keeps_timeout original c -> (forall a, keeps_timeout original (k a)) ->
  keeps_timeout original (bind c k).
Proof.
  intros Hc Hk s H. unfold bind. destruct (Hc s H) as [H1 H2].
  destruct (c s) as [[o s1] t1]. unfold history, final in *. cbn in *.
  destruct o; cbn; auto.
  destruct (Hk a s1 H2) as [H3 H4]. unfold history, final in *.
  destruct (k a s1) as [[o2 s2] t2]. cbn in *.
  split; [apply Forall_app; auto|exact H4].
Qed.

Lemma kt_get_frame_bind {R B} (k : Frame -> Prog W R B) :
  (forall f, thread_target_timeout f = original ->
             keeps_timeout original (k f)) ->
  keeps_timeout original (bind get_frame k).
Proof.
  intros Hk s H. rewrite get_frame_bind. now apply Hk.
Qed.

Lemma kt_thread_target_gl_bind {R B} source_gl target_gl
  (k : Gitlab -> Prog W R B) :
  (forall gl, timeout gl = original -> keeps_timeout original (k gl)) ->
  keeps_timeout original (bind (thread_target_gl source_gl target_gl) k).
Proof.
  intros Hk s H. unfold thread_target_gl.
  rewrite bind_assoc, get_frame_bind, ret_bind. now apply Hk.
Qed.

Lemma kt_try_except {R A} (c : Prog W R A) h :
  keeps_timeout original c -> (forall e, keeps_timeout original (h e)) ->
  keeps_timeout original (try_except c h).
Proof.
  intros Hc Hh s H. unfold try_except. destruct (Hc s H) as [H1 H2].
  destruct (c s) as [[o s1] t1]. unfold history, final in *. cbn in *.
  destruct o; cbn; auto.
  destruct (Hh e s1 H2) as [H3 H4]. unfold history, final in *.
  destruct (h e s1) as [[o2 s2] t2]. cbn in *.
  split; [apply Forall_app; auto|exact H4].
Qed.

End KeepsTimeout.

(** Break a goal [keeps_timeout original c] down along the shape of
    [c]. *)
Ltac kt_step :=
  lazymatch goal with
  | |- keeps_timeout _ ?c =>
      lazymatch c with
      | ret _ => apply kt_ret
      | return_ _ => apply kt_return
      | raise _ => apply kt_raise
      | diverge => apply kt_diverge
      | log _ => apply kt_log; exact I
      | call ?r => apply (@kt_call _ _ _ _ r); first [exact I | assumption]
      | set_frame _ => apply kt_set_frame; cbn; assumption
      | bind get_frame _ => apply kt_get_frame_bind; intros ? ?
      | bind (thread_target_gl _ _) _ =>
          apply kt_thread_target_gl_bind; intros ? ?
      | bind _ _ => apply kt_bind; [|intro]
      | try_except _ _ => apply kt_try_except; [|intro]
      | bind_thread_project _ => unfold bind_thread_project
      | (if ?b then _ else _) => destruct b
      | (match ?x with _ => _ end) => destruct x
      | (let _ := _ in _) => cbv zeta
      end
  end.

Section WorkerTimeout.

Context {W : Type} {platform : Platform W}.
Variables (source_gl target_gl : Gitlab) (project : Project) (tg : Group).
Variable overwrite : bool.
Variable original : Z.

Lemma wait_export_keeps_timeout fuel tp : forall e,
  keeps_timeout original (wait_export (W:=W) fuel tp e).
Proof.
  induction fuel as [|fuel IH]; intros e; cbn [wait_export];
    destruct (negb _); try apply kt_ret; try apply kt_diverge.
  repeat first [ apply IH | kt_step ].
Qed.

Lemma wait_import_keeps_timeout fuel : forall p,
  keeps_timeout original (wait_import (W:=W) project fuel p).
Proof.
  induction fuel as [|fuel IH]; intros p; cbn [wait_import];
    destruct (import_pending p); try apply kt_ret; try apply kt_diverge.
  repeat first [ apply IH | kt_step ].
Qed.

(** The bracket of lines 219-247: the import is sent with the raised
    timeout when the artifact is large, and the timeout is the one of
    the entry when the bracket is left, with a reply or an exception. *)
Lemma import_with_timeout_keeps_timeout tp file path name :
  keeps_timeout original
    (import_with_timeout (W:=W) source_gl target_gl tg tp file path name).
Proof.
  intros s H. unfold import_with_timeout.
  cbv [bind get_frame set_thread_target_timeout set_frame thread_target_gl
       try_finally try_except call log emit ret raise].
  destruct (size_mb_exceeds file 200) eqn:Hbig; cbn;
    destruct (perform _ (world s)) as [[e|reply] w'] eqn:E; cbn;
    try destruct (is_Exception e); cbn;
    try destruct (contains _ _); cbn;
    rewrite ?H;
    (split; [repeat constructor; cbn; rewrite ?Hbig; reflexivity
            |reflexivity]).
Qed.

Lemma migrate_project_try_keeps_timeout fuel :
  keeps_timeout original
    (migrate_project_try (W:=W) source_gl target_gl project tg overwrite
       fuel).
Proof.
  unfold migrate_project_try, check_name, check_path, poll_import.
  repeat first
    [ apply wait_export_keeps_timeout
    | apply wait_import_keeps_timeout
    | apply import_with_timeout_keeps_timeout
    | kt_step ].
Qed.

End WorkerTimeout.

Section WorkerScoped.

Context {W : Type} {platform : Platform W}.

Lemma migrate_project_scoped source_gl target_gl project tg overwrite fuel
  (s : State W) :
  Forall (scoped (timeout source_gl))
    (history (migrate_project source_gl target_gl project tg overwrite fuel
                s)) /\
  thread_target_timeout
    (frame (final (migrate_project source_gl target_gl project tg overwrite
                     fuel s))) = timeout source_gl.
Proof.
  unfold migrate_project. rewrite set_frame_bind, log_bind.
  rewrite history_after, final_after.
  set (s0 := mkState (world s) (mkFrame (timeout source_gl) None)).
  assert (K : keeps_timeout (timeout source_gl)
                (try_except
                   (migrate_project_try source_gl target_gl project tg
                      overwrite fuel)
                   (fun e =>
                      if is_Exception e then
                        f <- get_frame ;;
                        match thread_project f with
                        | Some thread_project =>
                            log (WorkerError (p_name thread_project) (str e)) ;;
                            return_ None
                        | None => raise (UnboundLocalError "thread_project")
                        end
                      else raise e))).
  { apply kt_try_except; [apply migrate_project_try_keeps_timeout|].
    intro e. repeat kt_step. }
  destruct (K s0 eq_refl) as [H1 H2].
  split; [|exact H2]. constructor; [exact I|exact H1].
Qed.

End WorkerScoped.

(** C5. The timeout of the worker's target session is raised for the
    import of a large artifact only. Whatever the platform answers,
    every lookup by path that a worker sends carries the timeout its
    sessions were made with; its import request carries the larger of
    that value and 120 seconds when the artifact is above 200 MB (one of
    250 MB is [262144000] bytes) and the original value otherwise; and
    when the worker ends, however it ends, the timeout of the session is
    the original one again. The bracket of lines 219-247 itself leaves
    the session with the timeout it was entered with, whether the import
    returns or raises. *)
Theorem import_timeout_is_scoped :
  forall W (platform : Platform W) source_gl target_gl project target_group
         overwrite fuel (s : State W),
    let original := timeout source_gl in
    let r := migrate_project source_gl target_gl project target_group
               overwrite fuel s in
    Forall (scoped original) (history r) /\
    thread_target_timeout (frame (final r)) = original /\
    (forall gl file path namespace name,
        In (Called (ProjectsImport gl file path namespace name))
          (history r) ->
        size_mb_exceeds file 200 = true ->
        timeout gl = Z.max original 120 /\ 120 <= timeout gl) /\
    (forall tp file path name (s' : State W),
        thread_target_timeout
          (frame (final (import_with_timeout source_gl target_gl
                           target_group tp file path name s')))
        = thread_target_timeout (frame s')).
Proof.
  intros W platform source_gl target_gl project target_group overwrite fuel
    s original r.
  destruct (@migrate_project_scoped W platform source_gl target_gl project
              target_group overwrite fuel s) as [H1 H2].
  fold r original in H1, H2.
  split; [exact H1|]. split; [exact H2|]. split.
  - intros gl file path namespace name Hin Hbig.
    rewrite Forall_forall in H1. specialize (H1 _ Hin).
    cbn in H1. rewrite Hbig in H1. split; [exact H1|]. rewrite H1. lia.
  - intros tp file path name s'.
    exact (proj2 (@import_with_timeout_keeps_timeout W platform source_gl
                    target_gl target_group
                    (thread_target_timeout (frame s')) tp file path name
                    s' eq_refl)).
Qed.

(** The artifact of 250 MB of [svc2], sessions made with 30 seconds. *)
Lemma import_timeout_is_scoped_witness :
  let r := Scenario.work (Scenario.listed 2 "svc2") false Large.source in
  let file := mkExportFile 262144000 2 in
  In (Called (ProjectsImport (Sim.target_session 120) file "svc2" 2 "svc2"))
    (history r) /\
  size_mb_exceeds file 200 = true /\
  (timeout (Sim.target_session 120) = Z.max 30 120 /\
   120 <= timeout (Sim.target_session 120)) /\
  thread_target_timeout (frame (final r)) = 30.
Proof.
  intros r file.
  assert (Hin : In (Called (ProjectsImport (Sim.target_session 120) file
                              "svc2" 2 "svc2")) (history r))
    by (vm_compute; in_history).
  assert (Hbig : size_mb_exceeds file 200 = true) by reflexivity.
  destruct (@import_timeout_is_scoped Sim.World Sim.platform
              (Sim.source_session 30) (Sim.target_session 30)
              (Scenario.listed 2 "svc2") Scenario.alpha_on_target false
              5%nat (Scenario.start Large.source))
    as (_ & H2 & H3 & _).
  split; [exact Hin|]. split; [exact Hbig|].
  split; [exact (H3 _ _ _ _ _ Hin Hbig)|exact H2].
Defined.

(** ** The coordinator's tally *)

Section Tally.

Context {W : Type} {platform : Platform W}.
Variables (source_gl target_gl : Gitlab) (patience : nat) (overwrite : bool).

(** One round of the collecting loop, by what the worker did. *)
Lemma collect_one_unfold {R} tg p sc fc (s : State W) :
  collect_one (R:=R) source_gl target_gl patience overwrite tg p (sc, fc) s =
  collected tg p sc fc
    (migrate_project source_gl target_gl p tg overwrite patience s).
Proof.
  unfold collect_one, bind, submit, try_except, collected.
  destruct (migrate_project source_gl target_gl p tg overwrite patience s)
    as [[o s'] t].
  unfold outcome_of, final, history. simpl.
  destruct o as [r|r|e|]; simpl; try reflexivity.
  - destruct (truthy r); reflexivity.
  - destruct (truthy r); reflexivity.
  - destruct (is_Exception e); reflexivity.
Qed.

Lemma count_app f t1 t2 : count f (t1 ++ t2) = count f t1 + count f t2.
Proof.
  unfold count. rewrite filter_app, length_app. lia.
Qed.

Lemma count_cons f e t :
  count f (e :: t) = (if f e then 1 else 0) + count f t.
Proof.
  unfold count. simpl. destruct (f e); simpl List.length; lia.
Qed.

Lemma ran_projects_app t1 t2 :
  ran_projects (t1 ++ t2) = ran_projects t1 ++ ran_projects t2.
Proof.
  induction t1 as [|e t1 IH]; simpl; [reflexivity|].
  destruct e; simpl; now rewrite ?IH.
Qed.

Lemma collect_cons {R} tg p rest counts (s : State W) :
  collect (R:=R) source_gl target_gl patience overwrite tg (p :: rest)
    counts s =
  bind (collect_one source_gl target_gl patience overwrite tg p counts)
    (collect source_gl target_gl patience overwrite tg rest) s.
Proof. reflexivity. Qed.

(** What a batch that comes to its end has counted. *)
Lemma collect_tally {R} tg completed : forall sc fc (s : State W) sc' fc',
  outcome_of (collect (R:=R) source_gl target_gl patience overwrite tg
                completed (sc, fc) s) = Normal (sc', fc') ->
  sc' = sc + count succeeded
               (history (collect (R:=R) source_gl target_gl patience
                           overwrite tg completed (sc, fc) s)) /\
  fc' = fc + count not_succeeded
               (history (collect (R:=R) source_gl target_gl patience
                           overwrite tg completed (sc, fc) s)) /\
  ran_projects (history (collect (R:=R) source_gl target_gl patience
                           overwrite tg completed (sc, fc) s)) = completed.
Proof.
  induction completed as [|p rest IH]; intros sc fc s sc' fc' H.
  - simpl in *. unfold ret, outcome_of in H. simpl in H.
    inversion H; subst. unfold count. simpl. repeat split; lia.
  - rewrite collect_cons in *. unfold bind in *.
    rewrite collect_one_unfold in *. unfold collected in *.
    destruct (migrate_project source_gl target_gl p tg overwrite patience s)
      as [[o s1] t1].
    unfold outcome_of, final, history in *.
    simpl fst in *. simpl snd in *.
    assert (Hstep : forall a b extra,
      fst (fst (after (Ran tg p t1 extra :: nil)
                  (collect (R:=R) source_gl target_gl patience overwrite tg
                     rest (a, b) s1))) = Normal (sc', fc') ->
      sc' = a + count succeeded
                  (snd (after (Ran tg p t1 extra :: nil)
                          (collect (R:=R) source_gl target_gl patience
                             overwrite tg rest (a, b) s1)))
            - (if succeeded (Ran tg p t1 extra) then 1 else 0) /\
      fc' = b + count not_succeeded
                  (snd (after (Ran tg p t1 extra :: nil)
                          (collect (R:=R) source_gl target_gl patience
                             overwrite tg rest (a, b) s1)))
            - (if not_succeeded (Ran tg p t1 extra) then 1 else 0) /\
      ran_projects
        (snd (after (Ran tg p t1 extra :: nil)
                (collect (R:=R) source_gl target_gl patience overwrite tg
                   rest (a, b) s1))) = p :: rest).
    { intros a b extra Hab. specialize (IH a b s1 sc' fc').
      destruct (collect source_gl target_gl patience overwrite tg rest
                  (a, b) s1) as [[o2 s2] t2].
      simpl in *. destruct (IH Hab) as (E1 & E2 & E3).
      rewrite !count_cons.
      destruct extra as [[q|]|x|]; cbn [succeeded not_succeeded ran_projects];
        repeat split; try lia; now rewrite E3. }
    destruct o as [r|r|e|]; cbv iota beta in *.
    + destruct r as [q|]; simpl truthy in *; cbv iota in *;
        destruct (Hstep _ _ _ H) as (E1 & E2 & E3);
        cbn [succeeded not_succeeded] in E1, E2;
        repeat split; try lia; exact E3.
    + destruct r as [q|]; simpl truthy in *; cbv iota in *;
        destruct (Hstep _ _ _ H) as (E1 & E2 & E3);
        cbn [succeeded not_succeeded] in E1, E2;
        repeat split; try lia; exact E3.
    + destruct (is_Exception e); cbv iota beta in *; [|discriminate].
      specialize (IH sc (fc + 1) s1 sc' fc').
      destruct (collect source_gl target_gl patience overwrite tg rest _ s1)
        as [[o2 s2] t2]; simpl in *.
      destruct (IH H) as (E1 & E2 & E3).
      rewrite !count_cons. cbn [succeeded not_succeeded ran_projects].
      repeat split; try lia. now rewrite E3.
    + discriminate.
Qed.

End Tally.

(** ** Skipping *)

Section Skipping.

Context {W : Type} {platform : Platform W}.

(** The worker on a project whose name is taken on the target, without
    overwrite. *)
Lemma migrate_project_skips source_gl target_gl p tg fuel (s : State W)
  existing w1 :
  perform (ProjectsGet (worker_target_session source_gl target_gl)
             (ByPath (g_full_path tg ++ "/" ++ p_name p))) (world s)
  = (inr existing, w1) ->
  migrate_project source_gl target_gl p tg false fuel s =
  (Returned None, mkState w1 (mkFrame (timeout source_gl) None),
   [Logged (StartProject (p_name p) (p_id p));
    Called (ProjectsGet (worker_target_session source_gl target_gl)
              (ByPath (g_full_path tg ++ "/" ++ p_name p)));
    Logged (ExistsSkipping (p_name p))]).
Proof.
  intros H. unfold migrate_project. rewrite set_frame_bind, log_bind.
  erewrite try_except_returned; [reflexivity|].
  unfold migrate_project_try. apply bind_returned.
  unfold check_name. apply try_except_returned.
  rewrite thread_target_gl_bind, call_bind.
  cbn [world frame thread_target_timeout].
  change (mkGitlab (url target_gl) (private_token target_gl)
            (timeout source_gl) (ssl_verify source_gl))
    with (worker_target_session source_gl target_gl).
  rewrite H. reflexivity.
Qed.

End Skipping.

(** C1, as the script has it. A project whose name is taken on the target
    is skipped when overwrite is off: the worker logs the skip and
    returns [None]. The coordinator has two counters and no third: a
    future that holds a project adds to [success_count], every other
    future adds to [failed_count], the skipped one included. *)
Theorem skipped_is_tallied_as_failed :
  (forall W (platform : Platform W) source_gl target_gl patience tg p sc fc
          (s : State W) existing w1,
      perform (ProjectsGet (worker_target_session source_gl target_gl)
                 (ByPath (g_full_path tg ++ "/" ++ p_name p))) (world s)
      = (inr existing, w1) ->
      collect_one (R:=unit) source_gl target_gl patience false tg p (sc, fc) s
      = (Normal (sc, fc + 1),
         mkState w1 (mkFrame (timeout source_gl) None),
         [Ran tg p
            [Logged (StartProject (p_name p) (p_id p));
             Called (ProjectsGet (worker_target_session source_gl target_gl)
                       (ByPath (g_full_path tg ++ "/" ++ p_name p)));
             Logged (ExistsSkipping (p_name p))]
            (Value None)]))
  /\
  (forall W (platform : Platform W) source_gl target_gl patience overwrite tg
          completed sc fc (s : State W) sc' fc',
      let r := collect (R:=unit) source_gl target_gl patience overwrite tg
                 completed (sc, fc) s in
      outcome_of r = Normal (sc', fc') ->
      sc' = sc + count succeeded (history r) /\
      fc' = fc + count not_succeeded (history r) /\
      ran_projects (history r) = completed).
Proof.
  split.
  - intros. rewrite collect_one_unfold.
    erewrite migrate_project_skips by eassumption. reflexivity.
  - intros. subst r. now apply collect_tally.
Qed.

(** The scenario of the specification: [team/alpha/svc1] is on the
    target, overwrite is off. [svc1] is skipped, [svc2] is migrated, and
    the summary of [team/alpha] reads one success and one failure. *)
Lemma skipped_project_counts_as_failure :
  let t := history (Scenario.run false Scenario.svc1_on_target) in
  In (Logged (FoundProjects "team/alpha" 2)) t /\
  In (Ran Scenario.alpha_on_target (Scenario.listed 1 "svc1")
        [Logged (StartProject "svc1" 1);
         Called (ProjectsGet (Sim.target_session 30)
                   (ByPath "team/alpha/svc1"));
         Logged (ExistsSkipping "svc1")]
        (Value None)) t /\
  ran_projects t =
    [Scenario.listed 1 "svc1"; Scenario.listed 2 "svc2";
     Scenario.listed 3 "svc3"] /\
  count succeeded t = 2 /\
  In (Logged (GroupDone "team/alpha" 1 1)) t /\
  ~ In (Logged (GroupDone "team/alpha" 1 0)) t.
Proof.
  vm_compute.
  split; [in_history|]. split; [in_history|]. split; [reflexivity|].
  split; [reflexivity|]. split; [in_history|]. not_in_history.
Qed.

(** ** An error before [thread_project] is bound *)

(** C2, at the input where the script departs from it. The project is
    listed in the group, its name is free on the target, and fetching it
    from the source by id raises (the source answers 404). The handler of
    lines 272-274 formats its message with [thread_project.name] while
    [thread_project] has no value yet: the worker does not return, it
    raises [UnboundLocalError] to its caller, and the message of the
    original error is not logged. *)
Theorem fetch_error_leaves_the_worker :
  Scenario.work Scenario.ghost false Scenario.groups_only =
  (Raised (UnboundLocalError "thread_project"),
   mkState Scenario.groups_only (mkFrame 30 None),
   [Logged (StartProject "ghost" 99);
    Called (ProjectsGet (Sim.target_session 30) (ByPath "team/alpha/ghost"));
    Logged (NotOnTarget "ghost");
    Logged (FetchingProject "ghost");
    Called (ProjectsGet (Sim.source_session 30) (ById 99))]).
Proof. vm_compute. reflexivity. Qed.

(** ** The check by path *)

Section CheckPath.

Context {W : Type} {platform : Platform W}.
Variables (source_gl target_gl : Gitlab).

Lemma check_path_same overwrite name tgp (s : State W) :
  check_path source_gl target_gl overwrite name tgp name s = (Normal tt, s, []).
Proof.
  unfold check_path. rewrite String.eqb_refl. reflexivity.
Qed.

Lemma check_path_differs overwrite name tgp path (s : State W) :
  path <> name ->
  check_path source_gl target_gl overwrite name tgp path s =
  try_except
    (gl <- thread_target_gl source_gl target_gl ;;
     existing_project <-
       call (ProjectsGet gl (ByPath (tgp ++ "/" ++ path))) ;;
     if overwrite then
       log (PathExistsDeleting path) ;;
       call (ProjectDelete existing_project) ;;
       call (Sleep 3)
     else
       log (PathExistsSkipping path) ;;
       return_ None)
    (fun e =>
       match e with
       | GitlabGetError _ => ret tt
       | _ =>
           if is_Exception e then
             log (PathCheckError (str e)) ;;
             return_ None
           else raise e
       end) s.
Proof.
  intros H. unfold check_path.
  destruct (String.eqb path name) eqn:E; [|reflexivity].
  apply String.eqb_eq in E. contradiction.
Qed.

End CheckPath.

(** C6, as the script has it. When the canonical path differs from the
    name, the worker looks the path up on the target. Found without
    overwrite: skip. Found with overwrite: delete, wait, go on. Not
    found: go on. Any other error of the lookup: the error is logged and
    the worker returns [None], whatever the overwrite flag; the branch of
    the check by name that goes on under overwrite has no counterpart
    here. *)
Theorem check_path_fails_on_lookup_error :
  forall W (platform : Platform W) source_gl target_gl overwrite name tgp path
         (s : State W),
    path <> name ->
    let request :=
      ProjectsGet
        (mkGitlab (url target_gl) (private_token target_gl)
           (thread_target_timeout (frame s)) (ssl_verify source_gl))
        (ByPath (tgp ++ "/" ++ path)) in
    let r := check_path source_gl target_gl overwrite name tgp path s in
    (forall existing w1,
        perform request (world s) = (inr existing, w1) ->
        overwrite = false ->
        r = (Returned None, mkState w1 (frame s),
             [Called request; Logged (PathExistsSkipping path)])) /\
    (forall existing w1 w2 w3,
        perform request (world s) = (inr existing, w1) ->
        overwrite = true ->
        perform (ProjectDelete existing) w1 = (inr tt, w2) ->
        perform (Sleep 3) w2 = (inr tt, w3) ->
        r = (Normal tt, mkState w3 (frame s),
             [Called request; Logged (PathExistsDeleting path);
              Called (ProjectDelete existing); Called (Sleep 3)])) /\
    (forall m w1,
        perform request (world s) = (inl (GitlabGetError m), w1) ->
        r = (Normal tt, mkState w1 (frame s), [Called request])) /\
    (forall e w1,
        perform request (world s) = (inl e, w1) ->
        is_Exception e = true ->
        (forall m, e <> GitlabGetError m) ->
        r = (Returned None, mkState w1 (frame s),
             [Called request; Logged (PathCheckError (str e))])).
Proof.
  intros W platform source_gl target_gl overwrite name tgp path s Hne
    request r.
  subst r. rewrite check_path_differs by exact Hne.
  unfold try_except. rewrite thread_target_gl_bind, call_bind.
  fold request. repeat split.
  - intros existing w1 H ->. rewrite H. reflexivity.
  - intros existing w1 w2 w3 H -> Hd Hs. rewrite H. cbv iota beta.
    rewrite log_bind, call_bind. cbn [world frame]. rewrite Hd.
    unfold call. cbn [world frame]. rewrite Hs. reflexivity.
  - intros m w1 H. rewrite H. reflexivity.
  - intros e w1 H He Hm. rewrite H.
    destruct e; simpl in *; try discriminate; try reflexivity.
    exfalso. now apply (Hm msg).
Qed.

(** The renamed [svc1] of the scenario, looked up under overwrite while
    the target answers the lookup of its path with a server error. *)
Lemma check_path_fails_on_lookup_error_witness :
  "service-one" <> "svc1" /\
  check_path (Sim.source_session 30) (Sim.target_session 30) true "svc1"
    "team/alpha" "service-one"
    (mkState Scenario.faulty_path (mkFrame 30 None)) =
  (Returned None, mkState Scenario.faulty_path (mkFrame 30 None),
   [Called (ProjectsGet (Sim.target_session 30)
              (ByPath "team/alpha/service-one"));
    Logged (PathCheckError "500 Internal Server Error")]).
Proof.
  assert (Hne : "service-one" <> "svc1") by discriminate.
  split; [exact Hne|].
  refine (proj2 (proj2 (proj2
    (@check_path_fails_on_lookup_error Sim.World Sim.platform
       (Sim.source_session 30) (Sim.target_session 30) true "svc1"
       "team/alpha" "service-one"
       (mkState Scenario.faulty_path (mkFrame 30 None)) Hne)))
    (GitlabError "500 Internal Server Error") Scenario.faulty_path
    eq_refl eq_refl _).
  intros m. discriminate.
Defined.

(** With overwrite on and a lookup of the canonical path that fails with
    a server error, the worker gives up: it logs the error and returns
    [None] without asking for an export. *)
Lemma lookup_error_under_overwrite_gives_up :
  Scenario.work (Scenario.listed 1 "svc1") true Scenario.faulty_path =
  (Returned None,
   mkState Scenario.faulty_path
     (mkFrame 30 (Some (mkProject 1 "svc1" "service-one" "" None 0))),
   [Logged (StartProject "svc1" 1);
    Called (ProjectsGet (Sim.target_session 30) (ByPath "team/alpha/svc1"));
    Logged (NotOnTarget "svc1");
    Logged (FetchingProject "svc1");
    Called (ProjectsGet (Sim.source_session 30) (ById 1));
    Called (ProjectsGet (Sim.target_session 30)
              (ByPath "team/alpha/service-one"));
    Logged (PathCheckError "500 Internal Server Error")]).
Proof. vm_compute. reflexivity. Qed.

(** ** From the reply of the import to the result *)

Section PollImport.

Context {W : Type} {platform : Platform W}.
Variables (target_gl : Gitlab) (project : Project) (target_group : Group).

(** How the import loop can end. *)
Lemma wait_import_result fuel : forall p (s : State W),
  match outcome_of (wait_import project fuel p s) with
  | Normal q => import_pending q = false
  | Returned r =>
      r = None /\
      exists t, history (wait_import project fuel p s)
                = t ++ [Logged (ImportFailed (p_name project))]
  | _ => True
  end.
Proof.
  induction fuel as [|fuel IH]; intros p s;
    (destruct (import_pending p) eqn:E;
     [|rewrite wait_import_settled by exact E; exact E]).
  - simpl. rewrite E. exact I.
  - rewrite wait_import_round by exact E.
    destruct (perform (Sleep 5) (world s)) as [[x|[]] w1]; [exact I|].
    destruct (perform (ProjectRefresh p) w1) as [[x|p'] w2]; [exact I|].
    destruct (import_failed p').
    + split; [reflexivity|].
      exists [Called (Sleep 5); Called (ProjectRefresh p)]. reflexivity.
    + rewrite outcome_after, history_after.
      specialize (IH p' (mkState w2 (frame s))).
      destruct (outcome_of (wait_import project fuel p' _)); auto.
      destruct IH as [-> [t Ht]]. split; [reflexivity|].
      exists ([Called (Sleep 5); Called (ProjectRefresh p)] ++ t).
      rewrite Ht. now rewrite app_assoc.
Qed.

Lemma poll_import_object fuel tp target_path p (s : State W) :
  poll_import target_gl project target_group fuel tp target_path
    (ReplyObject p) s =
  match wait_import project fuel p s with
  | (Normal q, s', t) =>
      (Returned (Some q), s',
       t ++ [Logged (Migrated (p_name tp)
                       (g_full_path target_group ++ "/" ++ target_path))])
  | (Returned r, s', t) => (Returned r, s', t)
  | (Raised e, s', t) => (Raised e, s', t)
  | (Diverged, s', t) => (Diverged, s', t)
  end.
Proof.
  unfold poll_import. rewrite ret_bind. unfold bind at 1.
  destruct (wait_import project fuel p s) as [[o s'] t].
  destruct o; reflexivity.
Qed.

End PollImport.

(** C7, as the script has it. The reply of the import is a dictionary or
    an object. A dictionary without a usable id fails the project. A
    dictionary with an id is replaced by the project fetched by that id
    through [target_gl], and the fetched object is then treated like an
    object reply. An object that has no import status, or shows
    [finished], is the result at once, without any request. An object
    with another status is polled: the result is a project that is no
    longer pending, or [None] right after the line that reports a failed
    import; the polling ends exactly when some poll settles. *)
Theorem import_reply_is_normalised_then_polled :
  forall W (platform : Platform W) target_gl project target_group fuel tp
         target_path (s : State W),
    let poll := poll_import target_gl project target_group fuel tp
                  target_path in
    let migrated :=
      Logged (Migrated (p_name tp)
                (g_full_path target_group ++ "/" ++ target_path)) in
    (forall id, falsy_id id = true ->
        poll (ReplyDict id) s =
        (Returned None, s, [Logged (NoProjectId (p_name project))])) /\
    (forall i, i <> 0 ->
        poll (ReplyDict (Some i)) s =
        match perform (ProjectsGet target_gl (ById i)) (world s) with
        | (inl e, w1) =>
            (Raised e, mkState w1 (frame s),
             [Called (ProjectsGet target_gl (ById i))])
        | (inr p, w1) =>
            after [Called (ProjectsGet target_gl (ById i))]
              (poll (ReplyObject p) (mkState w1 (frame s)))
        end) /\
    (forall p, import_pending p = false ->
        poll (ReplyObject p) s = (Returned (Some p), s, [migrated])) /\
    (forall p,
        match outcome_of (poll (ReplyObject p) s) with
        | Normal _ => False
        | Returned (Some q) => import_pending q = false
        | Returned None =>
            exists t, history (poll (ReplyObject p) s)
                      = t ++ [Logged (ImportFailed (p_name project))]
        | _ => True
        end) /\
    (forall p,
        outcome_of (poll (ReplyObject p) s) = Diverged <->
        outcome_of (wait_import project fuel p s) = Diverged).
Proof.
  intros W platform target_gl project target_group fuel tp target_path s
    poll migrated.
  subst poll. split; [|split; [|split; [|split]]].
  - intros id Hid. unfold poll_import. rewrite Hid. reflexivity.
  - intros i Hi. unfold poll_import at 1.
    assert (Hf : falsy_id (Some i) = false)
      by (simpl; now apply Z.eqb_neq).
    rewrite Hf. cbv iota.
    rewrite (call_bind (ProjectsGet target_gl (ById i))).
    destruct (perform (ProjectsGet target_gl (ById i)) (world s))
      as [[e|p] w1]; [reflexivity|].
    f_equal. unfold poll_import. now rewrite ret_bind.
  - intros p Hp. rewrite poll_import_object.
    rewrite wait_import_settled by exact Hp. reflexivity.
  - intros p. rewrite poll_import_object.
    pose proof (wait_import_result project fuel p s) as H.
    unfold outcome_of, history in *.
    destruct (wait_import project fuel p s) as [[o s'] t]. simpl in *.
    destruct o as [q|r|e|]; simpl; auto.
    destruct H as [-> H]. exact H.
  - intros p. rewrite poll_import_object. unfold outcome_of.
    destruct (wait_import project fuel p s) as [[o s'] t]. simpl.
    destruct o; simpl; split; intros H; try discriminate; reflexivity.
Qed.

(** The target answers the import of [svc1] with a dictionary that holds
    the id; the fetched project shows [started], the next poll shows
    [failed]: the worker returns [None], it does not take the project for
    imported. *)
Lemma bare_identifier_is_polled :
  let r := Scenario.work (Scenario.listed 1 "svc1") false Scenario.dict_reply in
  outcome_of r = Returned None /\
  In (Called (ProjectsGet (Sim.target_session 30) (ById 1))) (history r) /\
  In (Called (ProjectRefresh
                (mkProject 1 "svc1" "svc1" "team/alpha/svc1"
                   (Some "started") 0))) (history r) /\
  In (Logged (ImportFailed "svc1")) (history r) /\
  ~ In (Logged (Migrated "svc1" "team/alpha/svc1")) (history r).
Proof.
  vm_compute.
  split; [reflexivity|]. split; [in_history|]. split; [in_history|].
  split; [in_history|]. not_in_history.
Qed.

(** ** The resolver *)

Section Resolver.

Context {W : Type} {platform : Platform W}.

Lemma append_assoc (a b c : string) :
  ((a ++ b) ++ c = a ++ (b ++ c))%string.
Proof. induction a as [|x a IH]; simpl; congruence. Qed.

Lemma join_snoc walked segment :
  walked <> [] ->
  join (walked ++ [segment]) = (join walked ++ "/" ++ segment)%string.
Proof.
  unfold join. induction walked as [|x xs IH]; intros H; [contradiction|].
  destruct xs as [|y ys].
  - reflexivity.
  - change (String.concat "/" ((x :: y :: ys) ++ [segment]))
      with (x ++ "/" ++ String.concat "/" ((y :: ys) ++ [segment]))%string.
    rewrite IH by discriminate.
    change (String.concat "/" (x :: y :: ys))
      with (x ++ "/" ++ String.concat "/" (y :: ys))%string.
    now rewrite !append_assoc.
Qed.

Lemma truthy_append a b : truthy_string (a ++ "/" ++ b) = true.
Proof. destruct a; reflexivity. Qed.

Lemma truthy_nonempty a : a <> "" -> truthy_string a = true.
Proof. destruct a; [contradiction|reflexivity]. Qed.

Lemma requests_app t1 t2 : requests (t1 ++ t2) = requests t1 ++ requests t2.
Proof.
  induction t1 as [|e t1 IH]; simpl; [reflexivity|].
  destruct e; simpl; now rewrite ?IH.
Qed.

Lemma same_run_refl {R A} (r : Outcome R A * State W * list Event) :
  same_run r r.
Proof. repeat split. Qed.

Lemma same_run_after {R A} t1 t2
  (r1 r2 : Outcome R A * State W * list Event) :
  requests t1 = requests t2 -> same_run r1 r2 ->
  same_run (after t1 r1) (after t2 r2).
Proof.
  intros Ht (Ho & Hf & Hr). unfold same_run.
  rewrite !outcome_after, !final_after, !history_after, !requests_app.
  repeat split; congruence.
Qed.

Lemma resolve_parts_cons {R} target_gl source_group i part rest current_path
  parent :
  resolve_parts (W:=W) (R:=R) target_gl source_group i (part :: rest)
    current_path parent =
  (group <-
     try_except
       (group <-
          call (GroupsGet target_gl
                  (if truthy_string current_path
                   then (current_path ++ "/" ++ part)%string
                   else part)) ;;
        log (UsingExistingGroup
               (if truthy_string current_path
                then (current_path ++ "/" ++ part)%string
                else part)) ;;
        ret group)
       (fun e =>
          match e with
          | GitlabGetError _ =>
              group <-
                (if Nat.eqb i 0
                 then call (GroupsCreate target_gl
                              (mkGroupData part part
                                 (g_visibility source_group) None))
                 else
                   match parent with
                   | Some p =>
                       call (GroupsCreate target_gl
                               (mkGroupData part part
                                  (g_visibility source_group)
                                  (Some (g_id p))))
                   | None =>
                       raise (AttributeError
                                "'NoneType' object has no attribute 'id'")
                   end) ;;
              log (CreatedGroup
                     (if truthy_string current_path
                      then (current_path ++ "/" ++ part)%string
                      else part)) ;;
              ret group
          | _ => raise e
          end) ;;
   resolve_parts target_gl source_group (S i) rest
     (if truthy_string current_path
      then (current_path ++ "/" ++ part)%string
      else part) (Some group)).
Proof. reflexivity. Qed.

Lemma resolve_levels_cons {R} target visibility walked previous segment rest :
  resolve_levels (W:=W) (R:=R) target visibility walked previous
    (segment :: rest) =
  (node <-
     try_except
       (call (GroupsGet target (join (walked ++ [segment]))))
       (fun e =>
          match e with
          | GitlabGetError _ =>
              call (GroupsCreate target
                      (mkGroupData segment segment visibility
                         (option_map g_id previous)))
          | _ => raise e
          end) ;;
   resolve_levels target visibility (walked ++ [segment]) (Some node) rest).
Proof. reflexivity. Qed.

(** The loop of the script and the walk of the specification, from the
    same point of the path on. *)
Lemma resolve_parts_levels {R} target_gl source_group parts :
  forall i walked current_path parent (s : State W),
    current_path = join walked ->
    (walked = [] -> i = O /\ parent = None /\ hd "" parts <> "") ->
    (walked <> [] ->
     i <> O /\ truthy_string current_path = true /\ parent <> None) ->
    same_run
      (resolve_parts (R:=R) target_gl source_group i parts current_path
         parent s)
      (resolve_levels (R:=R) target_gl (g_visibility source_group) walked
         parent parts s).
Proof.
  induction parts as [|part rest IH]; intros i walked cp parent s Hcp H0 H1.
  - apply same_run_refl.
  - assert (Hnew : (if truthy_string cp then (cp ++ "/" ++ part)%string
                    else part) = join (walked ++ [part])).
    { destruct walked as [|x xs].
      - subst cp. reflexivity.
      - destruct (H1 ltac:(discriminate)) as (_ & Ht & _). rewrite Ht.
        rewrite join_snoc by discriminate. now subst cp. }
    assert (Hcreate :
      (if Nat.eqb i 0
       then call (R:=R) (GroupsCreate target_gl
                   (mkGroupData part part (g_visibility source_group) None))
       else
         match parent with
         | Some p =>
             call (GroupsCreate target_gl
                     (mkGroupData part part (g_visibility source_group)
                        (Some (g_id p))))
         | None =>
             raise (AttributeError
                      "'NoneType' object has no attribute 'id'")
         end)
      = call (GroupsCreate target_gl
                (mkGroupData part part (g_visibility source_group)
                   (option_map g_id parent)))).
    { destruct walked as [|x xs].
      - destruct (H0 eq_refl) as (-> & -> & _). reflexivity.
      - destruct (H1 ltac:(discriminate)) as (Hi & _ & Hp).
        destruct i; [contradiction|].
        destruct parent as [p|]; [reflexivity|contradiction]. }
    assert (Hnext : forall g s',
      same_run
        (resolve_parts (R:=R) target_gl source_group (S i) rest
           (join (walked ++ [part])) (Some g) s')
        (resolve_levels (R:=R) target_gl (g_visibility source_group)
           (walked ++ [part]) (Some g) rest s')).
    { intros g s'. apply IH; [reflexivity| |].
      - intros E. destruct walked; discriminate.
      - intros _. split; [discriminate|]. split; [|discriminate].
        rewrite <- Hnew. destruct walked as [|x xs].
        + subst cp. simpl. apply truthy_nonempty.
          now destruct (H0 eq_refl) as (_ & _ & H).
        + destruct (H1 ltac:(discriminate)) as (_ & Ht & _). rewrite Ht.
          apply truthy_append. }
    rewrite resolve_parts_cons, resolve_levels_cons.
    rewrite Hnew, Hcreate.
    set (prefix := join (walked ++ [part])) in *.
    set (data := mkGroupData part part (g_visibility source_group)
                   (option_map g_id parent)).
    destruct (perform (GroupsGet target_gl prefix) (world s))
      as [[e|g] w1] eqn:Eget.
    + assert (Ebody :
        (group <- call (R:=R) (GroupsGet target_gl prefix) ;;
         log (UsingExistingGroup prefix) ;;
         ret group) s
        = (Raised e, mkState w1 (frame s),
           [Called (GroupsGet target_gl prefix)])).
      { unfold bind, call. now rewrite Eget. }
      assert (Ecall : call (R:=R) (GroupsGet target_gl prefix) s
                      = (Raised e, mkState w1 (frame s),
                         [Called (GroupsGet target_gl prefix)])).
      { unfold call. now rewrite Eget. }
      erewrite bind_try_except_raised by exact Ebody.
      erewrite (bind_try_except_raised (call (GroupsGet target_gl prefix)))
        by exact Ecall.
      apply same_run_after; [reflexivity|].
      destruct e as [m|m|v|m|m|code]; try apply same_run_refl.
      rewrite bind_assoc.
      rewrite !(call_bind (GroupsCreate target_gl data)).
      cbn [world frame].
      destruct (perform (GroupsCreate target_gl data) w1) as [[e|g] w2].
      * apply same_run_refl.
      * rewrite bind_assoc, log_bind, ret_bind, after_after.
        apply same_run_after; [reflexivity|apply Hnext].
    + assert (Ebody :
        (group <- call (R:=R) (GroupsGet target_gl prefix) ;;
         log (UsingExistingGroup prefix) ;;
         ret group) s
        = (Normal g, mkState w1 (frame s),
           [Called (GroupsGet target_gl prefix);
            Logged (UsingExistingGroup prefix)])).
      { unfold bind, call, log, emit, ret. now rewrite Eget. }
      assert (Ecall : call (R:=R) (GroupsGet target_gl prefix) s
                      = (Normal g, mkState w1 (frame s),
                         [Called (GroupsGet target_gl prefix)])).
      { unfold call. now rewrite Eget. }
      erewrite bind_try_except_normal by exact Ebody.
      erewrite (bind_try_except_normal (call (GroupsGet target_gl prefix)))
        by exact Ecall.
      apply same_run_after; [reflexivity|apply Hnext].
Qed.

Lemma same_run_bind {R A B} (c1 c2 : Prog W R A) (k : A -> Prog W R B) s :
  same_run (c1 s) (c2 s) -> same_run (bind c1 k s) (bind c2 k s).
Proof.
  unfold same_run, bind, outcome_of, final, history.
  destruct (c1 s) as [[o1 s1] t1], (c2 s) as [[o2 s2] t2]. simpl.
  intros (-> & -> & Ht).
  destruct o2; simpl; auto.
  destruct (k a s2) as [[o3 s3] t3]. simpl.
  rewrite !requests_app. repeat split; congruence.
Qed.

Lemma same_run_invoke {R R'} (c1 c2 : Prog W R R) s :
  same_run (c1 s) (c2 s) ->
  same_run (invoke (R':=R') c1 s) (invoke (R':=R') c2 s).
Proof.
  unfold same_run, invoke, outcome_of, final, history.
  destruct (c1 s) as [[o1 s1] t1], (c2 s) as [[o2 s2] t2]. simpl.
  intros (-> & -> & Ht). destruct o2; simpl; auto.
Qed.

End Resolver.

(** C4, as the script has it. For a path whose first segment is not
    empty, [create_target_group_structure] is the walk the specification
    describes: the same requests in the same order (one lookup per
    prefix, a creation where the lookup says not found, with the segment
    as name and path and the previous level's group as parent from the
    second segment on), the same result and the same final state; the
    log lines are the only difference. The visibility of every group it
    creates is the one of the [source_group] it is given. *)
Theorem resolver_walks_the_prefixes :
  forall W (platform : Platform W) target_gl group_path source_group
         (s : State W),
    hd "" (split group_path) <> "" ->
    same_run
      (create_target_group_structure (R:=unit) target_gl group_path
         source_group s)
      (resolve_or_create (R:=unit) target_gl group_path
         (g_visibility source_group) s).
Proof.
  intros W platform target_gl group_path source_group s H.
  unfold create_target_group_structure, resolve_or_create.
  apply same_run_invoke. cbv zeta. apply same_run_bind.
  apply resolve_parts_levels; [reflexivity| |].
  - intros _. auto.
  - intros E. now contradiction E.
Qed.

(** The path [team/alpha] on the empty target of the scenario. *)
Lemma resolver_walks_the_prefixes_witness :
  hd "" (split "team/alpha") <> "" /\
  same_run
    (create_target_group_structure (R:=unit) (Sim.target_session 30)
       "team/alpha" (mkGroup 10 "alpha" "alpha" "team/alpha" "private")
       (Scenario.start Scenario.empty_target))
    (resolve_or_create (R:=unit) (Sim.target_session 30) "team/alpha"
       "private" (Scenario.start Scenario.empty_target)).
Proof.
  assert (H : hd "" (split "team/alpha") <> "") by (vm_compute; discriminate).
  split; [exact H|].
  exact (@resolver_walks_the_prefixes Sim.World Sim.platform
           (Sim.target_session 30) "team/alpha"
           (mkGroup 10 "alpha" "alpha" "team/alpha" "private")
           (Scenario.start Scenario.empty_target) H).
Defined.

(** The scenario on an empty target. The run starts at [team/alpha],
    which is private on the source. The ancestor [team] is created with
    the visibility of [team/alpha], the group the run was started on and
    not the top of the source's hierarchy; the subgroup [beta] is
    created with its own visibility, [internal], read again from the
    source when the recursion reaches it. *)
Lemma visibility_is_read_at_every_level :
  let t := history (Scenario.run false Scenario.empty_target) in
  Sim.sn_visibility Scenario.alpha = "private" /\
  Sim.sn_visibility Scenario.beta = "internal" /\
  In (Called (GroupsCreate (Sim.target_session 30)
                (mkGroupData "team" "team" "private" None))) t /\
  In (Called (GroupsCreate (Sim.target_session 30)
                (mkGroupData "alpha" "alpha" "private" (Some 1)))) t /\
  In (Called (GroupsCreate (Sim.target_session 30)
                (mkGroupData "beta" "beta" "internal" (Some 2)))) t /\
  ~ In (Called (GroupsCreate (Sim.target_session 30)
                  (mkGroupData "beta" "beta" "private" (Some 2)))) t.
Proof.
  vm_compute.
  split; [reflexivity|]. split; [reflexivity|]. split; [in_history|].
  split; [in_history|]. split; [in_history|]. not_in_history.
Qed.

(** ** Outcomes that let the caller go on *)

Section Safe.

Context {W : Type} {platform : Platform W}.
Variable Inv : W -> Prop.

Lemma safe_ret {R A} (a : A) : safe Inv (ret (W:=W) (R:=R) a).
Proof. intros s H. split; [exact H|exact I]. Qed.

Lemma safe_return {R A} (r : R) : safe Inv (return_ (W:=W) (A:=A) r).
Proof. intros s H. split; [exact H|exact I]. Qed.

Lemma safe_raise {R A} e :
  is_Exception e = true -> safe Inv (raise (W:=W) (R:=R) (A:=A) e).
Proof. intros He s H. split; [exact H|exact He]. Qed.

Lemma safe_log {R} l : safe Inv (log (W:=W) (R:=R) l).
Proof. intros s H. split; [exact H|exact I]. Qed.

Lemma safe_get_frame {R} : safe Inv (get_frame (W:=W) (R:=R)).
Proof. intros s H. split; [exact H|exact I]. Qed.

Lemma safe_set_frame {R} f : safe Inv (set_frame (W:=W) (R:=R) f).
Proof. intros s H. split; [exact H|exact I]. Qed.

Lemma safe_bind {R A B} (c : Prog W R A) (k : A -> Prog W R B) :
  safe Inv c -> (forall a, safe Inv (k a)) -> safe Inv (bind c k).
Proof.
  intros Hc Hk s H. unfold bind. destruct (Hc s H) as [H1 H2].
  unfold final, outcome_of in *.
  destruct (c s) as [[o s1] t1]. simpl in *.
  destruct o; simpl; auto.
  destruct (Hk a s1 H1) as [H3 H4]. unfold final, outcome_of in *.
  destruct (k a s1) as [[o2 s2] t2]. simpl in *. auto.
Qed.

Lemma safe_try_except {R A} (c : Prog W R A) h :
  safe Inv c -> (forall e, is_Exception e = true -> safe Inv (h e)) ->
  safe Inv (try_except c h).
Proof.
  intros Hc Hh s H. unfold try_except. destruct (Hc s H) as [H1 H2].
  unfold final, outcome_of in *.
  destruct (c s) as [[o s1] t1]. simpl in *.
  destruct o; simpl; auto.
  destruct (Hh e H2 s1 H1) as [H3 H4]. unfold final, outcome_of in *.
  destruct (h e s1) as [[o2 s2] t2]. simpl in *. auto.
Qed.

Lemma safe_try_finally {R A} (c : Prog W R A) fin :
  safe Inv c -> safe Inv fin -> safe Inv (try_finally c fin).
Proof.
  intros Hc Hf s H. unfold try_finally. destruct (Hc s H) as [H1 H2].
  unfold final, outcome_of in *.
  destruct (c s) as [[o s1] t1]. simpl in *.
  destruct (Hf s1 H1) as [H3 H4]. unfold final, outcome_of in *.
  destruct (fin s1) as [[o2 s2] t2]. simpl in *.
  destruct o; simpl; try contradiction; destruct o2; simpl; auto.
Qed.

Lemma safe_invoke {R R'} (c : Prog W R R) :
  safe Inv c -> safe Inv (invoke (R':=R') c).
Proof.
  intros Hc s H. unfold invoke. destruct (Hc s H) as [H1 H2].
  unfold final, outcome_of in *.
  destruct (c s) as [[o s1] t1]. simpl in *.
  destruct o; simpl; auto.
Qed.

(** A future takes whatever exception the worker raised: the submission
    itself ends normally. *)
Lemma safe_submit {R} tg p (c : Prog W (option Project) (option Project)) :
  safe Inv c -> safe Inv (submit (R:=R) tg p c).
Proof.
  intros Hc s H. unfold submit. destruct (Hc s H) as [H1 H2].
  unfold final, outcome_of in *.
  destruct (c s) as [[o s1] t1]. simpl in *.
  destruct o; simpl; auto.
Qed.

Lemma safe_call {R} c :
  (forall w, Inv w ->
             Inv (snd (perform c w)) /\
             forall e, fst (perform c w) = inl e -> is_Exception e = true) ->
  safe Inv (call (R:=R) c).
Proof.
  intros Hc s H. unfold call, final, outcome_of.
  destruct (Hc (world s) H) as [H1 H2].
  destruct (perform c (world s)) as [[e|v] w']; simpl in *; auto.
Qed.

Lemma safe_thread_target_gl {R} source_gl target_gl :
  safe Inv (thread_target_gl (W:=W) (R:=R) source_gl target_gl).
Proof. intros s H. split; [exact H|exact I]. Qed.

Lemma safe_for_each {R A} (xs : list A) (body : A -> Prog W R unit) :
  (forall x, In x xs -> safe Inv (body x)) -> safe Inv (for_each xs body).
Proof.
  induction xs as [|x xs IH]; intros H; simpl.
  - apply safe_ret.
  - apply safe_bind; [apply H; now left|].
    intros _. apply IH. intros y Hy. apply H. now right.
Qed.

End Safe.

Ltac safe_step :=
  lazymatch goal with
  | |- safe _ (ret _) => apply safe_ret
  | |- safe _ (return_ _) => apply safe_return
  | |- safe _ (raise _) => apply safe_raise; try assumption; try reflexivity
  | |- safe _ (log _) => apply safe_log
  | |- safe _ get_frame => apply safe_get_frame
  | |- safe _ (set_frame _) => apply safe_set_frame
  | |- safe _ (thread_target_gl _ _) => apply safe_thread_target_gl
  | |- safe _ (set_thread_target_timeout _) =>
      unfold set_thread_target_timeout
  | |- safe _ (bind_thread_project _) => unfold bind_thread_project
  | |- safe _ (bind _ _) => apply safe_bind; [|intro]
  | |- safe _ (try_except _ _) =>
      apply safe_try_except; [|let e := fresh "e" in
                                let He := fresh "He" in intros e He]
  | |- safe _ (try_finally _ _) => apply safe_try_finally
  | |- safe _ (invoke _) => apply safe_invoke
  | |- safe _ (submit _ _ _) => apply safe_submit
  | |- safe _ (if is_Exception ?e then _ else _) =>
      match goal with
      | H : is_Exception e = true |- _ => rewrite H
      end
  | |- safe _ (if ?b then _ else _) => destruct b
  | |- safe _ (match ?x with _ => _ end) => destruct x
  end.

Ltac safe_with leaf := repeat first [ leaf | safe_step ].

(** ** The simulated platform, request by request *)

Section SimRequests.

Import Sim SimSpec.

Lemma same_source_refl w : same_source w w.
Proof.
  repeat split. exists []. now rewrite app_nil_r.
Qed.

Lemma same_source_trans w1 w2 w3 :
  same_source w1 w2 -> same_source w2 w3 -> same_source w1 w3.
Proof.
  intros (A1 & A2 & A3 & A4 & A5 & A6 & l1 & A7)
         (B1 & B2 & B3 & B4 & B5 & B6 & l2 & B7).
  repeat split; try congruence.
  exists (l1 ++ l2). rewrite B7, A7. now rewrite app_assoc.
Qed.

Lemma grows_refl w : grows w w.
Proof. split; [apply same_source_refl|auto]. Qed.

Lemma grows_trans w1 w2 w3 : grows w1 w2 -> grows w2 w3 -> grows w1 w3.
Proof.
  intros [A1 A2] [B1 B2]. split; [eapply same_source_trans; eauto|auto].
Qed.

Lemma patient_same_source patience w w' :
  same_source w w' -> patient patience w -> patient patience w'.
Proof.
  intros (A1 & A2 & A3 & A4 & A5 & A6 & _) [P1 P2]. split.
  - intros id sp n H. rewrite A2 in H. eauto.
  - intros path n. rewrite A6. auto.
Qed.

(** No request makes the simulated platform raise [SystemExit]. *)
Lemma sim_raises_exceptions c (w : World) e :
  fst (perform c w) = inl e -> is_Exception e = true.
Proof.
  destruct c; unfold perform, platform;
    unfold groups_get, groups_create, group_projects_list,
      group_subgroups_list, projects_get, project_delete, exports_create,
      export_refresh, export_download, projects_import, project_refresh,
      add_group;
    repeat match goal with
      | |- context [match ?x with _ => _ end] => destruct x
      | |- context [if ?x then _ else _] => destruct x
      end; simpl; intros H; inversion H; reflexivity.
Qed.

(** Every request leaves the source and the switches alone and keeps the
    groups of the target. *)
Lemma sim_same_source c (w : World) : same_source w (snd (perform c w)).
Proof.
  destruct c; unfold perform, platform;
    unfold groups_get, groups_create, group_projects_list,
      group_subgroups_list, projects_get, project_delete, exports_create,
      export_refresh, export_download, projects_import, project_refresh,
      add_group;
    repeat match goal with
      | |- context [match ?x with _ => _ end] => destruct x
      | |- context [if ?x then _ else _] => destruct x
      end; simpl;
    try apply same_source_refl;
    repeat split; simpl;
    first [ now (exists []; rewrite app_nil_r) | eexists; reflexivity ].
Qed.



End SimRequests.

(** ** The worker on the simulated platform *)

Section SimWorker.

Import Sim SimSpec.

Variable w0 : World.

Lemma sim_sleep n (w : World) : perform (Sleep n) w = (inr tt, w).
Proof. reflexivity. Qed.

Lemma sim_wait_export_safe fuel tp : forall e (s : State World),
  (exists k, (k < fuel)%nat /\
             forall sp, source_projects (world s) (ex_project_id e) = Some sp ->
                        export_ends (sp_export sp (ex_refreshes e + k))) ->
  world (final (wait_export fuel tp e s)) = world s /\
  ok (outcome_of (wait_export fuel tp e s)).
Proof.
  induction fuel as [|fuel IH]; intros e s (k & Hlt & Hk); [lia|].
  destruct (String.eqb (export_status e) "finished") eqn:E.
  { apply String.eqb_eq in E. rewrite wait_export_finished by exact E.
    split; [reflexivity|exact I]. }
  rewrite wait_export_round by exact E. rewrite sim_sleep.
  unfold perform, platform, export_refresh.
  destruct (source_projects (world s) (ex_project_id e)) as [sp|] eqn:Hsp.
  2: { split; reflexivity. }
  specialize (Hk sp eq_refl).
  set (e' := mkExport (ex_project_id e) (sp_export sp (ex_refreshes e))
               (S (ex_refreshes e))).
  destruct (String.eqb (export_status e') "failed") eqn:F.
  { split; [reflexivity|exact I]. }
  rewrite final_after, outcome_after.
  destruct k as [|k].
  - rewrite Nat.add_0_r in Hk. destruct Hk as [Hk|Hk].
    + rewrite wait_export_finished by exact Hk. split; [reflexivity|exact I].
    + subst e'. simpl in F. rewrite Hk in F. discriminate.
  - apply (IH e' (mkState (world s) (frame s))).
    exists k. split; [lia|]. simpl. intros sp' Hsp'.
    rewrite Hsp in Hsp'. inversion Hsp'; subst sp'.
    now rewrite Nat.add_succ_r in Hk.
Qed.

Lemma sim_wait_import_safe project fuel : forall p (s : State World),
  (exists k, (k < fuel)%nat /\
             import_ends (import_status (world s) (p_path_with_namespace p)
                            (S (p_refreshes p + k)))) ->
  world (final (wait_import project fuel p s)) = world s /\
  ok (outcome_of (wait_import project fuel p s)).
Proof.
  induction fuel as [|fuel IH]; intros p s (k & Hlt & Hk); [lia|].
  destruct (import_pending p) eqn:E.
  2: { rewrite wait_import_settled by exact E. split; [reflexivity|exact I]. }
  rewrite wait_import_round by exact E. rewrite sim_sleep.
  unfold perform, platform, project_refresh.
  set (p' := mkProject (p_id p) (p_name p) (p_path p)
               (p_path_with_namespace p)
               (import_status (world s) (p_path_with_namespace p)
                  (S (p_refreshes p)))
               (S (p_refreshes p))).
  destruct (import_failed p') eqn:F.
  { split; [reflexivity|exact I]. }
  rewrite final_after, outcome_after.
  destruct k as [|k].
  - rewrite Nat.add_0_r in Hk.
    assert (Hp : import_pending p' = false).
    { unfold import_pending, import_failed, import_ends in *. subst p'.
      simpl in *.
      destruct (import_status (world s) (p_path_with_namespace p)
                  (S (p_refreshes p))) as [st|]; [|reflexivity].
      destruct Hk as [-> | ->]; [reflexivity|discriminate]. }
    rewrite wait_import_settled by exact Hp. split; [reflexivity|exact I].
  - apply (IH p' (mkState (world s) (frame s))).
    exists k. split; [lia|]. simpl.
    now rewrite Nat.add_succ_r in Hk.
Qed.

Variable patience : nat.
Hypothesis w0_patient : patient patience w0.

Lemma sim_call_safe {R} c : safe (same_source w0) (call (R:=R) c).
Proof.
  apply safe_call. intros w Hw. split.
  - eapply same_source_trans; [exact Hw|apply sim_same_source].
  - apply sim_raises_exceptions.
Qed.

Lemma sim_wait_export_patient tp e :
  safe (same_source w0) (wait_export patience tp e).
Proof.
  intros s Hs.
  pose proof (patient_same_source Hs w0_patient) as [P1 _].
  destruct (@sim_wait_export_safe patience tp e s) as [H1 H2].
  - destruct (source_projects (world s) (ex_project_id e)) as [sp|] eqn:Hsp.
    + destruct (P1 _ sp (ex_refreshes e) Hsp) as (k & Hlt & Hk).
      exists k. split; [exact Hlt|]. intros sp' E. now inversion E; subst.
    + destruct w0_patient as [_ P2].
      destruct (P2 "" O) as (k & Hlt & _).
      exists k. split; [exact Hlt|]. intros sp' E. discriminate.
  - rewrite H1. auto.
Qed.

Lemma sim_wait_import_patient project p :
  safe (same_source w0) (wait_import project patience p).
Proof.
  intros s Hs.
  pose proof (patient_same_source Hs w0_patient) as [_ P2].
  destruct (@sim_wait_import_safe project patience p s) as [H1 H2].
  - apply P2.
  - rewrite H1. auto.
Qed.

Ltac sim_leaf :=
  idtac;
  match goal with
  | |- safe _ (call ?c) => exact (sim_call_safe c)
  | |- safe _ (wait_export _ _ _) => apply sim_wait_export_patient
  | |- safe _ (wait_import _ _ _) => apply sim_wait_import_patient
  end.

(** On a patient platform a worker always comes back to the coordinator:
    with a value, or with an exception that the coordinator catches. *)
Lemma sim_migrate_project_safe source_gl target_gl project tg overwrite :
  safe (same_source w0)
    (migrate_project source_gl target_gl project tg overwrite patience).
Proof.
  unfold migrate_project, migrate_project_try, check_name, check_path,
    import_with_timeout, poll_import.
  safe_with ltac:(sim_leaf).
Qed.

End SimWorker.

(** ** The resolver on the simulated platform *)

Section SimResolver.

Import Sim SimSpec SimGroups.

Lemma find_group_placed path : forall gs i g,
  1 <= i ->
  find_group path i gs = Some g ->
  g_full_path g = path /\
  i <= g_id g /\
  exists tg, nth_error gs (Z.to_nat (g_id g - i)) = Some tg /\
             tg_full_path tg = path.
Proof.
  induction gs as [|x gs IH]; intros i g Hi H; simpl in H; [discriminate|].
  destruct (String.eqb (tg_full_path x) path) eqn:E.
  - inversion H; subst g. simpl. apply String.eqb_eq in E.
    split; [exact E|]. split; [lia|].
    exists x. rewrite Z.sub_diag. simpl. auto.
  - destruct (IH (i + 1) g ltac:(lia) H) as (H1 & H2 & tg & H3 & H4).
    split; [exact H1|]. split; [lia|].
    exists tg. split; [|exact H4].
    replace (Z.to_nat (g_id g - i)) with (S (Z.to_nat (g_id g - (i + 1))))
      by lia.
    exact H3.
Qed.

Lemma placed_found (w : World) path g :
  find_group path 1 (target_groups w) = Some g ->
  placed w g /\ g_full_path g = path.
Proof.
  intros H. assert (Hi : 1 <= 1) by lia.
  destruct (find_group_placed _ _ Hi H) as (H1 & H2 & tg & H3 & H4).
  split; [|exact H1]. exists tg. unfold group_by_id.
  destruct (1 <=? g_id g) eqn:E; [|apply Z.leb_gt in E; lia].
  split; congruence.
Qed.

Lemma placed_same_source w w' g :
  same_source w w' -> placed w g -> placed w' g.
Proof.
  intros (_ & _ & _ & _ & _ & _ & more & Hm) (tg & H1 & H2).
  exists tg. split; [|exact H2]. unfold group_by_id in *.
  destruct (1 <=? g_id g); [|discriminate].
  rewrite Hm. rewrite nth_error_app1; [exact H1|].
  apply nth_error_Some. congruence.
Qed.

Lemma placed_added (w : World) data full :
  placed (with_target_groups w
            (target_groups w
             ++ [mkTargetGroup (gd_name data) (gd_path data) full
                   (gd_visibility data) (gd_parent_id data)]))
    (group_object (Z.of_nat (List.length (target_groups w)) + 1)
       (mkTargetGroup (gd_name data) (gd_path data) full
          (gd_visibility data) (gd_parent_id data))).
Proof.
  exists (mkTargetGroup (gd_name data) (gd_path data) full
            (gd_visibility data) (gd_parent_id data)).
  split; [|reflexivity]. unfold group_by_id. simpl.
  destruct (1 <=? Z.of_nat (List.length (target_groups w)) + 1) eqn:E;
    [|apply Z.leb_gt in E; lia].
  replace (Z.to_nat (Z.of_nat (List.length (target_groups w)) + 1 - 1))
    with (List.length (target_groups w)) by lia.
  rewrite nth_error_app2 by lia. now rewrite Nat.sub_diag.
Qed.

Lemma grows_added (w : World) gs : grows w (with_target_groups w (target_groups w ++ gs)).
Proof.
  split; [|auto]. repeat split. now exists gs.
Qed.

Lemma sim_groups_get_target gl path (w : World) :
  on_source gl = false -> path <> "" ->
  perform (GroupsGet gl path) w =
  match find_group path 1 (target_groups w) with
  | Some g => (inr g, w)
  | None => (inl (GitlabGetError "404 Group Not Found"), w)
  end.
Proof.
  intros Hgl Hp. unfold perform, platform, groups_get. rewrite Hgl.
  destruct (String.eqb path "") eqn:E; [|reflexivity].
  apply String.eqb_eq in E. contradiction.
Qed.

Lemma truthy_not_empty a : truthy_string a = true -> a <> "".
Proof. destruct a; [discriminate|discriminate]. Qed.

(** With segments that are not empty, the loop of the resolver comes to
    its end on the simulated target: it returns a group that the target
    has, under the accumulated path, and the target has only gained
    groups. *)
Lemma sim_resolve_parts {R} target_gl source_group parts :
  on_source target_gl = false ->
  Forall (fun p => p <> "") parts ->
  forall i cp parent (s : State World),
    (i = O -> cp = "") ->
    (i <> O ->
     truthy_string cp = true /\
     exists pg, parent = Some pg /\ placed (world s) pg /\
                g_full_path pg = cp) ->
    exists res s' t,
      resolve_parts (R:=R) target_gl source_group i parts cp parent s
      = (Normal res, s', t) /\
      grows (world s) (world s') /\
      frame s' = frame s /\
      (parts <> [] \/ i <> O ->
       exists g, res = Some g /\ placed (world s') g /\
                 g_full_path g = accumulate cp parts).
Proof.
  intros Hgl Hparts. induction Hparts as [|part rest Hpart Hrest IH];
    intros i cp parent s H0 H1.
  - exists parent, s, []. split; [reflexivity|]. split; [apply grows_refl|].
    split; [reflexivity|]. intros [H|H]; [contradiction|].
    destruct (H1 H) as (_ & pg & -> & Hpl & Hfp). now exists pg.
  - set (cp' := if truthy_string cp then (cp ++ "/" ++ part)%string
                else part).
    assert (Hcp' : truthy_string cp' = true).
    { unfold cp'. destruct (truthy_string cp); [apply truthy_append|].
      now apply truthy_nonempty. }
    (* what the rest of the loop does, from a group for this level *)
    assert (Hnext : forall g s1 t1,
      grows (world s) (world s1) -> frame s1 = frame s ->
      placed (world s1) g -> g_full_path g = cp' ->
      exists res s' t,
        after t1 (resolve_parts (R:=R) target_gl source_group (S i) rest cp'
                    (Some g) s1) = (Normal res, s', t) /\
        grows (world s) (world s') /\
        frame s' = frame s /\
        (part :: rest <> [] \/ i <> O ->
         exists g', res = Some g' /\ placed (world s') g' /\
                    g_full_path g' = accumulate cp (part :: rest))).
    { intros g s1 t1 Hg Hf Hpl Hfp.
      destruct (IH (S i) cp' (Some g) s1) as (res & s' & t & E & G & F & P).
      - discriminate.
      - intros _. split; [exact Hcp'|]. now exists g.
      - exists res, s', (t1 ++ t). rewrite E. split; [reflexivity|].
        split; [eapply grows_trans; eauto|]. split; [congruence|].
        intros _. apply P. right. discriminate. }
    rewrite resolve_parts_cons. fold cp'.
    pose proof (sim_groups_get_target target_gl (world s) Hgl
                  (@truthy_not_empty cp' Hcp')) as Eget.
    destruct (find_group cp' 1 (target_groups (world s))) as [g|] eqn:Efind.
    + (* the group is there *)
      erewrite bind_try_except_normal.
      2:{ unfold bind, call, log, emit, ret. rewrite Eget. reflexivity. }
      destruct (placed_found _ _ Efind) as [Hpl Hfp].
      apply Hnext; auto. apply grows_refl.
    + (* the group is created *)
      erewrite bind_try_except_raised.
      2:{ unfold bind, call. rewrite Eget. reflexivity. }
      cbv iota beta.
      assert (Ecreate : exists tg,
        (if Nat.eqb i 0
         then call (R:=R)
                (GroupsCreate target_gl
                   (mkGroupData part part (g_visibility source_group) None))
         else
           match parent with
           | Some p =>
               call (GroupsCreate target_gl
                       (mkGroupData part part (g_visibility source_group)
                          (Some (g_id p))))
           | None =>
               raise (AttributeError
                        "'NoneType' object has no attribute 'id'")
           end) (mkState (world s) (frame s))
        = (Normal (group_object
                     (Z.of_nat (List.length (target_groups (world s))) + 1)
                     tg),
           mkState (with_target_groups (world s)
                      (target_groups (world s) ++ [tg])) (frame s),
           [Called (GroupsCreate target_gl
                      (mkGroupData part part (g_visibility source_group)
                         (tg_parent tg)))]) /\
        tg_full_path tg = cp' /\
        placed (with_target_groups (world s)
                  (target_groups (world s) ++ [tg]))
          (group_object
             (Z.of_nat (List.length (target_groups (world s))) + 1) tg)).
      { destruct i as [|i].
        - exists (mkTargetGroup part part part (g_visibility source_group)
                    None).
          cbn [Nat.eqb].
          unfold call, perform, platform, groups_create, add_group.
          rewrite Hgl. cbn [gd_path gd_parent_id gd_name gd_visibility
                            world frame].
          destruct (String.eqb part "") eqn:E;
            [apply String.eqb_eq in E; contradiction|].
          split; [reflexivity|]. split.
          + unfold cp'. now rewrite (H0 eq_refl).
          + apply (placed_added (world s)
                     (mkGroupData part part (g_visibility source_group) None)).
        - destruct (H1 ltac:(discriminate))
            as (Ht & pg & -> & (tgp & Hid & Htgp) & Hfp).
          exists (mkTargetGroup part part (tg_full_path tgp ++ "/" ++ part)
                    (g_visibility source_group) (Some (g_id pg))).
          cbn [Nat.eqb].
          unfold call, perform, platform, groups_create, add_group.
          rewrite Hgl. cbn [gd_path gd_parent_id gd_name gd_visibility
                            world frame].
          destruct (String.eqb part "") eqn:E;
            [apply String.eqb_eq in E; contradiction|].
          rewrite Hid.
          split; [reflexivity|]. split.
          + unfold cp'. rewrite Ht. cbn [tg_full_path].
            now rewrite Htgp, Hfp.
          + apply (placed_added (world s)
                     (mkGroupData part part (g_visibility source_group)
                        (Some (g_id pg)))). }
      destruct Ecreate as (tg & Ecreate & Hfull & Hpl).
      rewrite bind_assoc.
      erewrite bind_normal by exact Ecreate.
      cbv beta. rewrite bind_assoc, log_bind, ret_bind, !after_after.
      apply Hnext; auto.
      apply grows_added.
Qed.

End SimResolver.

(** ** Rules for postconditions *)

Section Wp.

Context {W : Type} {platform : Platform W}.

Lemma wp_bind {R A B} (c : Prog W R A) (k : A -> Prog W R B) Q s :
  wp c (wp_then k Q) s -> wp (bind c k) Q s.
Proof.
  unfold wp, wp_then, bind, outcome_of, final, history.
  destruct (c s) as [[o s1] t1]. simpl.
  destruct o; auto.
  unfold wp, outcome_of, final, history.
  destruct (k a s1) as [[o2 s2] t2]. simpl. auto.
Qed.

Lemma wp_try_except {R A} (c : Prog W R A) h Q s :
  wp c (wp_handle h Q) s -> wp (try_except c h) Q s.
Proof.
  unfold wp, wp_handle, try_except, outcome_of, final, history.
  destruct (c s) as [[o s1] t1]. simpl.
  destruct o; auto.
  unfold wp, outcome_of, final, history.
  destruct (h e s1) as [[o2 s2] t2]. simpl. auto.
Qed.

Lemma wp_ret {R A} (a : A) (Q : Outcome R A -> State W -> list Event -> Prop)
  s :
  Q (Normal a) s [] -> wp (ret a) Q s.
Proof. auto. Qed.

Lemma wp_return {R A} (r : R)
  (Q : Outcome R A -> State W -> list Event -> Prop) s :
  Q (Returned r) s [] -> wp (return_ r) Q s.
Proof. auto. Qed.

Lemma wp_raise {R A} e (Q : Outcome R A -> State W -> list Event -> Prop) s :
  Q (Raised e) s [] -> wp (raise e) Q s.
Proof. auto. Qed.

Lemma wp_diverge {R A} (Q : Outcome R A -> State W -> list Event -> Prop) s :
  Q Diverged s [] -> wp diverge Q s.
Proof. auto. Qed.

Lemma wp_log {R} l (Q : Outcome R unit -> State W -> list Event -> Prop) s :
  Q (Normal tt) s [Logged l] -> wp (log l) Q s.
Proof. auto. Qed.

Lemma wp_get_frame {R} (Q : Outcome R Frame -> State W -> list Event -> Prop)
  s :
  Q (Normal (frame s)) s [] -> wp get_frame Q s.
Proof. auto. Qed.

Lemma wp_set_frame {R} f
  (Q : Outcome R unit -> State W -> list Event -> Prop) s :
  Q (Normal tt) (mkState (world s) f) [] -> wp (set_frame f) Q s.
Proof. auto. Qed.

Lemma wp_thread_target_gl {R} source_gl target_gl
  (Q : Outcome R Gitlab -> State W -> list Event -> Prop) s :
  Q (Normal (mkGitlab (url target_gl) (private_token target_gl)
               (thread_target_timeout (frame s)) (ssl_verify source_gl)))
    s [] ->
  wp (thread_target_gl source_gl target_gl) Q s.
Proof. auto. Qed.

Lemma wp_call {R} c
  (Q : Outcome R (Reply c) -> State W -> list Event -> Prop) s :
  match perform c (world s) with
  | (inl e, w') => Q (Raised e) (mkState w' (frame s)) [Called c]
  | (inr v, w') => Q (Normal v) (mkState w' (frame s)) [Called c]
  end ->
  wp (call c) Q s.
Proof.
  unfold wp, call, outcome_of, final, history.
  destruct (perform c (world s)) as [[e|v] w']; auto.
Qed.

Lemma wp_try_finally {R A} (c : Prog W R A) fin Q s :
  wp c (fun o s1 t1 =>
          match o with
          | Diverged => Q Diverged s1 t1
          | _ =>
              wp fin (fun o' s' t' =>
                        match o' with
                        | Normal _ => Q o s' (t1 ++ t')
                        | Returned r => Q (Returned r) s' (t1 ++ t')
                        | Raised e => Q (Raised e) s' (t1 ++ t')
                        | Diverged => Q Diverged s' (t1 ++ t')
                        end) s1
          end) s ->
  wp (try_finally c fin) Q s.
Proof.
  unfold wp, try_finally, outcome_of, final, history.
  destruct (c s) as [[o s1] t1]. simpl.
  destruct o; auto; unfold wp, outcome_of, final, history;
    destruct (fin s1) as [[o2 s2] t2]; simpl; destruct o2; auto.
Qed.

(** A weaker postcondition. *)
Lemma wp_weaken {R A} (c : Prog W R A)
  (Q Q' : Outcome R A -> State W -> list Event -> Prop) s :
  wp c Q s -> (forall o s' t, Q o s' t -> Q' o s' t) -> wp c Q' s.
Proof. unfold wp. auto. Qed.

End Wp.

(** One step of symbolic execution on a goal [wp c Q s]. *)
Ltac wp_step :=
  lazymatch goal with
  | |- wp ?c _ _ =>
      lazymatch c with
      | bind _ _ => apply wp_bind
      | try_except _ _ => apply wp_try_except
      | try_finally _ _ => apply wp_try_finally
      | ret _ => apply wp_ret
      | return_ _ => apply wp_return
      | raise _ => apply wp_raise
      | diverge => apply wp_diverge
      | log _ => apply wp_log
      | get_frame => apply wp_get_frame
      | set_frame _ => apply wp_set_frame
      | thread_target_gl _ _ => apply wp_thread_target_gl
      | set_thread_target_timeout _ => unfold set_thread_target_timeout
      | bind_thread_project _ => unfold bind_thread_project
      end
  | |- wp_then _ _ _ _ _ => unfold wp_then
  | |- wp_handle _ _ _ _ _ => unfold wp_handle
  end.

(** ** What a delivered project leaves on the simulated target *)

Section SimDelivery.

Import Sim SimSpec SimGroups.

(** The waiting loops change nothing on the simulated platform, and
    when they return it is [None] they return. *)
Lemma sim_wait_export_inert fuel tp : forall e (s : State World),
  world (final (wait_export fuel tp e s)) = world s /\
  frame (final (wait_export fuel tp e s)) = frame s /\
  forall r, outcome_of (wait_export fuel tp e s) = Returned r -> r = None.
Proof.
  induction fuel as [|fuel IH]; intros e s;
    (destruct (String.eqb (export_status e) "finished") eqn:E;
     [apply String.eqb_eq in E; rewrite wait_export_finished by exact E;
      repeat split; discriminate|]).
  - simpl. rewrite E. repeat split. discriminate.
  - rewrite wait_export_round by exact E. rewrite sim_sleep.
    unfold perform, platform, export_refresh.
    destruct (source_projects (world s) (ex_project_id e)) as [sp|].
    2: { repeat split. discriminate. }
    destruct (String.eqb _ "failed").
    + repeat split. intros r H. now inversion H.
    + rewrite final_after, outcome_after.
      exact (IH _ (mkState (world s) (frame s))).
Qed.


Lemma state_eta (a b : State World) :
  world a = world b -> frame a = frame b -> a = b.
Proof. destruct a, b. simpl. intros -> ->. reflexivity. Qed.

Lemma wp_wait_export fuel tp e
  (Q : Outcome (option Project) Export -> State World -> list Event -> Prop)
  s :
  (forall o t, (forall r, o = Returned r -> r = None) -> Q o s t) ->
  wp (wait_export fuel tp e) Q s.
Proof.
  intros H. destruct (sim_wait_export_inert fuel tp e s) as (H1 & H2 & H3).
  unfold wp. rewrite (state_eta _ _ H1 H2). apply H. exact H3.
Qed.




End SimDelivery.

(** ** The order of a run *)

Section Emits.

Context {W : Type} {platform : Platform W}.
Variable Q : Event -> Prop.

Lemma emits_ret {R A} (a : A) : emits Q (ret (W:=W) (R:=R) a).
Proof. intros s. constructor. Qed.

Lemma emits_return {R A} (r : R) : emits Q (return_ (W:=W) (A:=A) r).
Proof. intros s. constructor. Qed.

Lemma emits_raise {R A} e : emits Q (raise (W:=W) (R:=R) (A:=A) e).
Proof. intros s. constructor. Qed.

Lemma emits_log {R} l : Q (Logged l) -> emits Q (log (W:=W) (R:=R) l).
Proof. intros H s. repeat constructor. exact H. Qed.

Lemma emits_call {R} c : Q (Called c) -> emits Q (call (R:=R) c).
Proof.
  intros H s. unfold call, history.
  destruct (perform c (world s)) as [[e|v] w']; repeat constructor; exact H.
Qed.

Lemma emits_bind {R A B} (c : Prog W R A) (k : A -> Prog W R B) :
  emits Q c -> (forall a, emits Q (k a)) -> emits Q (bind c k).
Proof.
  intros Hc Hk s. unfold bind. specialize (Hc s).
  destruct (c s) as [[o s1] t1]. unfold history in *. simpl in *.
  destruct o; simpl; auto.
  specialize (Hk a s1). unfold history in Hk.
  destruct (k a s1) as [[o2 s2] t2]. simpl in *.
  apply Forall_app. auto.
Qed.

Lemma emits_try_except {R A} (c : Prog W R A) h :
  emits Q c -> (forall e, emits Q (h e)) -> emits Q (try_except c h).
Proof.
  intros Hc Hh s. unfold try_except. specialize (Hc s).
  destruct (c s) as [[o s1] t1]. unfold history in *. simpl in *.
  destruct o; simpl; auto.
  specialize (Hh e s1). unfold history in Hh.
  destruct (h e s1) as [[o2 s2] t2]. simpl in *.
  apply Forall_app. auto.
Qed.

Lemma emits_invoke {R R'} (c : Prog W R R) :
  emits Q c -> emits Q (invoke (R':=R') c).
Proof.
  intros Hc s. unfold invoke. specialize (Hc s).
  destruct (c s) as [[o s1] t1]. unfold history in *. simpl in *.
  destruct o; simpl; auto.
Qed.

End Emits.

(** Break a goal [emits Q c] down along the shape of [c]. *)
Ltac emits_step :=
  lazymatch goal with
  | |- emits _ (ret _) => apply emits_ret
  | |- emits _ (return_ _) => apply emits_return
  | |- emits _ (raise _) => apply emits_raise
  | |- emits _ (log _) => apply emits_log; exact I
  | |- emits ?Q (call ?c) => apply (@emits_call _ _ Q _ c); exact I
  | |- emits _ (bind _ _) => apply emits_bind; [|intro]
  | |- emits _ (try_except _ _) => apply emits_try_except; [|intro]
  | |- emits _ (invoke _) => apply emits_invoke
  | |- emits _ (if ?b then _ else _) => destruct b
  | |- emits _ (match ?x with _ => _ end) => destruct x
  | |- emits _ (let _ := _ in _) => cbv zeta
  end.

Section Order.

Context {W : Type} {platform : Platform W}.

Lemma history_bind {R A B} (c : Prog W R A) (k : A -> Prog W R B) s :
  history (bind c k s) =
  history (c s) ++
  match outcome_of (c s) with
  | Normal a => history (k a (final (c s)))
  | _ => []
  end.
Proof.
  unfold bind, history, outcome_of, final.
  destruct (c s) as [[o s1] t1]. simpl.
  destruct o; simpl; rewrite ?app_nil_r; try reflexivity.
  destruct (k a s1) as [[o2 s2] t2]. reflexivity.
Qed.

Lemma get_source_group_lookups {R} source_gl path :
  emits lookup_event (get_source_group (W:=W) (R:=R) source_gl path).
Proof. unfold get_source_group. repeat emits_step. Qed.

Lemma resolve_parts_lookups {R} target_gl source_group parts :
  forall i cp parent,
    emits lookup_event
      (resolve_parts (W:=W) (R:=R) target_gl source_group i parts cp parent).
Proof.
  induction parts as [|part rest IH]; intros i cp parent;
    cbn [resolve_parts].
  - apply emits_ret.
  - apply emits_bind; [|intro; apply IH].
    repeat emits_step.
Qed.

Lemma create_target_group_structure_lookups {R} target_gl path source_group :
  emits lookup_event
    (create_target_group_structure (W:=W) (R:=R) target_gl path source_group).
Proof.
  unfold create_target_group_structure.
  apply emits_invoke. apply emits_bind; [apply resolve_parts_lookups|].
  intro. repeat emits_step.
Qed.

Lemma lookup_is_head e : lookup_event e -> head_event e.
Proof. destruct e as [[]|[]|]; simpl; auto. Qed.

Lemma get_source_group_head {R} source_gl path :
  emits head_event (get_source_group (W:=W) (R:=R) source_gl path).
Proof.
  intros s. eapply Forall_impl; [exact lookup_is_head|].
  apply get_source_group_lookups.
Qed.

Lemma create_target_group_structure_head {R} target_gl path source_group :
  emits head_event
    (create_target_group_structure (W:=W) (R:=R) target_gl path source_group).
Proof.
  intros s. eapply Forall_impl; [exact lookup_is_head|].
  apply create_target_group_structure_lookups.
Qed.

(** The lookups add nothing to what a run has handed out, visited or
    counted. *)
Lemma lookups_are_silent t :
  Forall lookup_event t -> handed t = [] /\ visited t = [] /\ tallies t = [].
Proof.
  induction 1 as [|e t He Ht IH]; [auto|].
  destruct e as [[]|[]|]; simpl in He; try contradiction; exact IH.
Qed.

Lemma handed_app t1 t2 : handed (t1 ++ t2) = handed t1 ++ handed t2.
Proof.
  induction t1 as [|e t1 IH]; simpl; [reflexivity|].
  destruct e; simpl; now rewrite ?IH.
Qed.

Lemma visited_app t1 t2 : visited (t1 ++ t2) = visited t1 ++ visited t2.
Proof.
  induction t1 as [|e t1 IH]; simpl; [reflexivity|].
  destruct e as [|[]|]; simpl; now rewrite ?IH.
Qed.

Lemma tallies_app t1 t2 : tallies (t1 ++ t2) = tallies t1 ++ tallies t2.
Proof.
  induction t1 as [|e t1 IH]; simpl; [reflexivity|].
  destruct e as [|[]|]; simpl; now rewrite ?IH.
Qed.

(** A loop runs its body on the elements in turn. *)
Lemma for_each_in_turn {R A} (body : A -> Prog W R unit) xs :
  forall s, in_turn body xs s (history (for_each xs body s)).
Proof.
  induction xs as [|x xs IH]; intros s; cbn [for_each].
  - constructor.
  - rewrite history_bind.
    destruct (outcome_of (body x s)) as [[]| | |] eqn:E.
    + apply turn_next; [now rewrite E|apply IH].
    + rewrite app_nil_r. apply turn_last. now rewrite E.
    + rewrite app_nil_r. apply turn_last. now rewrite E.
    + rewrite app_nil_r. apply turn_last. now rewrite E.
Qed.

Variable schedule : list Project -> list Project.
Variables (source_gl target_gl : Gitlab) (patience : nat) (overwrite : bool).

(** The history of a batch is made of futures, and of drained ones when
    the batch comes to its end. *)
Lemma collect_batch {R} tg completed : forall counts (s : State W),
  Forall batch_event
    (history (collect (R:=R) source_gl target_gl patience overwrite tg
                completed counts s)) /\
  (ends_normally
     (outcome_of (collect (R:=R) source_gl target_gl patience overwrite tg
                    completed counts s)) = true ->
   Forall drained
     (history (collect (R:=R) source_gl target_gl patience overwrite tg
                 completed counts s)) /\
   ran_projects
     (history (collect (R:=R) source_gl target_gl patience overwrite tg
                 completed counts s)) = completed).
Proof.
  induction completed as [|p rest IH]; intros [sc fc] s.
  - cbn. repeat split; constructor.
  - rewrite collect_cons. rewrite history_bind.
    unfold bind at 1.
    rewrite collect_one_unfold. unfold collected.
    destruct (migrate_project source_gl target_gl p tg overwrite patience s)
      as [[o s1] t1].
    unfold outcome_of at 1 3 5, final at 1 2 3, history at 2 4 6.
    cbn [fst snd].
    destruct o as [r|r|e|]; cbn [fst snd outcome_of final history].
    + destruct (IH (if truthy r then (sc + 1, fc) else (sc, fc + 1)) s1)
        as [H1 H2].
      destruct (collect _ _ _ _ _ _ _ s1) as [[o2 s2] t2].
      cbn [after outcome_of final history fst snd] in *.
      split; [constructor; [exact I|exact H1]|].
      intros H. destruct (H2 H) as [H3 H4].
      split; [constructor; [exact I|exact H3]|].
      cbn [app ran_projects]. now rewrite H4.
    + destruct (IH (if truthy r then (sc + 1, fc) else (sc, fc + 1)) s1)
        as [H1 H2].
      destruct (collect _ _ _ _ _ _ _ s1) as [[o2 s2] t2].
      cbn [after outcome_of final history fst snd] in *.
      split; [constructor; [exact I|exact H1]|].
      intros H. destruct (H2 H) as [H3 H4].
      split; [constructor; [exact I|exact H3]|].
      cbn [app ran_projects]. now rewrite H4.
    + destruct (is_Exception e); cbn [fst snd outcome_of final history].
      * destruct (IH (sc, fc + 1) s1) as [H1 H2].
        destruct (collect _ _ _ _ _ _ _ s1) as [[o2 s2] t2].
        cbn [after outcome_of final history fst snd] in *.
        split; [repeat (constructor; [exact I|]); exact H1|].
        intros H. destruct (H2 H) as [H3 H4].
        split; [repeat (constructor; [exact I|]); exact H3|].
        cbn [app ran_projects]. now rewrite H4.
      * split; [repeat constructor|]. discriminate.
    + split; [repeat constructor|]. discriminate.
Qed.

End Order.

(** C9. Depth-first order. The history of [migrate_group] on a group
    is made of three parts: what comes before the batch, the batch, and
    the rest. If there is a rest, that is if the run gets as far as
    listing the subgroups, then the pool was opened, the batch before the
    rest is the whole history of the collecting loop over the projects
    that the source listed for the group (a future for every one of them,
    in the order of completion), and every worker of it has come to its
    end. The list of subgroups is the one the source gives in the state
    the batch has left; its members are then taken in turn, in the order
    of that list, each one by a full run of [migrate_group] that starts
    in the state the one before has left. *)
Theorem subgroups_start_after_the_batch :
  forall {W : Type} {platform : Platform W}
         (schedule : list Project -> list Project)
         (source_gl target_gl : Gitlab) (patience : nat) (max_workers : Z)
         (overwrite : bool) (fuel : nat) (path : string) (s : State W),
  exists head batch rest,
    history (migrate_group schedule source_gl target_gl patience max_workers
               overwrite (S fuel) path s) = head ++ batch ++ rest /\
    Forall head_event head /\
    Forall batch_event batch /\
    (rest = [] \/
     exists source_group target_group s1 projects w1,
       let batch_run :=
         collect (R:=unit) source_gl target_gl patience overwrite
           target_group (schedule projects) (0, 0)
           (mkState w1 (frame s1)) in
       0 < max_workers /\
       outcome_of (get_source_group (R:=unit) source_gl path s)
       = Normal source_group /\
       perform (GroupProjectsList source_group) (world s1)
       = (inr projects, w1) /\
       batch = history batch_run /\
       ran_projects batch = schedule projects /\
       Forall drained batch /\
       exists rest',
         rest = Called (GroupSubgroupsList source_group) :: rest' /\
         (rest' = [] \/
          exists subgroups s2 sequence closing,
            perform (GroupSubgroupsList source_group)
              (world (final batch_run))
            = (inr subgroups, world s2) /\
            frame s2 = frame (final batch_run) /\
            rest' = Logged (FoundSubgroups path (List.length subgroups))
                    :: sequence ++ closing /\
            in_turn
              (fun subgroup =>
                 log (StartSubgroup (path ++ "/" ++ g_path subgroup)) ;;
                 migrate_group schedule source_gl target_gl patience
                   max_workers overwrite fuel
                   (path ++ "/" ++ g_path subgroup))
              subgroups s2 sequence /\
            Forall closing_event closing)).
Proof.
  intros W platform schedule source_gl target_gl patience max_workers
    overwrite fuel path s.
  cbn [migrate_group].
  (* the source group *)
  rewrite history_bind.
  pose proof (get_source_group_head (R:=unit) source_gl path s) as Ha.
  destruct (outcome_of (get_source_group source_gl path s))
    as [source_group| | |] eqn:Eg;
    try solve
      [exists (history (get_source_group (R:=unit) source_gl path s));
       exists (@nil Event); exists (@nil Event);
       rewrite !app_nil_r; auto].
  set (sa := final (get_source_group source_gl path s)) in *.
  set (ta := history (get_source_group source_gl path s)) in *.
  (* the target group *)
  rewrite history_bind.
  pose proof (create_target_group_structure_head (R:=unit) target_gl path
                source_group sa) as Hb.
  destruct (outcome_of
              (create_target_group_structure target_gl path source_group sa))
    as [target_group| | |];
    try solve
      [exists (ta ++ history (create_target_group_structure (R:=unit)
                                target_gl path source_group sa));
       exists (@nil Event); exists (@nil Event);
       rewrite !app_nil_r; split; [reflexivity|];
       split; [apply Forall_app; auto|auto]].
  set (sb := final (create_target_group_structure target_gl path
                      source_group sa)) in *.
  set (tb := history (create_target_group_structure target_gl path
                        source_group sa)) in *.
  (* the projects *)
  rewrite (call_bind (GroupProjectsList source_group)).
  destruct (perform (GroupProjectsList source_group) (world sb))
    as [[e|projects] w1] eqn:Ep.
  { exists (ta ++ tb ++ [Called (GroupProjectsList source_group)]).
    exists (@nil Event). exists (@nil Event).
    rewrite !app_nil_r. split; [reflexivity|].
    split; [|auto]. repeat (apply Forall_app; split; auto).
    repeat constructor. }
  rewrite history_after, log_bind, history_after.
  set (head := ta ++ tb ++ [Called (GroupProjectsList source_group);
                            Logged (FoundProjects path
                                      (List.length projects))]).
  assert (Hhead : Forall head_event head).
  { unfold head. repeat (apply Forall_app; split; auto).
    repeat constructor. }
  (* the pool *)
  destruct (Z_lt_le_dec 0 max_workers) as [Hmw|Hmw].
  2: { rewrite open_pool_refuses by exact Hmw.
       exists head. exists (@nil Event). exists (@nil Event).
       split; [unfold head; rewrite <- !app_assoc; reflexivity|auto]. }
  rewrite open_pool_bind by exact Hmw.
  (* the batch *)
  rewrite history_bind.
  set (sc := mkState w1 (frame sb)).
  destruct (collect_batch (R:=unit) source_gl target_gl patience overwrite
              target_group (schedule projects) (0, 0) sc) as [Hc Hd].
  set (batch_run := collect (R:=unit) source_gl target_gl patience
                      overwrite target_group (schedule projects)
                      (0, 0) sc) in *.
  exists head. exists (history batch_run).
  destruct (outcome_of batch_run) as [counts| | |] eqn:Ec;
    try solve
      [exists (@nil Event); split;
       [unfold head; rewrite <- !app_assoc; reflexivity|auto]].
  destruct (Hd eq_refl) as [Hdrained Hran].
  set (sd := final batch_run) in *.
  (* the subgroups *)
  rewrite (call_bind (GroupSubgroupsList source_group)).
  destruct (perform (GroupSubgroupsList source_group) (world sd))
    as [[e|subgroups] w2] eqn:Es.
  { exists [Called (GroupSubgroupsList source_group)].
    split; [unfold head; rewrite <- !app_assoc; reflexivity|].
    split; [exact Hhead|]. split; [exact Hc|]. right.
    exists source_group. exists target_group. exists sb. exists projects.
    exists w1. cbv zeta. fold sc. fold batch_run.
    split; [exact Hmw|]. split; [reflexivity|]. split; [exact Ep|].
    split; [reflexivity|]. split; [exact Hran|]. split; [exact Hdrained|].
    eexists. split; [reflexivity|]. left. reflexivity. }
  rewrite history_after, log_bind, history_after, history_bind.
  set (se := mkState w2 (frame sd)).
  set (body := fun subgroup : Group =>
                 log (StartSubgroup (path ++ "/" ++ g_path subgroup)) ;;
                 migrate_group schedule source_gl target_gl patience
                   max_workers overwrite fuel
                   (path ++ "/" ++ g_path subgroup)).
  pose proof (for_each_in_turn (R:=unit) body subgroups se) as Hturn.
  eexists. split; [unfold head; rewrite <- !app_assoc; reflexivity|].
  split; [exact Hhead|]. split; [exact Hc|]. right.
  exists source_group. exists target_group. exists sb. exists projects.
  exists w1. cbv zeta. fold sc. fold batch_run.
  split; [exact Hmw|]. split; [reflexivity|]. split; [exact Ep|].
  split; [reflexivity|]. split; [exact Hran|]. split; [exact Hdrained|].
  eexists. split; [reflexivity|]. right.
  exists subgroups. exists se. exists (history (for_each subgroups body se)).
  eexists. fold sd. split; [exact Es|]. split; [reflexivity|].
  split; [reflexivity|]. split; [exact Hturn|].
  destruct (outcome_of (for_each subgroups body se)); repeat constructor.
Qed.

(** ** The worker on the simulated platform, case by case *)

Section SimCases.

Import Sim SimSpec SimGroups.




Lemma on_source_source ts : on_source (source_session ts) = true.
Proof. reflexivity. Qed.

Lemma on_source_target tu : on_source (target_session tu) = false.
Proof. reflexivity. Qed.

Lemma on_source_worker_source ts :
  on_source (thread_source_gl (source_session ts)) = true.
Proof. reflexivity. Qed.

Lemma on_source_worker_target ts tu t :
  on_source (worker_target_session (source_session ts) (target_session tu))
  = false /\
  on_source (mkGitlab (url (target_session tu))
               (private_token (target_session tu)) t
               (ssl_verify (source_session ts))) = false.
Proof. split; reflexivity. Qed.























End SimCases.

(** ** A whole run on the simulated platform *)

Section SimGroup.

Import Sim SimSpec SimGroups SimTree.

Variable schedule : list Project -> list Project.
Variables (ts tu : Z) (patience : nat) (max_workers : Z) (overwrite : bool).
Variable w0 : World.

Hypothesis schedule_perm : forall l, Permutation (schedule l) l.
Hypothesis max_workers_positive : 0 < max_workers.

(** The order in which the platform moves: it is kept by the resolver
    and by the workers, and it keeps the source. *)
Variable le : World -> World -> Prop.
Hypothesis le_refl : forall w, le w w.
Hypothesis le_trans : forall w1 w2 w3, le w1 w2 -> le w2 w3 -> le w1 w3.
Hypothesis le_same_source : forall w w', le w w' -> same_source w w'.
Hypothesis le_grows : forall w w', grows w w' -> le w w'.
Hypothesis le_worker : forall p tg (s : State World),
  same_source w0 (world s) -> placed (world s) tg ->
  le (world s)
     (world (final (migrate_project (source_session ts) (target_session tu)
                      p tg overwrite patience s))) /\
  ok (outcome_of (migrate_project (source_session ts) (target_session tu)
                    p tg overwrite patience s)).

Lemma sim_get_source_group {R} path n (s : State World) :
  source_groups (world s) path = Some n ->
  get_source_group (R:=R) (source_session ts) path s =
  (Normal (mkGroup (sn_id n) (sn_name n) (sn_path n) path (sn_visibility n)),
   s,
   [Called (GroupsGet (source_session ts) path);
    Logged (GotSourceGroup (sn_name n) (sn_id n))]).
Proof.
  intros H. unfold get_source_group, invoke, try_except.
  rewrite (call_bind (GroupsGet (source_session ts) path)).
  unfold perform, platform, groups_get.
  change (on_source (source_session ts)) with true. cbv iota.
  rewrite H. rewrite log_bind. unfold return_, after.
  destruct s; reflexivity.
Qed.

Lemma sim_create_target_group_structure {R} path sg (s : State World) :
  well_formed path ->
  exists tg s' t,
    create_target_group_structure (R:=R) (target_session tu) path sg s
    = (Normal tg, s', t) /\
    grows (world s) (world s') /\
    placed (world s') tg /\
    g_full_path tg = target_path_of path /\
    Forall lookup_event t.
Proof.
  intros Hwf.
  pose proof (create_target_group_structure_lookups (R:=R)
                (target_session tu) path sg s) as Hev.
  unfold create_target_group_structure in *.
  destruct (@sim_resolve_parts (Group) (target_session tu) sg (split path)
              eq_refl Hwf O "" None s)
    as (res & s' & t & E & G & F & P).
  - reflexivity.
  - intros H. now contradiction H.
  - destruct P as (g & -> & Hpl & Hfp); [left; apply split_not_nil|].
    unfold invoke, bind in *. rewrite E in *.
    unfold return_, after, history in *. simpl in *.
    exists g, s', (t ++ []).
    split; [reflexivity|]. split; [exact G|]. split; [exact Hpl|].
    split; [exact Hfp|exact Hev].
Qed.

Lemma sim_group_projects_list g n (w : World) :
  source_groups w (g_full_path g) = Some n ->
  perform (GroupProjectsList g) w = (inr (sn_projects n), w).
Proof. intros H. unfold perform, platform, group_projects_list. now rewrite H. Qed.

Lemma sim_group_subgroups_list g n (w : World) :
  source_groups w (g_full_path g) = Some n ->
  perform (GroupSubgroupsList g) w = (inr (sn_subgroups n), w).
Proof. intros H. unfold perform, platform, group_subgroups_list. now rewrite H. Qed.

Lemma worker_run_weaken s0 s1 s2 s3 t :
  le (world s0) (world s1) -> le (world s2) (world s3) ->
  Forall (worker_run le (source_session ts) (target_session tu) overwrite
            patience s1 s2) t ->
  Forall (worker_run le (source_session ts) (target_session tu) overwrite
            patience s0 s3) t.
Proof.
  intros H01 H23 H. eapply Forall_impl; [|exact H].
  intros [c|l|tg p h f]; simpl; auto.
  intros (si & A & B & C & D & E). exists si. repeat split; eauto.
Qed.

Lemma lookups_run s s' t :
  Forall lookup_event t ->
  Forall (worker_run le (source_session ts) (target_session tu) overwrite
            patience s s') t.
Proof.
  intros H. eapply Forall_impl; [|exact H].
  intros [c|l|tg p h f]; simpl; auto. contradiction.
Qed.

(** The batch of a group. *)
Lemma sim_collect tg projects : forall sc fc (s : State World),
  same_source w0 (world s) -> placed (world s) tg ->
  exists sc' fc' s' t,
    collect (R:=unit) (source_session ts) (target_session tu) patience
      overwrite tg projects (sc, fc) s = (Normal (sc', fc'), s', t) /\
    le (world s) (world s') /\
    handed t = map (pair (g_full_path tg)) projects /\
    visited t = [] /\ tallies t = [] /\
    sc' + fc' = sc + fc + Z.of_nat (List.length projects) /\
    Forall (worker_run le (source_session ts) (target_session tu) overwrite
              patience s s') t.
Proof.
  induction projects as [|p rest IH]; intros sc fc s Hs Hpl.
  - exists sc, fc, s, []. cbn. repeat split; auto; lia.
  - destruct (@le_worker p tg s Hs Hpl) as [Hle Hok].
    assert (Hnext : forall a b extra s1 t1,
      migrate_project (source_session ts) (target_session tu) p tg overwrite
        patience s = (extra, s1, t1) ->
      a + b = sc + fc + 1 ->
      forall more, handed more = [] -> visited more = [] ->
                   tallies more = [] ->
                   Forall (worker_run le (source_session ts)
                             (target_session tu) overwrite patience s s1)
                     more ->
      exists sc' fc' s' t,
        after (Ran tg p t1 (future_of extra) :: more)
          (collect (R:=unit) (source_session ts) (target_session tu)
             patience overwrite tg rest (a, b) s1)
        = (Normal (sc', fc'), s', t) /\
        le (world s) (world s') /\
        handed t = map (pair (g_full_path tg)) (p :: rest) /\
        visited t = [] /\ tallies t = [] /\
        sc' + fc' = sc + fc + Z.of_nat (List.length (p :: rest)) /\
        Forall (worker_run le (source_session ts) (target_session tu)
                  overwrite patience s s') t).
    { intros a b extra s1 t1 E Hab more M1 M2 M3 M4.
      rewrite E in Hle. unfold final in Hle. simpl in Hle.
      destruct (IH a b s1) as (sc' & fc' & s' & t & E' & L & H1 & H2 & H3
                               & H4 & H5).
      - eapply same_source_trans; [exact Hs|]. now apply le_same_source.
      - eapply placed_same_source; [|exact Hpl]. now apply le_same_source.
      - rewrite E'. exists sc', fc', s'. eexists. split; [reflexivity|].
        split; [eauto|].
        change (Ran tg p t1 (future_of extra) :: more)
          with ([Ran tg p t1 (future_of extra)] ++ more).
        rewrite <- !app_assoc.
        rewrite !handed_app, !visited_app, !tallies_app, M1, M2, M3, H1, H2,
          H3.
        split; [reflexivity|]. split; [reflexivity|].
        split; [reflexivity|].
        split; [cbn [List.length]; lia|].
        apply Forall_app. split; [|apply Forall_app; split].
        + constructor; [|constructor]. exists s.
          rewrite E. unfold history, outcome_of, final. simpl.
          repeat split; auto.
        + eapply worker_run_weaken; [apply le_refl|exact L|exact M4].
        + eapply worker_run_weaken; [exact Hle|apply le_refl|exact H5]. }
    rewrite collect_cons. unfold bind. rewrite collect_one_unfold.
    unfold collected.
    destruct (migrate_project (source_session ts) (target_session tu) p tg
                overwrite patience s) as [[o s1] t1] eqn:E.
    unfold outcome_of, final, history in *. simpl fst in *. simpl snd in *.
    destruct o as [r|r|e|]; cbv iota beta.
    + destruct r as [q|]; cbn [truthy]; cbv iota;
        apply (Hnext _ _ _ _ _ eq_refl); auto; lia.
    + destruct r as [q|]; cbn [truthy]; cbv iota;
        apply (Hnext _ _ _ _ _ eq_refl); auto; lia.
    + simpl in Hok. rewrite Hok. cbv iota beta.
      apply (Hnext _ _ _ _ _ eq_refl); auto; try lia.
      repeat constructor.
    + contradiction.
Qed.

Lemma covers_after (s s1 : State World) t0 P0 G0 Z0 P G Z r :
  le (world s) (world s1) ->
  Forall (worker_run le (source_session ts) (target_session tu) overwrite
            patience s s1) t0 ->
  handed t0 = P0 -> visited t0 = G0 -> tallies t0 = Z0 ->
  covers le (source_session ts) (target_session tu) overwrite patience s1
    P G Z r ->
  covers le (source_session ts) (target_session tu) overwrite patience s
    (P0 ++ P) (G0 ++ G) (Z0 ++ Z) (after t0 r).
Proof.
  intros L H0 <- <- <- (H1 & H2 & H3 & H4 & H5 & H6).
  unfold covers. rewrite outcome_after, final_after, history_after.
  rewrite handed_app, visited_app, tallies_app, H3, H4, H5.
  split; [exact H1|]. split; [eauto|].
  split; [reflexivity|]. split; [reflexivity|]. split; [reflexivity|].
  apply Forall_app. split.
  - eapply worker_run_weaken; [apply le_refl|exact H2|exact H0].
  - eapply worker_run_weaken; [exact L|apply le_refl|exact H6].
Qed.

Lemma covers_eq (s : State World) P G Z P' G' Z' r :
  covers le (source_session ts) (target_session tu) overwrite patience s
    P G Z r ->
  P = P' -> G = G' -> Z = Z' ->
  covers le (source_session ts) (target_session tu) overwrite patience s
    P' G' Z' r.
Proof. intros H <- <- <-. exact H. Qed.

Lemma covers_done (s : State World) t :
  Forall lookup_event t \/ Forall is_log t ->
  covers le (source_session ts) (target_session tu) overwrite patience s
    (handed t) (visited t) (tallies t) (Normal tt, s, t).
Proof.
  intros H. unfold covers, outcome_of, final, history. simpl.
  repeat (split; [auto|]).
  destruct H as [H|H]; [now apply lookups_run|].
  eapply Forall_impl; [|exact H].
  intros [c|l|tg p h f]; simpl; auto. contradiction.
Qed.

(** The subgroups of a group, given what a run of one level less
    does. *)
Lemma sim_subgroups fuel path :
  (forall path (s : State World),
     closed w0 fuel path -> same_source w0 (world s) ->
     covers le (source_session ts) (target_session tu) overwrite patience s
       (plan schedule w0 fuel path) (groups_of w0 fuel path)
       (sizes w0 fuel path)
       (migrate_group schedule (source_session ts) (target_session tu)
          patience max_workers overwrite fuel path s)) ->
  forall subgroups (s : State World),
    Forall (fun sub => closed w0 fuel (child_path path sub)) subgroups ->
    same_source w0 (world s) ->
    covers le (source_session ts) (target_session tu) overwrite patience s
      (flat_map (fun sub => plan schedule w0 fuel (child_path path sub))
         subgroups)
      (flat_map (fun sub => groups_of w0 fuel (child_path path sub))
         subgroups)
      (flat_map (fun sub => sizes w0 fuel (child_path path sub)) subgroups)
      (for_each subgroups
         (fun subgroup =>
            log (StartSubgroup (path ++ "/" ++ g_path subgroup)) ;;
            migrate_group schedule (source_session ts) (target_session tu)
              patience max_workers overwrite fuel
              (path ++ "/" ++ g_path subgroup)) s).
Proof.
  intros IHfuel. induction subgroups as [|sub rest IH]; intros s Hcl Hs.
  - cbn [for_each flat_map]. apply (covers_done s (t:=[])). left. constructor.
  - inversion Hcl as [|? ? Hsub Hrest]; subst.
    cbn [for_each flat_map].
    pose proof (IHfuel (child_path path sub) s Hsub Hs)
      as (H1 & H2 & H3 & H4 & H5 & H6).
    unfold child_path in *.
    rewrite bind_assoc, log_bind. unfold bind at 1.
    set (r := migrate_group schedule (source_session ts) (target_session tu)
                patience max_workers overwrite fuel
                (path ++ "/" ++ g_path sub) s) in *.
    rewrite (result_eta r), H1.
    rewrite after_after.
    eapply covers_eq.
    + eapply (covers_after (s:=s) (s1:=final r)); [exact H2| |reflexivity..|].
      * constructor; [exact I|exact H6].
      * apply IH; [exact Hrest|].
        eapply same_source_trans; [exact Hs|]. now apply le_same_source.
    + cbn [handed app]. now rewrite H3.
    + cbn [visited app]. now rewrite H4.
    + cbn [tallies app]. now rewrite H5.
Qed.

(** A run over a closed tree comes to its end, and hands out, visits and
    counts what the source tree holds. *)
Lemma sim_migrate_group fuel : forall path (s : State World),
  closed w0 fuel path -> same_source w0 (world s) ->
  covers le (source_session ts) (target_session tu) overwrite patience s
    (plan schedule w0 fuel path) (groups_of w0 fuel path)
    (sizes w0 fuel path)
    (migrate_group schedule (source_session ts) (target_session tu)
       patience max_workers overwrite fuel path s).
Proof.
  induction fuel as [|fuel IHfuel]; intros path s Hcl Hs; [contradiction|].
  destruct Hcl as [Hwf Hn].
  cbn [migrate_group plan groups_of sizes].
  destruct (source_groups w0 path) as [n|] eqn:En; [|contradiction].
  assert (Hsrc : forall s' : State World,
            same_source w0 (world s') -> source_groups (world s') path = Some n).
  { intros s' (A & _). now rewrite A. }
  (* the source group *)
  erewrite bind_normal
    by exact (@sim_get_source_group unit path n s (Hsrc s Hs)).
  set (g := mkGroup (sn_id n) (sn_name n) (sn_path n) path (sn_visibility n)).
  (* the target group *)
  destruct (@sim_create_target_group_structure unit path g s Hwf)
    as (tg & s1 & t1 & E1 & G1 & Pl1 & Fp1 & Ev1).
  erewrite bind_normal by exact E1.
  assert (Hs1 : same_source w0 (world s1)).
  { eapply same_source_trans; [exact Hs|exact (proj1 G1)]. }
  (* the projects *)
  rewrite (call_bind (GroupProjectsList g)).
  rewrite (@sim_group_projects_list g n (world s1) (Hsrc s1 Hs1)).
  rewrite log_bind.
  rewrite open_pool_bind by exact max_workers_positive.
  set (s2 := mkState (world s1) (frame s1)).
  (* the batch *)
  destruct (@sim_collect tg (schedule (sn_projects n)) 0 0 s2 Hs1 Pl1)
    as (sc & fc & s3 & t3 & E3 & L3 & P3 & V3 & T3 & C3 & R3).
  erewrite bind_normal by exact E3.
  assert (Hs3 : same_source w0 (world s3)).
  { eapply same_source_trans; [exact Hs1|]. now apply le_same_source. }
  (* the subgroups *)
  rewrite (call_bind (GroupSubgroupsList g)).
  rewrite (@sim_group_subgroups_list g n (world s3) (Hsrc s3 Hs3)).
  rewrite log_bind.
  set (s4 := mkState (world s3) (frame s3)).
  pose proof (@sim_subgroups fuel path IHfuel (sn_subgroups n) s4 Hn Hs3) as H5.
  unfold bind at 1.
  set (r5 := for_each (sn_subgroups n) _ s4) in *.
  rewrite (result_eta r5), (proj1 H5). cbv iota beta.
  (* the pieces, one after the other *)
  eapply covers_eq.
  - eapply (covers_after (s:=s) (s1:=s));
      [apply le_refl|apply lookups_run; repeat constructor|reflexivity..|].
    eapply (covers_after (s:=s) (s1:=s1));
      [apply le_grows; exact G1|apply lookups_run; exact Ev1|reflexivity..|].
    eapply (covers_after (s:=s1) (s1:=s2));
      [apply le_refl|repeat constructor|reflexivity..|].
    eapply (covers_after (s:=s2) (s1:=s2));
      [apply le_refl|repeat constructor|reflexivity..|].
    eapply (covers_after (s:=s2) (s1:=s3));
      [exact L3|exact R3|reflexivity..|].
    eapply (covers_after (s:=s3) (s1:=s4));
      [apply le_refl|repeat constructor|reflexivity..|].
    eapply (covers_after (s:=s4) (s1:=s4));
      [apply le_refl|repeat constructor|reflexivity..|].
    eapply (covers_after (s:=s4) (s1:=final r5));
      [exact (proj1 (proj2 H5))
      |exact (proj2 (proj2 (proj2 (proj2 (proj2 H5)))))|reflexivity..|].
    apply (covers_done (final r5)
             (t:=[Logged (GroupDone path (fst (sc, fc)) (snd (sc, fc)))])).
    right. repeat constructor.
  - destruct (lookups_are_silent Ev1) as (A & _ & _).
    destruct H5 as (_ & _ & B & _).
    rewrite A, P3, B, Fp1. cbn. now rewrite app_nil_r.
  - destruct (lookups_are_silent Ev1) as (_ & A & _).
    destruct H5 as (_ & _ & _ & B & _).
    rewrite A, V3, B. cbn. now rewrite app_nil_r.
  - destruct (lookups_are_silent Ev1) as (_ & _ & A).
    destruct H5 as (_ & _ & _ & _ & B & _).
    rewrite A, T3, B. cbn.
    rewrite (Permutation_length (schedule_perm (sn_projects n))) in C3.
    replace (sc + fc) with (Z.of_nat (List.length (sn_projects n))) by lia.
    reflexivity.
Qed.

End SimGroup.

Section SimCoverage.

Import Sim SimSpec SimGroups SimTree.

Lemma plan_permutation schedule (w : World) :
  (forall l, Permutation (schedule l) l) ->
  forall fuel path,
    Permutation (plan schedule w fuel path) (projects_of w fuel path).
Proof.
  intros Hperm. unfold projects_of.
  induction fuel as [|fuel IH]; intros path; cbn [plan]; [constructor|].
  destruct (source_groups w path) as [n|]; [|constructor].
  apply Permutation_app.
  - apply Permutation_map. apply Hperm.
  - induction (sn_subgroups n) as [|sub rest IHrest]; cbn [flat_map];
      [constructor|].
    apply Permutation_app; [apply IH|exact IHrest].
Qed.

(** Whatever the overwrite flag, a worker leaves the source, the switches
    and the groups of the target as they are, and comes back. *)
Lemma sim_worker_same_source ts tu patience overwrite (w0 : World) :
  patient patience w0 ->
  forall p tg (s : State World),
    same_source w0 (world s) -> placed (world s) tg ->
    same_source (world s)
      (world (final (migrate_project (source_session ts) (target_session tu)
                       p tg overwrite patience s))) /\
    ok (outcome_of (migrate_project (source_session ts) (target_session tu)
                      p tg overwrite patience s)).
Proof.
  intros Hp p tg s Hs _.
  apply (@sim_migrate_project_safe (world s) patience
           (patient_same_source Hs Hp)).
  apply same_source_refl.
Qed.

End SimCoverage.

(** C8, as the script has it, on the simulated platform. When
    [max_workers] is positive (the pool of line 294 refuses any other
    bound), the source tree under the path is no deeper than the fuel,
    every job of the platform ends within the patience of the loops, and
    the futures of a batch complete in some order (a permutation of the
    submitted projects), the run comes to its end; it lists the projects
    of every group of the tree once, a group before its subgroups; the
    futures it collects are, up to their order, the projects of the tree,
    each with the target group of its own group; and the two counters of
    every group add up to the number of projects of that group, whatever
    became of them. *)
Theorem every_project_is_handed_out_once :
  forall (schedule : list Project -> list Project) (ts tu : Z)
         (patience : nat) (max_workers : Z) (overwrite : bool) (fuel : nat)
         (path : string) (s : State Sim.World),
    (forall l, Permutation (schedule l) l) ->
    0 < max_workers ->
    SimSpec.patient patience (world s) ->
    SimTree.closed (world s) fuel path ->
    let r := migrate_group schedule (Sim.source_session ts)
               (Sim.target_session tu) patience max_workers overwrite fuel
               path s in
    outcome_of r = Normal tt /\
    visited (history r) = SimTree.groups_of (world s) fuel path /\
    Permutation (handed (history r))
      (SimTree.projects_of (world s) fuel path) /\
    tallies (history r) = SimTree.sizes (world s) fuel path.
Proof.
  intros schedule ts tu patience max_workers overwrite fuel path s
    Hperm Hmw Hpat Hcl r.
  destruct (@sim_migrate_group schedule ts tu patience max_workers overwrite
              (world s) Hperm Hmw
              SimSpec.same_source same_source_refl same_source_trans
              (fun w w' H => H) (fun w w' H => proj1 H)
              (sim_worker_same_source ts tu overwrite Hpat)
              fuel path s Hcl (same_source_refl (world s)))
    as (H1 & _ & H3 & H4 & H5 & _).
  fold r in H1, H3, H4, H5.
  split; [exact H1|]. split; [exact H4|]. split; [|exact H5].
  rewrite H3. now apply plan_permutation.
Qed.

(** The sample source is closed and patient. *)
Lemma scenario_patient (w : Sim.World) :
  Sim.source_projects w = Scenario.projects ->
  Sim.import_status w = Scenario.done ->
  SimSpec.patient 5 w.
Proof.
  intros Hp Hi. split.
  - intros id sp n H. exists 1%nat. split; [lia|].
    rewrite Hp in H. unfold Scenario.projects in H.
    rewrite Nat.add_1_r.
    repeat (destruct (_ =? _) in H;
            [inversion H; subst sp; left; reflexivity|]).
    discriminate.
  - intros path n. exists 0%nat. split; [lia|].
    rewrite Hi. left. reflexivity.
Qed.

Lemma scenario_closed (w : Sim.World) :
  Sim.source_groups w = Scenario.groups ->
  SimTree.closed w 5 "team/alpha".
Proof.
  intros Hg. cbn [SimTree.closed]. rewrite Hg.
  unfold well_formed. cbn.
  repeat first [ split | constructor | discriminate ].
Qed.

Lemma every_project_is_handed_out_once_witness :
  let r := Scenario.run false Scenario.empty_target in
  outcome_of r = Normal tt /\
  visited (history r) = ["team/alpha"; "team/alpha/beta"] /\
  Permutation (handed (history r))
    [("team/alpha", Scenario.listed 1 "svc1");
     ("team/alpha", Scenario.listed 2 "svc2");
     ("team/alpha/beta", Scenario.listed 3 "svc3")] /\
  tallies (history r) = [("team/alpha/beta", 1); ("team/alpha", 2)].
Proof.
  exact (@every_project_is_handed_out_once (fun l => l) 30 30 5 5 false 5
           "team/alpha" (Scenario.start Scenario.empty_target)
           (fun l => Permutation_refl l) eq_refl
           (scenario_patient Scenario.empty_target eq_refl eq_refl)
           (scenario_closed Scenario.empty_target eq_refl)).
Defined.

(** C8, the counters. The sum of the two counters is not the number of the projects
    that were not skipped: with [team/alpha/svc1] on the target, the
    batch of [team/alpha] has one future that skipped and one that did
    not, and the closing line of the group counts two. *)
Lemma skipped_project_is_in_the_sum :
  let t := history (Scenario.run false Scenario.svc1_on_target) in
  In (Logged (GroupDone "team/alpha" 1 1)) t /\
  count (fun e => in_batch_of "team/alpha" e && skipped_future e) t = 1 /\
  count (fun e => in_batch_of "team/alpha" e && negb (skipped_future e)) t
  = 1.
Proof.
  vm_compute. split; [in_history|split; reflexivity].
Qed.

(** ** A second run *)

Section SimRerun.

Import Sim SimSpec SimGroups SimTree.






Variables (ts tu : Z) (patience : nat).










End SimRerun.



(** * Further properties of the script *)

(** ** What leaves a worker *)

Section Escapes.

Context {W : Type} {platform : Platform W}.

(** The handler of lines 272-274 lets nothing through but what is not an
    [Exception], and its own failure on the unbound variable. *)
Lemma migrate_project_raised source_gl target_gl p tg overwrite fuel
  (s : State W) e :
  outcome_of (migrate_project source_gl target_gl p tg overwrite fuel s)
  = Raised e ->
  is_Exception e = false \/
  (e = UnboundLocalError "thread_project" /\
   thread_project
     (frame (final (migrate_project source_gl target_gl p tg overwrite fuel
                      s))) = None).
Proof.
  unfold migrate_project. rewrite set_frame_bind, log_bind.
  rewrite outcome_after, final_after.
  unfold try_except.
  destruct (migrate_project_try source_gl target_gl p tg overwrite fuel _)
    as [[o s1] t1].
  destruct o as [r|r|x|]; try discriminate.
  rewrite outcome_after, final_after.
  destruct (is_Exception x) eqn:E.
  - rewrite get_frame_bind.
    destruct (thread_project (frame s1)) eqn:F.
    + rewrite log_bind. discriminate.
    + unfold raise, outcome_of, final. cbn. intros H. inversion H. auto.
  - unfold raise, outcome_of. cbn. intros H. inversion H. subst. auto.
Qed.

End Escapes.

(** X1. Whatever the platform, a worker never lets an [Exception] of the
    platform through: it ends with a result, hangs, is left by something
    that is not an [Exception], or is left by the [UnboundLocalError] of
    its own handler, and this only while [thread_project] is unbound. *)
Theorem worker_raises_nothing_but_unbound_local :
  forall {W : Type} {platform : Platform W} source_gl target_gl p tg
         overwrite fuel (s : State W),
    match outcome_of (migrate_project source_gl target_gl p tg overwrite
                        fuel s) with
    | Raised e =>
        is_Exception e = false \/
        (e = UnboundLocalError "thread_project" /\
         thread_project
           (frame (final (migrate_project source_gl target_gl p tg overwrite
                            fuel s))) = None)
    | _ => True
    end.
Proof.
  intros W platform source_gl target_gl p tg overwrite fuel s.
  pose proof (@migrate_project_raised W platform source_gl target_gl p tg
                overwrite fuel s) as H.
  destruct (outcome_of (migrate_project source_gl target_gl p tg overwrite
                          fuel s)); auto.
Qed.
(** ** What a run never sends *)

Section EmitsMore.

Context {W : Type} {platform : Platform W}.
Variable Q : Event -> Prop.

Lemma emits_diverge {R A} : emits Q (diverge (W:=W) (R:=R) (A:=A)).
Proof. intros s. constructor. Qed.

Lemma emits_get_frame {R} : emits Q (get_frame (W:=W) (R:=R)).
Proof. intros s. constructor. Qed.

Lemma emits_set_frame {R} f : emits Q (set_frame (W:=W) (R:=R) f).
Proof. intros s. constructor. Qed.

Lemma emits_thread_target_gl {R} source_gl target_gl :
  emits Q (thread_target_gl (W:=W) (R:=R) source_gl target_gl).
Proof. intros s. constructor. Qed.

Lemma emits_try_finally {R A} (c : Prog W R A) fin :
  emits Q c -> emits Q fin -> emits Q (try_finally c fin).
Proof.
  intros Hc Hf s. unfold try_finally. specialize (Hc s).
  destruct (c s) as [[o s1] t1]. unfold history in *. simpl in *.
  specialize (Hf s1). unfold history in Hf.
  destruct (fin s1) as [[o2 s2] t2]. simpl in *.
  destruct o; simpl; auto; destruct o2; simpl; apply Forall_app; auto.
Qed.

Lemma emits_for_each {R A} (xs : list A) (body : A -> Prog W R unit) :
  (forall x, emits Q (body x)) -> emits Q (for_each xs body).
Proof.
  intros H. induction xs as [|x xs IH]; cbn [for_each].
  - apply emits_ret.
  - apply emits_bind; auto.
Qed.

Lemma emits_wait_export fuel tp :
  (forall e, Q (Called (ExportRefresh e))) ->
  Q (Called (Sleep 5)) ->
  (forall l, Q (Logged l)) ->
  forall e, emits Q (wait_export (W:=W) fuel tp e).
Proof.
  intros H1 H2 H3. induction fuel as [|fuel IH]; intros e; cbn [wait_export];
    destruct (negb _); try apply emits_ret; try apply emits_diverge.
  apply emits_bind; [apply (@emits_call W platform Q _ (Sleep 5)); exact H2|].
  intros _. apply emits_bind;
    [apply (@emits_call W platform Q _ (ExportRefresh e)); apply H1|].
  intros e'. destruct (String.eqb _ _); [|apply IH].
  apply emits_bind; [apply emits_log; apply H3|intros _; apply emits_return].
Qed.

Lemma emits_wait_import project fuel :
  (forall p, Q (Called (ProjectRefresh p))) ->
  Q (Called (Sleep 5)) ->
  (forall l, Q (Logged l)) ->
  forall p, emits Q (wait_import (W:=W) project fuel p).
Proof.
  intros H1 H2 H3. induction fuel as [|fuel IH]; intros p; cbn [wait_import];
    destruct (import_pending p); try apply emits_ret; try apply emits_diverge.
  apply emits_bind; [apply (@emits_call W platform Q _ (Sleep 5)); exact H2|].
  intros _. apply emits_bind;
    [apply (@emits_call W platform Q _ (ProjectRefresh p)); apply H1|].
  intros p'. destruct (import_failed p'); [|apply IH].
  apply emits_bind; [apply emits_log; apply H3|intros _; apply emits_return].
Qed.

(** The session of the worker for the target, whatever its timeout. *)
Lemma emits_thread_target_gl_bind {R B} source_gl target_gl
  (k : Gitlab -> Prog W R B) :
  (forall t, emits Q (k (mkGitlab (url target_gl) (private_token target_gl)
                           t (ssl_verify source_gl)))) ->
  emits Q (bind (thread_target_gl source_gl target_gl) k).
Proof.
  intros H s. rewrite thread_target_gl_bind. apply H.
Qed.

End EmitsMore.

Section Within.

Context {W : Type} {platform : Platform W}.
Variable Q : ApiCall -> Prop.

Lemma within_log l : within Q (Logged l).
Proof. constructor. Qed.

Lemma within_call c : Q c -> within Q (Called c).
Proof. intros H. repeat constructor. exact H. Qed.

Lemma within_ran tg p h f : Forall (within Q) h -> within Q (Ran tg p h f).
Proof.
  unfold within. cbn [requests_of]. induction 1 as [|e h He Hh IH];
    cbn [flat_map]; [constructor|].
  apply Forall_app. auto.
Qed.

(** The requests of a history are within [Q] when its events are. *)
Lemma within_all t : Forall (within Q) t -> Forall Q (all_requests t).
Proof.
  unfold all_requests. induction 1 as [|e t He Ht IH]; cbn [flat_map];
    [constructor|].
  apply Forall_app. auto.
Qed.

Lemma emits_submit {R} tg p
  (worker : Prog W (option Project) (option Project)) :
  emits (within Q) worker -> emits (within Q) (submit (R:=R) tg p worker).
Proof.
  intros H s. unfold submit. specialize (H s).
  destruct (worker s) as [[o s1] t1]. unfold history in *. simpl in *.
  destruct o; simpl; repeat constructor; now apply within_ran.
Qed.

End Within.

(** Break a goal [emits (within Q) c] down along the shape of [c];
    [leaf] proves [Q] of a request. *)
Ltac within_step leaf :=
  lazymatch goal with
  | |- emits _ ?c =>
      lazymatch c with
      | ret _ => apply emits_ret
      | return_ _ => apply emits_return
      | raise _ => apply emits_raise
      | diverge => apply emits_diverge
      | get_frame => apply emits_get_frame
      | set_frame _ => apply emits_set_frame
      | thread_target_gl _ _ => apply emits_thread_target_gl
      | set_thread_target_timeout _ => unfold set_thread_target_timeout
      | bind_thread_project _ => unfold bind_thread_project
      | log _ => apply emits_log; apply within_log
      | call ?r =>
          apply (@emits_call _ _ _ _ r); apply within_call; leaf
      | wait_export _ _ _ =>
          apply emits_wait_export;
          [intro; apply within_call; leaf|apply within_call; leaf
          |intro; apply within_log]
      | wait_import _ _ _ =>
          apply emits_wait_import;
          [intro; apply within_call; leaf|apply within_call; leaf
          |intro; apply within_log]
      | bind (thread_target_gl _ _) _ =>
          apply emits_thread_target_gl_bind; intro
      | bind _ _ => apply emits_bind; [|intro]
      | try_except _ _ => apply emits_try_except; [|intro]
      | try_finally _ _ => apply emits_try_finally
      | invoke _ => apply emits_invoke
      | submit _ _ _ => apply emits_submit
      | for_each _ _ => apply emits_for_each; intro
      | (if ?b then _ else _) => destruct b
      | (match ?x with _ => _ end) => destruct x
      | (let _ := _ in _) => cbv zeta
      end
  end.

Section Never.

Context {W : Type} {platform : Platform W}.
Variable schedule : list Project -> list Project.
Variables (source_gl target_gl : Gitlab) (patience : nat).

Lemma worker_within_not_a_delete p tg :
  emits (within not_a_delete)
    (migrate_project (W:=W) source_gl target_gl p tg false patience).
Proof.
  unfold migrate_project, migrate_project_try, check_name, check_path,
    import_with_timeout, poll_import.
  cbv iota.
  repeat within_step ltac:(exact I).
Qed.

Lemma worker_within_writes_to p tg overwrite :
  emits (within (writes_to target_gl))
    (migrate_project (W:=W) source_gl target_gl p tg overwrite patience).
Proof.
  unfold migrate_project, migrate_project_try, check_name, check_path,
    import_with_timeout, poll_import.
  repeat within_step ltac:(first [exact I | split; reflexivity]).
Qed.

(** The coordinator and the resolver, given what the workers send. *)
Section Run.

Variable Q : ApiCall -> Prop.
Variable overwrite : bool.
Hypothesis Q_groups_get : forall gl path, Q (GroupsGet gl path).
Hypothesis Q_groups_create : forall data, Q (GroupsCreate target_gl data).
Hypothesis Q_projects_list : forall g, Q (GroupProjectsList g).
Hypothesis Q_subgroups_list : forall g, Q (GroupSubgroupsList g).
Hypothesis Q_worker : forall p tg,
  emits (within Q)
    (migrate_project (W:=W) source_gl target_gl p tg overwrite patience).

Ltac run_leaf :=
  first [ apply Q_groups_get | apply Q_groups_create
        | apply Q_projects_list | apply Q_subgroups_list ].

Lemma resolve_parts_within {R} source_group parts : forall i cp parent,
  emits (within Q)
    (resolve_parts (W:=W) (R:=R) target_gl source_group i parts cp parent).
Proof.
  induction parts as [|part rest IH]; intros i cp parent;
    cbn [resolve_parts].
  - apply emits_ret.
  - apply emits_bind; [|intro; apply IH].
    repeat within_step ltac:(run_leaf).
Qed.

Lemma collect_within {R} tg completed : forall counts,
  emits (within Q)
    (collect (W:=W) (R:=R) source_gl target_gl patience overwrite tg
       completed counts).
Proof.
  induction completed as [|p rest IH]; intros counts; cbn [collect].
  - apply emits_ret.
  - apply emits_bind; [|intro; apply IH].
    unfold collect_one. destruct counts as [sc fc].
    apply emits_bind; [apply emits_submit; apply Q_worker|].
    intros future. repeat within_step ltac:(run_leaf).
Qed.

Lemma migrate_group_within max_workers fuel : forall path,
  emits (within Q)
    (migrate_group (W:=W) schedule source_gl target_gl patience max_workers
       overwrite fuel path).
Proof.
  induction fuel as [|fuel IH]; intros path; cbn [migrate_group].
  - apply emits_diverge.
  - apply emits_bind;
      [unfold get_source_group; repeat within_step ltac:(run_leaf)|].
    intros source_group. apply emits_bind.
    { unfold create_target_group_structure. apply emits_invoke.
      apply emits_bind; [apply resolve_parts_within|].
      intro. repeat within_step ltac:(run_leaf). }
    intros target_group.
    apply emits_bind;
      [apply (@emits_call _ _ _ _ (GroupProjectsList source_group));
       apply within_call; run_leaf|].
    intros projects.
    apply emits_bind; [apply emits_log; apply within_log|]. intros _.
    apply emits_bind;
      [unfold open_pool; destruct (_ <=? _);
       [apply emits_raise|apply emits_ret]|].
    intros _.
    apply emits_bind; [apply collect_within|]. intros counts.
    apply emits_bind;
      [apply (@emits_call _ _ _ _ (GroupSubgroupsList source_group));
       apply within_call; run_leaf|].
    intros subgroups.
    apply emits_bind; [apply emits_log; apply within_log|]. intros _.
    apply emits_bind; [|intros _; apply emits_log; apply within_log].
    apply emits_for_each. intros subgroup. cbv zeta.
    apply emits_bind; [apply emits_log; apply within_log|]. intros _.
    apply IH.
Qed.

End Run.

End Never.

(** X2. Without overwrite nothing is deleted: whatever the platform and
    the order of completion, no request of a run of [migrate_group] with
    [overwrite=False], the requests of its workers included, is a
    deletion of a project. *)
Theorem without_overwrite_nothing_is_deleted :
  forall {W : Type} {platform : Platform W}
         (schedule : list Project -> list Project)
         (source_gl target_gl : Gitlab) (patience : nat) (max_workers : Z)
         (fuel : nat) (path : string) (s : State W),
    Forall not_a_delete
      (all_requests
         (history (migrate_group schedule source_gl target_gl patience
                     max_workers false fuel path s))).
Proof.
  intros W platform schedule source_gl target_gl patience max_workers fuel
    path s.
  apply within_all.
  apply (@migrate_group_within W platform schedule source_gl target_gl
           patience not_a_delete false); try (intros; exact I).
  intros p tg. apply worker_within_not_a_delete.
Qed.

(** X3. Groups are created and projects are imported on the target only:
    whatever the platform, the overwrite flag and the order of
    completion, every request of a run that creates a group or imports a
    project carries the url and the token of [target_gl]. *)
Theorem groups_and_imports_go_to_the_target :
  forall {W : Type} {platform : Platform W}
         (schedule : list Project -> list Project)
         (source_gl target_gl : Gitlab) (patience : nat) (max_workers : Z)
         (overwrite : bool) (fuel : nat) (path : string) (s : State W),
    Forall (writes_to target_gl)
      (all_requests
         (history (migrate_group schedule source_gl target_gl patience
                     max_workers overwrite fuel path s))).
Proof.
  intros W platform schedule source_gl target_gl patience max_workers
    overwrite fuel path s.
  apply within_all.
  apply (@migrate_group_within W platform schedule source_gl target_gl
           patience (writes_to target_gl) overwrite);
    try (intros; exact I).
  - intros data. split; reflexivity.
  - intros p tg. apply worker_within_writes_to.
Qed.
(** ** What the coordinator catches *)

Section Reports.

Context {W : Type} {platform : Platform W}.
Variable schedule : list Project -> list Project.
Variables (source_gl target_gl : Gitlab) (patience : nat) (overwrite : bool).

Lemma collect_one_reports {R} tg p counts :
  emits reports_unbound_local
    (collect_one (W:=W) (R:=R) source_gl target_gl patience overwrite tg p
       counts).
Proof.
  intros s. destruct counts as [sc fc]. rewrite collect_one_unfold.
  unfold collected.
  pose proof (@migrate_project_raised W platform source_gl target_gl p tg
                overwrite patience s) as H.
  destruct (outcome_of (migrate_project source_gl target_gl p tg overwrite
                          patience s)) as [r|r|e|];
    try (repeat constructor).
  destruct (is_Exception e) eqn:E; repeat constructor.
  destruct (H e eq_refl) as [F|[-> _]]; [congruence|reflexivity].
Qed.

Lemma collect_reports {R} tg completed : forall counts,
  emits reports_unbound_local
    (collect (W:=W) (R:=R) source_gl target_gl patience overwrite tg
       completed counts).
Proof.
  induction completed as [|p rest IH]; intros counts; cbn [collect].
  - apply emits_ret.
  - apply emits_bind; [apply collect_one_reports|intro; apply IH].
Qed.

Lemma resolve_parts_reports {R} source_group parts : forall i cp parent,
  emits reports_unbound_local
    (resolve_parts (W:=W) (R:=R) target_gl source_group i parts cp parent).
Proof.
  induction parts as [|part rest IH]; intros i cp parent;
    cbn [resolve_parts].
  - apply emits_ret.
  - apply emits_bind; [|intro; apply IH].
    repeat emits_step.
Qed.

Lemma migrate_group_reports max_workers fuel : forall path,
  emits reports_unbound_local
    (migrate_group (W:=W) schedule source_gl target_gl patience max_workers
       overwrite fuel path).
Proof.
  induction fuel as [|fuel IH]; intros path; cbn [migrate_group].
  - apply emits_diverge.
  - apply emits_bind; [unfold get_source_group; repeat emits_step|].
    intros source_group. apply emits_bind.
    { unfold create_target_group_structure. apply emits_invoke.
      apply emits_bind; [apply resolve_parts_reports|].
      intro. repeat emits_step. }
    intros target_group.
    apply emits_bind; [emits_step|]. intros projects.
    apply emits_bind; [emits_step|]. intros _.
    apply emits_bind; [unfold open_pool; repeat emits_step|]. intros _.
    apply emits_bind; [apply collect_reports|]. intros counts.
    apply emits_bind; [emits_step|]. intros subgroups.
    apply emits_bind; [emits_step|]. intros _.
    apply emits_bind; [|intros _; emits_step].
    apply emits_for_each. intros subgroup. cbv zeta.
    apply emits_bind; [emits_step|]. intros _. apply IH.
Qed.

End Reports.

(** X4. The handler of lines 306-309 only ever sees the failure of the
    worker's own handler: whatever the platform, every line that reports
    an exception of a future carries the message of the
    [UnboundLocalError] for [thread_project], never an error of the
    platform. *)
Theorem future_exceptions_are_unbound_locals :
  forall {W : Type} {platform : Platform W}
         (schedule : list Project -> list Project)
         (source_gl target_gl : Gitlab) (patience : nat) (max_workers : Z)
         (overwrite : bool) (fuel : nat) (path : string) (s : State W),
    Forall reports_unbound_local
      (history (migrate_group schedule source_gl target_gl patience
                  max_workers overwrite fuel path s)).
Proof.
  intros. apply migrate_group_reports.
Qed.

(** ** What is downloaded *)

Section Downloads.

Context {W : Type} {platform : Platform W}.

(** When the export loop falls through, the handle shows [finished]. *)
Lemma wait_export_result fuel tp : forall e (s : State W),
  match outcome_of (wait_export fuel tp e s) with
  | Normal e' => export_status e' = "finished"
  | Returned r => r = None
  | _ => True
  end.
Proof.
  induction fuel as [|fuel IH]; intros e s;
    (destruct (String.eqb (export_status e) "finished") eqn:E;
     [apply String.eqb_eq in E; rewrite wait_export_finished by exact E;
      exact E|]).
  - cbn [wait_export]. rewrite E. exact I.
  - rewrite wait_export_round by exact E.
    destruct (perform (Sleep 5) (world s)) as [[x|[]] w1]; [exact I|].
    destruct (perform (ExportRefresh e) w1) as [[x|e'] w2]; [exact I|].
    destruct (String.eqb (export_status e') "failed"); [reflexivity|].
    rewrite outcome_after. apply IH.
Qed.

Lemma wait_export_normal fuel tp e (s : State W) :
  match outcome_of (wait_export fuel tp e s) with
  | Normal e' => export_status e' = "finished"
  | _ => True
  end.
Proof.
  pose proof (wait_export_result fuel tp e s) as H.
  destruct (outcome_of (wait_export fuel tp e s)); auto.
Qed.

Lemma emits_bind_when {R A B} (Q : Event -> Prop) (P : A -> Prop)
  (c : Prog W R A) (k : A -> Prog W R B) :
  (forall s, match outcome_of (c s) with Normal a => P a | _ => True end) ->
  emits Q c -> (forall a, P a -> emits Q (k a)) -> emits Q (bind c k).
Proof.
  intros HP Hc Hk s. unfold bind. specialize (Hc s). specialize (HP s).
  destruct (c s) as [[o s1] t1]. unfold history, outcome_of in *.
  simpl in *. destruct o; simpl; auto.
  specialize (Hk a HP s1). unfold history in Hk.
  destruct (k a s1) as [[o2 s2] t2]. simpl in *.
  apply Forall_app. auto.
Qed.

Lemma worker_within_finished_exports source_gl target_gl p tg overwrite
  patience :
  emits (within of_a_finished_export)
    (migrate_project (W:=W) source_gl target_gl p tg overwrite patience).
Proof.
  unfold migrate_project, migrate_project_try, check_name, check_path,
    import_with_timeout, poll_import.
  repeat first
    [ lazymatch goal with
      | |- emits ?Q (bind (wait_export ?f ?tp ?e) ?k) =>
          apply (@emits_bind_when _ _ _ Q
                   (fun e' => export_status e' = "finished")
                   (wait_export f tp e) k (wait_export_normal f tp e));
          [|intros ? ?]
      end
    | within_step ltac:(first [exact I | assumption]) ].
Qed.

End Downloads.

(** X5. Only finished exports are downloaded: whatever the platform, the
    overwrite flag and the order of completion, every download request
    of a run is for an export handle whose status is [finished]. *)
Theorem only_finished_exports_are_downloaded :
  forall {W : Type} {platform : Platform W}
         (schedule : list Project -> list Project)
         (source_gl target_gl : Gitlab) (patience : nat) (max_workers : Z)
         (overwrite : bool) (fuel : nat) (path : string) (s : State W),
    Forall of_a_finished_export
      (all_requests
         (history (migrate_group schedule source_gl target_gl patience
                     max_workers overwrite fuel path s))).
Proof.
  intros W platform schedule source_gl target_gl patience max_workers
    overwrite fuel path s.
  apply within_all.
  apply (@migrate_group_within W platform schedule source_gl target_gl
           patience of_a_finished_export overwrite);
    try (intros; exact I).
  intros p tg. apply worker_within_finished_exports.
Qed.

(** ** The path of the target group *)


Section Paths.

Lemma accumulate_appended path_parts : forall current_path,
  truthy_string current_path = true ->
  accumulate current_path path_parts
  = (current_path ++ appended path_parts)%string.
Proof.
  induction path_parts as [|part rest IH]; intros cp H; cbn [accumulate].
  - cbn [appended]. revert H. clear. induction cp as [|c cp IH]; intros H.
    + discriminate.
    + cbn. f_equal. destruct cp; [reflexivity|]. now apply IH.
  - rewrite H. rewrite IH by apply truthy_append.
    cbn [appended]. now rewrite !append_assoc.
Qed.

Lemma split_appended s :
  exists part rest,
    split s = part :: rest /\ s = (part ++ appended rest)%string.
Proof.
  induction s as [|c s (part & rest & E & Hs)].
  - exists "", []. auto.
  - cbn [split]. destruct (Ascii.eqb c "/") eqn:C.
    + apply Ascii.eqb_eq in C. subst c. rewrite E.
      exists "", (part :: rest). split; [reflexivity|].
      cbn [appended]. cbn. now rewrite <- Hs.
    + rewrite E. exists (String c part), rest. split; [reflexivity|].
      cbn. now rewrite <- Hs.
Qed.

(** The path that the resolver accumulates is the group path itself,
    when the path does not start with a slash. *)
Lemma target_path_of_same group_path :
  hd "" (split group_path) <> "" -> target_path_of group_path = group_path.
Proof.
  intros H. unfold target_path_of.
  destruct (split_appended group_path) as (part & rest & E & Hs).
  rewrite E in *. cbn [hd] in H. cbn [accumulate]. cbn [truthy_string].
  rewrite accumulate_appended by (now apply truthy_nonempty).
  now rewrite <- Hs.
Qed.

End Paths.

(** ** The groups of the target after a run *)

Section SimMirror.

Import Sim SimSpec SimGroups SimTree.

Lemma well_formed_head path : well_formed path -> hd "" (split path) <> "".
Proof.
  unfold well_formed. destruct (split path) as [|part rest] eqn:E.
  - now apply split_not_nil in E.
  - intros H. inversion H; subst. exact H2.
Qed.

Lemma has_group_same_source (w w' : World) path :
  same_source w w' -> has_group w path -> has_group w' path.
Proof.
  intros H (g & Hpl & Hp). exists g. split; [|exact Hp].
  eapply placed_same_source; eauto.
Qed.

(** The resolver on a path without empty segments. *)
Lemma sim_resolver_mirrors {R} tu path sg (s : State World) :
  well_formed path ->
  exists g s' t,
    create_target_group_structure (R:=R) (target_session tu) path sg s
    = (Normal g, s', t) /\
    g_full_path g = path /\
    placed (world s') g /\
    grows (world s) (world s').
Proof.
  intros Hwf.
  destruct (@sim_create_target_group_structure tu R path sg s Hwf)
    as (g & s' & t & E & G & Pl & Fp & _).
  exists g, s', t. split; [exact E|].
  split; [|split; [exact Pl|exact G]].
  rewrite Fp. apply target_path_of_same. now apply well_formed_head.
Qed.

Variable schedule : list Project -> list Project.
Variables (ts tu : Z) (patience : nat) (max_workers : Z) (overwrite : bool).
Variable w0 : World.
Hypothesis w0_patient : patient patience w0.
Hypothesis max_workers_positive : 0 < max_workers.

Lemma sim_subgroups_mirror fuel path :
  (forall path (s : State World),
     closed w0 fuel path -> same_source w0 (world s) ->
     exists s' t,
       migrate_group schedule (source_session ts) (target_session tu)
         patience max_workers overwrite fuel path s = (Normal tt, s', t) /\
       same_source (world s) (world s') /\
       Forall (has_group (world s')) (groups_of w0 fuel path)) ->
  forall subgroups (s : State World),
    Forall (fun sub => closed w0 fuel (child_path path sub)) subgroups ->
    same_source w0 (world s) ->
    exists s' t,
      for_each subgroups
        (fun subgroup =>
           log (StartSubgroup (path ++ "/" ++ g_path subgroup)) ;;
           migrate_group schedule (source_session ts) (target_session tu)
             patience max_workers overwrite fuel
             (path ++ "/" ++ g_path subgroup)) s
      = (Normal tt, s', t) /\
      same_source (world s) (world s') /\
      Forall (has_group (world s'))
        (flat_map (fun sub => groups_of w0 fuel (child_path path sub))
           subgroups).
Proof.
  intros IHfuel. induction subgroups as [|sub rest IH]; intros s Hcl Hs.
  - exists s, []. cbn [for_each flat_map]. split; [reflexivity|].
    split; [apply same_source_refl|constructor].
  - inversion Hcl as [|? ? Hsub Hrest]; subst.
    destruct (IHfuel (child_path path sub) s Hsub Hs)
      as (s1 & t1 & E1 & G1 & M1).
    destruct (IH s1 Hrest (same_source_trans Hs G1))
      as (s2 & t2 & E2 & G2 & M2).
    unfold child_path in E1.
    exists s2. eexists. cbn [for_each flat_map].
    rewrite bind_assoc, log_bind. erewrite bind_normal by exact E1.
    rewrite E2. split; [reflexivity|].
    split; [eapply same_source_trans; eauto|].
    apply Forall_app. split; [|exact M2].
    eapply Forall_impl; [|exact M1].
    intros p. now apply has_group_same_source.
Qed.

Lemma sim_migrate_group_mirrors fuel : forall path (s : State World),
  closed w0 fuel path -> same_source w0 (world s) ->
  exists s' t,
    migrate_group schedule (source_session ts) (target_session tu)
      patience max_workers overwrite fuel path s = (Normal tt, s', t) /\
    same_source (world s) (world s') /\
    Forall (has_group (world s')) (groups_of w0 fuel path).
Proof.
  induction fuel as [|fuel IHfuel]; intros path s Hcl Hs; [contradiction|].
  destruct Hcl as [Hwf Hn].
  cbn [migrate_group groups_of].
  destruct (source_groups w0 path) as [n|] eqn:En; [|contradiction].
  assert (Hsrc : forall s' : State World,
            same_source w0 (world s') -> source_groups (world s') path = Some n).
  { intros s' (A & _). now rewrite A. }
  erewrite bind_normal
    by exact (@sim_get_source_group ts unit path n s (Hsrc s Hs)).
  set (g := mkGroup (sn_id n) (sn_name n) (sn_path n) path (sn_visibility n)).
  destruct (@sim_resolver_mirrors unit tu path g s Hwf)
    as (tg & s1 & t1 & E1 & Fp1 & Pl1 & G1).
  erewrite bind_normal by exact E1.
  assert (Hs1 : same_source w0 (world s1)).
  { eapply same_source_trans; [exact Hs|exact (proj1 G1)]. }
  rewrite (call_bind (GroupProjectsList g)).
  rewrite (@sim_group_projects_list g n (world s1) (Hsrc s1 Hs1)).
  rewrite log_bind.
  rewrite open_pool_bind by exact max_workers_positive.
  set (s2 := mkState (world s1) (frame s1)).
  destruct (@sim_collect ts tu patience overwrite w0 same_source
              same_source_refl same_source_trans (fun w w' H => H)
              (@sim_worker_same_source ts tu patience overwrite w0
                 w0_patient)
              tg (schedule (sn_projects n)) 0 0 s2 Hs1 Pl1)
    as (sc & fc & s3 & t3 & E3 & L3 & _).
  erewrite bind_normal by exact E3.
  assert (Hs3 : same_source w0 (world s3)).
  { eapply same_source_trans; [exact Hs1|exact L3]. }
  rewrite (call_bind (GroupSubgroupsList g)).
  rewrite (@sim_group_subgroups_list g n (world s3) (Hsrc s3 Hs3)).
  rewrite log_bind.
  set (s4 := mkState (world s3) (frame s3)).
  destruct (@sim_subgroups_mirror fuel path IHfuel (sn_subgroups n) s4 Hn Hs3)
    as (s5 & t5 & E5 & G5 & M5).
  erewrite bind_normal by exact E5.
  exists s5. eexists. split; [reflexivity|].
  assert (G15 : same_source (world s1) (world s5)).
  { eapply same_source_trans; [exact L3|exact G5]. }
  split; [eapply same_source_trans; [exact (proj1 G1)|exact G15]|].
  constructor; [|exact M5].
  exists tg. split; [|exact Fp1].
  eapply placed_same_source; [exact G15|exact Pl1].
Qed.

End SimMirror.

(** X6. The target group has the path of the source group: on the
    simulated target, for a group path without empty segments, the
    resolver comes to its end and returns a group that the target then
    has, whose full path is the group path itself; the target has lost
    nothing. *)
Theorem resolver_mirrors_the_path :
  forall (tu : Z) (group_path : string) (source_group : Group)
         (s : State Sim.World),
    well_formed group_path ->
    exists g s' t,
      create_target_group_structure (R:=unit) (Sim.target_session tu)
        group_path source_group s = (Normal g, s', t) /\
      g_full_path g = group_path /\
      SimGroups.placed (world s') g /\
      SimSpec.grows (world s) (world s').
Proof.
  intros tu group_path source_group s H.
  now apply sim_resolver_mirrors.
Qed.

Lemma resolver_mirrors_the_path_witness :
  exists g s' t,
    create_target_group_structure (R:=unit) (Sim.target_session 30)
      "team/alpha" (mkGroup 10 "alpha" "alpha" "team/alpha" "private")
      (Scenario.start Scenario.empty_target) = (Normal g, s', t) /\
    g_full_path g = "team/alpha" /\
    SimGroups.placed (world s') g /\
    SimSpec.grows (world (Scenario.start Scenario.empty_target)) (world s').
Proof.
  apply (@resolver_mirrors_the_path 30 "team/alpha"
           (mkGroup 10 "alpha" "alpha" "team/alpha" "private")
           (Scenario.start Scenario.empty_target)).
  unfold well_formed. cbn. repeat constructor; discriminate.
Defined.

(** X7. The tree of groups is mirrored: on the simulated platform, with
    a positive [max_workers], after a run over a source tree that it gets
    through, the target has a group under the full path of every group of
    the source tree, whatever the overwrite flag, the order of completion
    and the fate of the projects. *)
Theorem run_mirrors_the_groups :
  forall (schedule : list Project -> list Project) (ts tu : Z)
         (patience : nat) (max_workers : Z) (overwrite : bool) (fuel : nat)
         (path : string) (s : State Sim.World),
    0 < max_workers ->
    SimSpec.patient patience (world s) ->
    SimTree.closed (world s) fuel path ->
    let r := migrate_group schedule (Sim.source_session ts)
               (Sim.target_session tu) patience max_workers overwrite fuel
               path s in
    outcome_of r = Normal tt /\
    Forall (has_group (world (final r)))
      (SimTree.groups_of (world s) fuel path).
Proof.
  intros schedule ts tu patience max_workers overwrite fuel path s
    Hmw Hpat Hcl r.
  destruct (@sim_migrate_group_mirrors schedule ts tu patience max_workers
              overwrite (world s) Hpat Hmw fuel path s Hcl
              (same_source_refl _))
    as (s' & t & E & _ & M).
  unfold r. rewrite E. split; [reflexivity|exact M].
Qed.

Lemma run_mirrors_the_groups_witness :
  let r := Scenario.run true Scenario.svc1_on_target in
  outcome_of r = Normal tt /\
  Forall (has_group (world (final r))) ["team/alpha"; "team/alpha/beta"].
Proof.
  exact (@run_mirrors_the_groups (fun l => l) 30 30 5 5 true 5 "team/alpha"
           (Scenario.start Scenario.svc1_on_target) eq_refl
           (scenario_patient Scenario.svc1_on_target eq_refl eq_refl)
           (scenario_closed Scenario.svc1_on_target eq_refl)).
Defined.

(** ** What a run raises *)

Section Raises.

Context {W : Type} {platform : Platform W}.
Variable P : exn -> Prop.

Lemma raises_ret {R A} (a : A) : raises P (ret (W:=W) (R:=R) a).
Proof. intros s e H. discriminate. Qed.

Lemma raises_return {R A} (r : R) : raises P (return_ (W:=W) (A:=A) r).
Proof. intros s e H. discriminate. Qed.

Lemma raises_diverge {R A} : raises P (diverge (W:=W) (R:=R) (A:=A)).
Proof. intros s e H. discriminate. Qed.

Lemma raises_log {R} l : raises P (log (W:=W) (R:=R) l).
Proof. intros s e H. discriminate. Qed.

Lemma raises_get_frame {R} : raises P (get_frame (W:=W) (R:=R)).
Proof. intros s e H. discriminate. Qed.

Lemma raises_set_frame {R} f : raises P (set_frame (W:=W) (R:=R) f).
Proof. intros s e H. discriminate. Qed.

Lemma raises_thread_target_gl {R} source_gl target_gl :
  raises P (thread_target_gl (W:=W) (R:=R) source_gl target_gl).
Proof. intros s e H. discriminate. Qed.

Lemma raises_raise {R A} e : P e -> raises P (raise (W:=W) (R:=R) (A:=A) e).
Proof. intros H s e' E. inversion E. subst. exact H. Qed.

Lemma raises_call {R} c :
  (forall w e, fst (perform c w) = inl e -> P e) ->
  raises P (call (R:=R) c).
Proof.
  intros H s e. unfold call, outcome_of. specialize (H (world s)).
  destruct (perform c (world s)) as [[x|v] w']; cbn in *; intros E;
    inversion E; subst. now apply H.
Qed.

Lemma raises_bind {R A B} (c : Prog W R A) (k : A -> Prog W R B) :
  raises P c -> (forall a, raises P (k a)) -> raises P (bind c k).
Proof.
  intros Hc Hk s e. unfold bind. specialize (Hc s).
  destruct (c s) as [[o s1] t1]. unfold outcome_of in *. cbn in *.
  destruct o; cbn; try discriminate;
    [|intros E; inversion E; subst; now apply Hc].
  specialize (Hk a s1). unfold outcome_of in Hk.
  destruct (k a s1) as [[o2 s2] t2]. cbn in *. apply Hk.
Qed.

Lemma raises_try_except {R A} (c : Prog W R A) h :
  raises P c -> (forall e, P e -> raises P (h e)) ->
  raises P (try_except c h).
Proof.
  intros Hc Hh s e. unfold try_except. specialize (Hc s).
  destruct (c s) as [[o s1] t1]. unfold outcome_of in *. cbn in *.
  destruct o; cbn; try discriminate.
  specialize (Hh e0 (Hc e0 eq_refl) s1). unfold outcome_of in Hh.
  destruct (h e0 s1) as [[o2 s2] t2]. cbn in *. apply Hh.
Qed.

Lemma raises_try_finally {R A} (c : Prog W R A) fin :
  raises P c -> raises P fin -> raises P (try_finally c fin).
Proof.
  intros Hc Hf s e. unfold try_finally. specialize (Hc s).
  destruct (c s) as [[o s1] t1]. unfold outcome_of in *. cbn in *.
  specialize (Hf s1). unfold outcome_of in Hf.
  destruct (fin s1) as [[o2 s2] t2]. cbn in *.
  destruct o; cbn; try discriminate; destruct o2; cbn; try discriminate;
    intros E; inversion E; subst; auto.
Qed.

Lemma raises_invoke {R R'} (c : Prog W R R) :
  raises P c -> raises P (invoke (R':=R') c).
Proof.
  intros Hc s e. unfold invoke. specialize (Hc s).
  destruct (c s) as [[o s1] t1]. unfold outcome_of in *. cbn in *.
  destruct o; cbn; try discriminate.
  intros E; inversion E; subst; now apply Hc.
Qed.

Lemma raises_for_each {R A} (xs : list A) (body : A -> Prog W R unit) :
  (forall x, raises P (body x)) -> raises P (for_each xs body).
Proof.
  intros H. induction xs as [|x xs IH]; cbn [for_each].
  - apply raises_ret.
  - apply raises_bind; auto.
Qed.

(** A future holds what its worker has raised. *)
Lemma raises_submit_bind {R B} tg p
  (worker : Prog W (option Project) (option Project))
  (k : FutureResult -> Prog W R B) :
  raises P worker ->
  (forall future,
     (forall e, future = Exception e -> P e) -> raises P (k future)) ->
  raises P (bind (submit tg p worker) k).
Proof.
  intros Hw Hk s e. unfold bind, submit. specialize (Hw s).
  destruct (worker s) as [[o s1] t1]. unfold outcome_of in *. cbn in *.
  destruct o as [r|r|x|]; cbn; try discriminate.
  - specialize (Hk (Value r) ltac:(discriminate) s1).
    unfold outcome_of in Hk.
    destruct (k (Value r) s1) as [[o2 s2] t2]. cbn in *. apply Hk.
  - specialize (Hk (Value r) ltac:(discriminate) s1).
    unfold outcome_of in Hk.
    destruct (k (Value r) s1) as [[o2 s2] t2]. cbn in *. apply Hk.
  - assert (Hx : forall e', Exception x = Exception e' -> P e').
    { intros e' E. inversion E. subst. now apply Hw. }
    specialize (Hk (Exception x) Hx s1). unfold outcome_of in Hk.
    destruct (k (Exception x) s1) as [[o2 s2] t2]. cbn in *. apply Hk.
Qed.

End Raises.

(** Break a goal [raises P c] down along the shape of [c]; [leaf] proves
    [P] of what is raised. *)
Ltac raises_step call_leaf raise_leaf :=
  lazymatch goal with
  | |- raises _ ?c =>
      lazymatch c with
      | ret _ => apply raises_ret
      | return_ _ => apply raises_return
      | raise _ => apply raises_raise; raise_leaf
      | diverge => apply raises_diverge
      | get_frame => apply raises_get_frame
      | set_frame _ => apply raises_set_frame
      | thread_target_gl _ _ => apply raises_thread_target_gl
      | set_thread_target_timeout _ => unfold set_thread_target_timeout
      | bind_thread_project _ => unfold bind_thread_project
      | log _ => apply raises_log
      | call ?r => apply (@raises_call _ _ _ _ r); call_leaf
      | bind _ _ => apply raises_bind; [|intro]
      | try_except _ _ => apply raises_try_except; [|intros ? ?]
      | try_finally _ _ => apply raises_try_finally
      | invoke _ => apply raises_invoke
      | for_each _ _ => apply raises_for_each; intro
      | (if ?b then _ else _) => destruct b
      | (match ?x with _ => _ end) => destruct x
      | (let _ := _ in _) => cbv zeta
      end
  end.

Section RunRaises.

Context {W : Type} {platform : Platform W}.

(** The platform raises [Exception]s only. *)
Hypothesis platform_exceptions : forall c (w : W) e,
  fst (perform c w) = inl e -> is_Exception e = true.

Variable schedule : list Project -> list Project.
Variables (source_gl target_gl : Gitlab) (patience : nat) (overwrite : bool).

Ltac call_leaf :=
  intros ? ? ?; left; eapply platform_exceptions; eassumption.

Ltac raise_leaf :=
  first [ assumption | left; reflexivity | right; reflexivity
        | match goal with H : forall e, _ = Exception e -> _ |- _ =>
            apply H; reflexivity
          end ].

Lemma wait_export_raises fuel tp : forall e,
  raises exits_with_one (wait_export (W:=W) fuel tp e).
Proof.
  induction fuel as [|fuel IH]; intros e; cbn [wait_export];
    destruct (negb _); try apply raises_ret; try apply raises_diverge.
  repeat first [ apply IH | raises_step ltac:(call_leaf) ltac:(raise_leaf) ].
Qed.

Lemma wait_import_raises project fuel : forall p,
  raises exits_with_one (wait_import (W:=W) project fuel p).
Proof.
  induction fuel as [|fuel IH]; intros p; cbn [wait_import];
    destruct (import_pending p); try apply raises_ret;
    try apply raises_diverge.
  repeat first [ apply IH | raises_step ltac:(call_leaf) ltac:(raise_leaf) ].
Qed.

Lemma migrate_project_raises p tg :
  raises exits_with_one
    (migrate_project (W:=W) source_gl target_gl p tg overwrite patience).
Proof.
  unfold migrate_project, migrate_project_try, check_name, check_path,
    import_with_timeout, poll_import.
  repeat first
    [ apply wait_export_raises | apply wait_import_raises
    | raises_step ltac:(call_leaf) ltac:(raise_leaf) ].
Qed.

Lemma resolve_parts_raises {R} source_group parts : forall i cp parent,
  raises exits_with_one
    (resolve_parts (W:=W) (R:=R) target_gl source_group i parts cp parent).
Proof.
  induction parts as [|part rest IH]; intros i cp parent;
    cbn [resolve_parts].
  - apply raises_ret.
  - apply raises_bind; [|intro; apply IH].
    repeat raises_step ltac:(call_leaf) ltac:(raise_leaf).
Qed.

Lemma collect_raises {R} tg completed : forall counts,
  raises exits_with_one
    (collect (W:=W) (R:=R) source_gl target_gl patience overwrite tg
       completed counts).
Proof.
  induction completed as [|p rest IH]; intros counts; cbn [collect].
  - apply raises_ret.
  - apply raises_bind; [|intro; apply IH].
    unfold collect_one. destruct counts as [sc fc].
    apply raises_submit_bind; [apply migrate_project_raises|].
    intros future Hf.
    repeat raises_step ltac:(call_leaf) ltac:(raise_leaf).
Qed.

Lemma migrate_group_raises max_workers fuel : forall path,
  raises exits_with_one
    (migrate_group (W:=W) schedule source_gl target_gl patience max_workers
       overwrite fuel path).
Proof.
  induction fuel as [|fuel IH]; intros path; cbn [migrate_group].
  - apply raises_diverge.
  - apply raises_bind;
      [unfold get_source_group;
       repeat raises_step ltac:(call_leaf) ltac:(raise_leaf)|].
    intros source_group. apply raises_bind.
    { unfold create_target_group_structure. apply raises_invoke.
      apply raises_bind; [apply resolve_parts_raises|].
      intro. repeat raises_step ltac:(call_leaf) ltac:(raise_leaf). }
    intros target_group.
    apply raises_bind; [raises_step ltac:(call_leaf) ltac:(raise_leaf)|].
    intros projects. apply raises_bind; [apply raises_log|]. intros _.
    apply raises_bind;
      [unfold open_pool;
       repeat raises_step ltac:(call_leaf) ltac:(raise_leaf)|].
    intros _.
    apply raises_bind; [apply collect_raises|]. intros counts.
    apply raises_bind; [raises_step ltac:(call_leaf) ltac:(raise_leaf)|].
    intros subgroups. apply raises_bind; [apply raises_log|]. intros _.
    apply raises_bind; [|intros _; apply raises_log].
    apply raises_for_each. intros subgroup. cbv zeta.
    apply raises_bind; [apply raises_log|]. intros _. apply IH.
Qed.

End RunRaises.
(** ** The entry point *)

Lemma sim_auth_exceptions (gl : Gitlab) (w : Sim.World) (e : exn) :
  fst (auth gl w) = AuthRaised e -> is_Exception e = true.
Proof.
  unfold auth, sim_authenticator.
  repeat match goal with
         | |- context [if ?x then _ else _] => destruct x
         end; cbn; intros H; inversion H; reflexivity.
Qed.

Lemma unfinished_app (t1 t2 : list MainEvent) :
  unfinished t1 -> unfinished t2 -> unfinished (t1 ++ t2).
Proof. intros H1 H2. apply Forall_app. now split. Qed.

Lemma unfinished_script (t : list Event) : unfinished (map Script t).
Proof.
  apply Forall_forall. intros e H. apply in_map_iff in H.
  destruct H as (x & <- & _). cbn. tauto.
Qed.

Section MainExit.

Context {W : Type} {platform : Platform W} {authenticator : Authenticator W}.

Hypothesis platform_exceptions : forall c (w : W) e,
  fst (perform c w) = inl e -> is_Exception e = true.
Hypothesis auth_exceptions : forall gl (w : W) e,
  fst (auth gl w) = AuthRaised e -> is_Exception e = true.

(** A connection is made, or the process is on its way out with 1. *)
Lemma connect_to_gitlab_result url_ token timeout_ verify (w : W) :
  let '(r, _, t) := connect_to_gitlab url_ token timeout_ verify w in
  unfinished t /\
  match r with
  | inl e => e = SystemExit 1
  | inr gl => gl = mkGitlab url_ token timeout_ verify
  end.
Proof.
  unfold connect_to_gitlab.
  pose proof (auth_exceptions (mkGitlab url_ token timeout_ verify) w) as H.
  destruct (auth (mkGitlab url_ token timeout_ verify) w) as [[| |e] w'];
    cbn in H.
  - split; [|reflexivity]. repeat constructor; cbn; tauto.
  - split; [|reflexivity]. repeat constructor; cbn; tauto.
  - rewrite (H e eq_refl). split; [|reflexivity].
    repeat constructor; cbn; tauto.
Qed.

Lemma main_handler_one (e : exn) (w : W) (t : list MainEvent) :
  exits_with_one e -> unfinished t ->
  let '(exit, _, t') := main_handler e w t in
  exit = Exited 1 /\ unfinished t'.
Proof.
  intros [H|H] Ht; unfold main_handler.
  - rewrite H. split; [reflexivity|]. apply unfinished_app; [exact Ht|].
    repeat constructor; cbn; tauto.
  - subst e. cbn. now split.
Qed.

Lemma main_exit schedule patience fuel clock (args : Args) (w : W) :
  let '(exit, _, t) := main schedule patience fuel clock (inr args) w in
  match exit with
  | Exited code =>
      (code = 0 /\
       exists t' d, t = t' ++ [Said (MigrationCompleted d)] /\ unfinished t')
      \/ (code = 1 /\ unfinished t)
  | Hung => unfinished t
  end.
Proof.
  assert (Hstart : unfinished [Said MigrationStarted]).
  { repeat constructor; cbn; tauto. }
  assert (Hone : forall e (w : W) t, exits_with_one e -> unfinished t ->
            let '(exit, _, t) := main_handler e w t in
            match exit with
            | Exited code =>
                (code = 0 /\
                 exists t' d,
                   t = t' ++ [Said (MigrationCompleted d)] /\ unfinished t')
                \/ (code = 1 /\ unfinished t)
            | Hung => unfinished t
            end).
  { intros e w' t He Ht. pose proof (@main_handler_one e w' t He Ht) as H.
    destruct (main_handler e w' t) as [[exit w''] t'].
    destruct H as [-> H]. right. now split. }
  unfold main.
  pose proof (connect_to_gitlab_result (source_url args) (source_token args)
                (timeout_arg args) (verify_ssl_arg args) w) as H1.
  destruct (connect_to_gitlab (source_url args) (source_token args)
              (timeout_arg args) (verify_ssl_arg args) w)
    as [[[e|source_gl] w1] t1]; destruct H1 as [U1 H1].
  { subst e. apply Hone; [now right|]. now apply unfinished_app. }
  pose proof (connect_to_gitlab_result (target_url args) (target_token args)
                (timeout_arg args) (verify_ssl_arg args) w1) as H2.
  destruct (connect_to_gitlab (target_url args) (target_token args)
              (timeout_arg args) (verify_ssl_arg args) w1)
    as [[[e|target_gl] w2] t2]; destruct H2 as [U2 H2].
  { subst e. apply Hone; [now right|].
    repeat apply unfinished_app; assumption. }
  pose proof (@migrate_group_raises W platform platform_exceptions schedule
                source_gl target_gl patience (overwrite_arg args)
                (max_workers args) fuel (source_group args)
                (mkState w2 (mkFrame (timeout_arg args) None))) as Hr.
  unfold outcome_of in Hr.
  destruct (migrate_group schedule source_gl target_gl patience
              (max_workers args) (overwrite_arg args) fuel (source_group args)
              (mkState w2 (mkFrame (timeout_arg args) None)))
    as [[o s3] t3]. cbn in Hr.
  assert (U : unfinished
                ([Said MigrationStarted] ++ t1 ++ t2 ++ map Script t3)).
  { repeat apply unfinished_app; try assumption. apply unfinished_script. }
  destruct o as [a|r|e|].
  - left. split; [reflexivity|]. eexists. eexists. split; [reflexivity|].
    exact U.
  - left. split; [reflexivity|]. eexists. eexists. split; [reflexivity|].
    exact U.
  - apply Hone; [now apply Hr|exact U].
  - exact U.
Qed.

End MainExit.

(** X8. The exit status tells whether the run went through. On a
    platform and with an authentication that raise nothing but
    [Exception]s, and with a command line that parses, [main] ends in one
    of three ways: with exit status 0, and then the completion line is the
    last thing it logged and is logged only once; with exit status 1,
    and then the completion line was not logged; or never, and then the
    completion line was not logged either. *)
Theorem exit_status_tells_completion :
  forall (W : Type) (platform : Platform W)
         (authenticator : Authenticator W)
         (schedule : list Project -> list Project) (patience fuel : nat)
         (clock : W -> Z) (args : Args) (w : W),
    (forall c (w : W) e,
        fst (perform c w) = inl e -> is_Exception e = true) ->
    (forall gl (w : W) e,
        fst (auth gl w) = AuthRaised e -> is_Exception e = true) ->
    let '(exit, _, t) := main schedule patience fuel clock (inr args) w in
    match exit with
    | Exited code =>
        (code = 0 /\
         exists t' d,
           t = t' ++ [Said (MigrationCompleted d)] /\ unfinished t')
        \/ (code = 1 /\ unfinished t)
    | Hung => unfinished t
    end.
Proof.
  intros W platform authenticator schedule patience fuel clock args w Hp Ha.
  exact (@main_exit W platform authenticator Hp Ha schedule patience fuel
           clock args w).
Qed.

Lemma exit_status_tells_completion_witness :
  let '(exit, _, t) :=
    main (fun l => l) 5 5 (fun _ => 0) 
      (inr (sim_args "source-token" "wrong-token" "team/alpha" 30 5 false))
      Scenario.empty_target in
  match exit with
  | Exited code =>
      (code = 0 /\
       exists t' d,
         t = t' ++ [Said (MigrationCompleted d)] /\ unfinished t')
      \/ (code = 1 /\ unfinished t)
  | Hung => unfinished t
  end.
Proof.
  exact (@exit_status_tells_completion Sim.World Sim.platform
           sim_authenticator (fun l => l) 5%nat 5%nat (fun _ => 0)
           (sim_args "source-token" "wrong-token" "team/alpha" 30 5 false)
           Scenario.empty_target sim_raises_exceptions
           sim_auth_exceptions).
Defined.
(** A source whose imports all fail is patient too. *)
Lemma scenario_patient_failing (w : Sim.World) :
  Sim.source_projects w = Scenario.projects ->
  Sim.import_status w = Scenario.failing ->
  SimSpec.patient 5 w.
Proof.
  intros Hp Hi. split.
  - intros id sp n H. exists 1%nat. split; [lia|].
    rewrite Hp in H. unfold Scenario.projects in H.
    rewrite Nat.add_1_r.
    repeat (destruct (_ =? _) in H;
            [inversion H; subst sp; left; reflexivity|]).
    discriminate.
  - intros path n. exists 0%nat. split; [lia|].
    rewrite Hi. right. reflexivity.
Qed.

(** X9. Failed projects do not fail the run. On the simulated
    platform, with the right tokens and a positive [--max-workers] on the
    command line, a source tree no deeper than the fuel and jobs that end
    within the patience of the loops, [main] exits with status 0 whatever
    became of the projects: its history is the opening line, the two
    authentications with their lines, the history of [migrate_group] for
    the two sessions and the bound made from the command line, and the
    completion line with the time that passed. *)
Theorem failed_projects_do_not_fail_the_run :
  forall (schedule : list Project -> list Project) (patience fuel : nat)
         (clock : Sim.World -> Z) (path : string) (timeout workers : Z)
         (overwrite : bool) (w : Sim.World),
    (forall l, Permutation (schedule l) l) ->
    0 < workers ->
    SimSpec.patient patience w ->
    SimTree.closed w fuel path ->
    let r := migrate_group schedule (Sim.source_session timeout)
               (Sim.target_session timeout) patience workers overwrite fuel
               path (mkState w (mkFrame timeout None)) in
    main schedule patience fuel clock
      (inr (sim_args "source-token" "target-token" path timeout workers
              overwrite)) w =
    (Exited 0, world (final r),
     [Said MigrationStarted;
      Auth (Sim.source_session timeout); Said (ConnectedTo Sim.source_url);
      Auth (Sim.target_session timeout); Said (ConnectedTo Sim.target_url)]
     ++ map Script (history r)
     ++ [Said (MigrationCompleted (clock (world (final r)) - clock w))]).
Proof.
  intros schedule patience fuel clock path timeout workers overwrite w
    Hperm Hmw Hpat Hcl r.
  destruct (@sim_migrate_group schedule timeout timeout patience workers
              overwrite w Hperm Hmw
              SimSpec.same_source same_source_refl same_source_trans
              (fun w w' H => H) (fun w w' H => proj1 H)
              (sim_worker_same_source timeout timeout overwrite Hpat)
              fuel path (mkState w (mkFrame timeout None)) Hcl
              (same_source_refl w))
    as (H1 & _).
  fold r in H1.
  unfold main, connect_to_gitlab, sim_args. cbn -[migrate_group].
  change (mkGitlab Sim.source_url "source-token" timeout true)
    with (Sim.source_session timeout).
  change (mkGitlab Sim.target_url "target-token" timeout true)
    with (Sim.target_session timeout).
  fold r. unfold outcome_of, final, history in *.
  destruct r as [[o s3] t3]. cbn in *. subst o. reflexivity.
Qed.

(** The sample on a target where every import fails: none of the three
    futures holds a project, and the exit status is 0. *)
Lemma failed_projects_do_not_fail_the_run_witness :
  let r := migrate_group (fun l => l) (Sim.source_session 30)
             (Sim.target_session 30) 5 5 false 5 "team/alpha"
             (mkState Scenario.dict_reply (mkFrame 30 None)) in
  count not_succeeded (history r) = 3 /\
  main (fun l => l) 5 5 (fun _ => 0)
    (inr (sim_args "source-token" "target-token" "team/alpha" 30 5 false))
    Scenario.dict_reply =
  (Exited 0, world (final r),
   [Said MigrationStarted;
    Auth (Sim.source_session 30); Said (ConnectedTo Sim.source_url);
    Auth (Sim.target_session 30); Said (ConnectedTo Sim.target_url)]
   ++ map Script (history r)
   ++ [Said (MigrationCompleted (0 - 0))]).
Proof.
  split; [vm_compute; reflexivity|].
  exact (@failed_projects_do_not_fail_the_run (fun l => l) 5%nat 5%nat
           (fun _ => 0) "team/alpha" 30 5 false
           Scenario.dict_reply (fun l => Permutation_refl l) eq_refl
           (@scenario_patient_failing Scenario.dict_reply eq_refl eq_refl)
           (@scenario_closed Scenario.dict_reply eq_refl)).
Defined.

(** ** What a delivered project went through *)

Ltac find_in :=
  lazymatch goal with
  | |- In _ (_ ++ _) =>
      apply in_or_app; first [left; find_in | right; find_in]
  | |- In _ (_ :: _) => first [left; reflexivity | right; find_in]
  end.

Section Returns.

Context {W : Type} {platform : Platform W}.
Variable R : Type.
Variable P : R -> Prop.

Lemma returns_ret {A} (a : A) : returns P (ret (W:=W) (R:=R) a).
Proof. intros s e H. discriminate. Qed.

Lemma returns_return {A} (r : R) :
  P r -> returns P (return_ (W:=W) (A:=A) r).
Proof. intros H s r' E. inversion E. subst. exact H. Qed.

Lemma returns_raise {A} e : returns P (raise (W:=W) (R:=R) (A:=A) e).
Proof. intros s r H. discriminate. Qed.

Lemma returns_diverge {A} : returns P (diverge (W:=W) (R:=R) (A:=A)).
Proof. intros s e H. discriminate. Qed.

Lemma returns_log l : returns P (log (W:=W) (R:=R) l).
Proof. intros s e H. discriminate. Qed.

Lemma returns_get_frame : returns P (get_frame (W:=W) (R:=R)).
Proof. intros s e H. discriminate. Qed.

Lemma returns_set_frame f : returns P (set_frame (W:=W) (R:=R) f).
Proof. intros s e H. discriminate. Qed.

Lemma returns_thread_target_gl source_gl target_gl :
  returns P (thread_target_gl (W:=W) (R:=R) source_gl target_gl).
Proof. intros s e H. discriminate. Qed.

Lemma returns_call c : returns P (call (R:=R) c).
Proof.
  intros s r. unfold call, outcome_of.
  destruct (perform c (world s)) as [[x|v] w']; cbn; discriminate.
Qed.

Lemma returns_bind {A B} (c : Prog W R A) (k : A -> Prog W R B) :
  returns P c -> (forall a, returns P (k a)) -> returns P (bind c k).
Proof.
  intros Hc Hk s e. unfold bind. specialize (Hc s).
  destruct (c s) as [[o s1] t1]. unfold outcome_of in *. cbn in *.
  destruct o; cbn; try discriminate;
    [|intros E; inversion E; subst; now apply Hc].
  specialize (Hk a s1). unfold outcome_of in Hk.
  destruct (k a s1) as [[o2 s2] t2]. cbn in *. apply Hk.
Qed.

Lemma returns_try_except {A} (c : Prog W R A) h :
  returns P c -> (forall e, returns P (h e)) -> returns P (try_except c h).
Proof.
  intros Hc Hh s e. unfold try_except. specialize (Hc s).
  destruct (c s) as [[o s1] t1]. unfold outcome_of in *. cbn in *.
  destruct o; cbn; try discriminate; [exact (Hc e)|].
  specialize (Hh e0 s1). unfold outcome_of in Hh.
  destruct (h e0 s1) as [[o2 s2] t2]. cbn in *. apply Hh.
Qed.

Lemma returns_try_finally {A} (c : Prog W R A) fin :
  returns P c -> returns P fin -> returns P (try_finally c fin).
Proof.
  intros Hc Hf s e. unfold try_finally. specialize (Hc s).
  destruct (c s) as [[o s1] t1]. unfold outcome_of in *. cbn in *.
  specialize (Hf s1). unfold outcome_of in Hf.
  destruct (fin s1) as [[o2 s2] t2]. cbn in *.
  destruct o; cbn; try discriminate; destruct o2; cbn; try discriminate;
    intros E; inversion E; subst; auto.
Qed.

End Returns.

(** Break a goal [returns P c] down along the shape of [c]; [leaf]
    proves [P] of what is returned. *)
Ltac returns_step leaf :=
  lazymatch goal with
  | |- returns _ ?c =>
      lazymatch c with
      | ret _ => apply returns_ret
      | return_ _ => apply returns_return; leaf
      | raise _ => apply returns_raise
      | diverge => apply returns_diverge
      | get_frame => apply returns_get_frame
      | set_frame _ => apply returns_set_frame
      | thread_target_gl _ _ => apply returns_thread_target_gl
      | set_thread_target_timeout _ => unfold set_thread_target_timeout
      | bind_thread_project _ => unfold bind_thread_project
      | log _ => apply returns_log
      | call ?r => apply (@returns_call _ _ _ _ r)
      | bind _ _ => apply returns_bind; [|intro]
      | try_except _ _ => apply returns_try_except; [|intro]
      | try_finally _ _ => apply returns_try_finally
      | (if ?b then _ else _) => destruct b
      | (match ?x with _ => _ end) => destruct x
      | (let _ := _ in _) => cbv zeta
      end
  end.

Section Delivered.

Context {W : Type} {platform : Platform W}.
Variables (source_gl target_gl : Gitlab) (project : Project) (tg : Group).
Variable overwrite : bool.

Lemma wait_export_returns fuel tp : forall e,
  returns (eq None) (wait_export (W:=W) fuel tp e).
Proof.
  induction fuel as [|fuel IH]; intros e; cbn [wait_export];
    destruct (negb _); try apply returns_ret; try apply returns_diverge.
  repeat first [ apply IH | returns_step ltac:(reflexivity) ].
Qed.

Lemma check_name_returns name tgp :
  returns (eq None)
    (check_name (W:=W) source_gl target_gl overwrite name tgp).
Proof.
  unfold check_name. repeat returns_step ltac:(reflexivity).
Qed.

Lemma check_path_returns name tgp path :
  returns (eq None)
    (check_path (W:=W) source_gl target_gl overwrite name tgp path).
Proof.
  unfold check_path. repeat returns_step ltac:(reflexivity).
Qed.

(** A statement that returns nothing but [None] leaves the question to
    what comes next. *)
Lemma delivered_bind {A} (c : Prog W (option Project) A) k pre s :
  returns (eq None) c ->
  (forall a s1 pre1, wp (k a) (fun o _ t => delivered tg pre1 o t) s1) ->
  wp (bind c k) (fun o _ t => delivered tg pre o t) s.
Proof.
  intros Hc Hk. unfold wp, bind. specialize (Hc s).
  destruct (c s) as [[o s1] t1]. unfold outcome_of, final, history in *.
  cbn in *. destruct o as [a|r|e|]; cbn; try exact I.
  - specialize (Hk a s1 (pre ++ t1)). unfold wp in Hk.
    unfold outcome_of, final, history in Hk.
    destruct (k a s1) as [[o2 s2] t2]. cbn in *.
    unfold delivered in *. destruct o2 as [?|[q|]|?|]; auto.
    now rewrite app_assoc.
  - now rewrite <- (Hc r eq_refl).
Qed.

(** The import call: when it goes through, the request is in the
    history. *)
Lemma import_with_timeout_sent tp file path name (s : State W) :
  wp (import_with_timeout source_gl target_gl tg tp file path name)
    (fun o _ t =>
       match o with
       | Normal _ =>
           exists gl, In (Called (ProjectsImport gl file path (g_id tg) name)) t
       | Returned r => r = None
       | _ => True
       end) s.
Proof.
  unfold import_with_timeout.
  repeat first
    [ wp_step
    | lazymatch goal with
      | |- wp (call ?c) _ _ =>
          apply (@wp_call _ _ _ c); destruct (perform c _) as [[?|?] ?]
      | |- wp (if ?b then _ else _) _ _ => destruct b
      | |- wp (let _ := _ in _) _ _ => cbv zeta
      end ].
  all: try exact I.
  all: eexists; find_in.
Qed.

(** The polling: a project is handed back after the closing line only,
    and is no longer pending. *)
Lemma poll_import_delivered fuel tp path reply (s : State W) :
  wp (poll_import target_gl project tg fuel tp path reply)
    (fun o _ t =>
       match o with
       | Returned (Some q) =>
           import_pending q = false /\
           exists t0,
             t = t0 ++ [Logged (Migrated (p_name tp)
                                  (g_full_path tg ++ "/" ++ path))]
       | _ => True
       end) s.
Proof.
  unfold poll_import.
  repeat first
    [ wp_step
    | lazymatch goal with
      | |- wp (call ?c) _ _ =>
          apply (@wp_call _ _ _ c); destruct (perform c _) as [[?|?] ?]
      | |- wp (wait_import ?pr ?f ?q) _ ?s =>
          let H := fresh "Himp" in
          pose proof (wait_import_result pr f q s) as H;
          unfold wp at 1;
          destruct (wait_import pr f q s) as [[[?|?|?|] ?] ?];
          cbn [outcome_of final history fst snd] in *
      | |- wp (if ?b then _ else _) _ _ => destruct b
      | |- wp (match ?x with _ => _ end) _ _ => destruct x
      end ].
  all: try exact I.
  all: try (match goal with H : _ = None /\ _ |- _ =>
              destruct H as [-> _]; exact I end).
  all: cbv beta iota; (split; [assumption|]).
  all: repeat rewrite app_assoc; rewrite ?app_nil_r; eexists; reflexivity.
Qed.

Lemma delivered_after {A} (c : Prog W (option Project) A) k pre s :
  returns (eq None) c ->
  (forall s1 pre1, wp k (fun o _ t => delivered tg pre1 o t) s1) ->
  wp (bind c (fun _ => k)) (fun o _ t => delivered tg pre o t) s.
Proof. intros Hc Hk. apply delivered_bind; auto. Qed.

Lemma migrate_project_try_delivered fuel pre (s : State W) :
  wp (migrate_project_try source_gl target_gl project tg overwrite fuel)
    (fun o _ t => delivered tg pre o t) s.
Proof.
  unfold migrate_project_try. cbv zeta.
  apply delivered_bind; [apply check_name_returns|]. intros _ s1 pre1.
  apply delivered_bind; [apply returns_log|]. intros _ s2 pre2.
  apply delivered_bind; [apply returns_call|]. intros tp s3 pre3.
  apply delivered_bind;
    [repeat returns_step ltac:(reflexivity)|]. intros _ s4 pre4.
  apply delivered_bind; [apply check_path_returns|]. intros _ s5 pre5.
  apply delivered_bind; [apply returns_call|]. intros e1 s6 pre6.
  apply delivered_bind; [apply returns_call|]. intros e2 s7 pre7.
  apply delivered_bind; [apply wait_export_returns|]. intros e3 s8 pre8.
  apply delivered_bind; [apply returns_call|]. intros file s9 pre9.
  apply delivered_bind; [apply returns_log|]. intros _ s10 pre10.
  apply delivered_bind;
    [repeat returns_step ltac:(reflexivity)|]. intros _ s11 pre11.
  (* the import and the polling *)
  pose proof (import_with_timeout_sent tp file (p_path tp) (p_name tp) s11)
    as Hi.
  unfold wp, bind in *. unfold outcome_of, final, history in *.
  destruct (import_with_timeout source_gl target_gl tg tp file (p_path tp)
              (p_name tp) s11) as [[o s12] t12]. cbn in *.
  destruct o as [reply|r|e|]; cbn; try exact I; [|now subst r].
  pose proof (poll_import_delivered fuel tp (p_path tp) reply s12) as Hp.
  unfold wp in Hp. unfold outcome_of, final, history in Hp.
  destruct (poll_import target_gl project tg fuel tp (p_path tp) reply s12)
    as [[o s13] t13]. cbn in *.
  destruct o as [?|[q|]|?|]; try exact I.
  destruct Hp as [Hq [t0 ->]]. destruct Hi as [gl Hi].
  split; [exact Hq|].
  exists gl, file, (p_path tp), (p_name tp), (pre11 ++ t12 ++ t0).
  split; [now rewrite !app_assoc|].
  apply in_or_app. right. apply in_or_app. now left.
Qed.

End Delivered.


(** X10. What a future that holds a project stands for. Whatever the
    platform, when a worker hands back a project, that project is no
    longer pending (its import status is [finished], or it has none), the
    worker has sent an import request for the id of its target group, and
    the last thing it did was to log the success line, with the name and,
    under the full path of the group, the path of that request. *)
Theorem a_delivered_project_was_imported :
  forall {W : Type} {platform : Platform W} source_gl target_gl p tg
         overwrite fuel (s : State W) q,
    outcome_of (migrate_project source_gl target_gl p tg overwrite fuel s)
    = Returned (Some q) ->
    imported_into tg q
      (history (migrate_project source_gl target_gl p tg overwrite fuel s)).
Proof.
  intros W platform source_gl target_gl p tg overwrite fuel s q.
  unfold migrate_project. rewrite set_frame_bind, log_bind.
  rewrite outcome_after, history_after.
  set (s0 := mkState (world s) (mkFrame (timeout source_gl) None)).
  pose proof (@migrate_project_try_delivered W platform source_gl target_gl p
                tg overwrite fuel [Logged (StartProject (p_name p) (p_id p))]
                s0) as H.
  unfold wp in H. unfold try_except.
  destruct (migrate_project_try source_gl target_gl p tg overwrite fuel s0)
    as [[o s1] t1].
  unfold outcome_of, final, history in *. cbn [fst snd] in *.
  destruct o as [a|r|e|]; try discriminate.
  - intros E. inversion E. subst r. exact H.
  - destruct (is_Exception e).
    + rewrite get_frame_bind. destruct (thread_project (frame s1)).
      * rewrite log_bind. cbn. discriminate.
      * cbn. discriminate.
    + cbn. discriminate.
Qed.

(** [svc2] on a target that has the groups and no project. *)
Lemma a_delivered_project_was_imported_witness :
  let r := Scenario.work (Scenario.listed 2 "svc2") false
             Scenario.groups_only in
  outcome_of r =
  Returned (Some (mkProject 1 "svc2" "svc2" "team/alpha/svc2"
                    (Some "finished") 0)) /\
  imported_into Scenario.alpha_on_target
    (mkProject 1 "svc2" "svc2" "team/alpha/svc2" (Some "finished") 0)
    (history r).
Proof.
  assert (H : outcome_of (Scenario.work (Scenario.listed 2 "svc2") false
                            Scenario.groups_only) =
              Returned (Some (mkProject 1 "svc2" "svc2" "team/alpha/svc2"
                                (Some "finished") 0)))
    by (vm_compute; reflexivity).
  split; [exact H|].
  exact (@a_delivered_project_was_imported Sim.World Sim.platform
           (Sim.source_session 30) (Sim.target_session 30)
           (Scenario.listed 2 "svc2") Scenario.alpha_on_target false 5%nat
           (Scenario.start Scenario.groups_only) _ H).
Defined.

(** ** Before the first request *)

Section Logins.

Context {W : Type} {platform : Platform W} {authenticator : Authenticator W}.
Variable schedule : list Project -> list Project.
Variables (patience fuel : nat).
Variable clock : W -> Z.

Lemma main_handler_silent (e : exn) (w : W) (t : list MainEvent) :
  ~ Exists of_the_script t ->
  ~ Exists of_the_script (snd (main_handler e w t)).
Proof.
  intros H. unfold main_handler.
  destruct (is_Exception e); [|destruct e; exact H].
  cbn. intros E. apply Exists_app in E. destruct E as [E|E]; [tauto|].
  inversion E as [? ? X|? ? X]; [exact X|inversion X].
Qed.

Lemma main_script (parsed : exn + Args) (w : W) :
  Exists of_the_script (snd (main schedule patience fuel clock parsed w)) ->
  exists args w1 t,
    parsed = inr args /\
    auth (source_session_of args) w = (Authenticated, w1) /\
    fst (auth (target_session_of args) w1) = Authenticated /\
    snd (main schedule patience fuel clock parsed w) = connected args ++ t.
Proof.
  assert (Hnot : forall l : list MainLine,
            ~ Exists of_the_script (map Said l)).
  { intros l E. apply Exists_exists in E. destruct E as (x & Hx & Hs).
    apply in_map_iff in Hx. destruct Hx as (y & <- & _). exact Hs. }
  unfold main. destruct parsed as [e|args].
  { intros E. exfalso. revert E. apply main_handler_silent.
    exact (Hnot [MigrationStarted]). }
  unfold connect_to_gitlab.
  change (mkGitlab (source_url args) (source_token args) (timeout_arg args)
            (verify_ssl_arg args)) with (source_session_of args).
  change (mkGitlab (target_url args) (target_token args) (timeout_arg args)
            (verify_ssl_arg args)) with (target_session_of args).
  destruct (auth (source_session_of args) w) as [[| |e] w1] eqn:A1.
  2: { intros E. exfalso. revert E. apply main_handler_silent. cbn.
       intros E. repeat (inversion E as [? ? X|? ? X]; [exact X|]; clear E;
                         rename X into E). inversion E. }
  2: { destruct (is_Exception e); intros E; exfalso; revert E;
         apply main_handler_silent; cbn; intros E;
         repeat (inversion E as [? ? X|? ? X]; [exact X|]; clear E;
                 rename X into E); inversion E. }
  destruct (auth (target_session_of args) w1) as [[| |e] w2] eqn:A2.
  2: { intros E. exfalso. revert E. apply main_handler_silent. cbn.
       intros E. repeat (inversion E as [? ? X|? ? X]; [exact X|]; clear E;
                         rename X into E). inversion E. }
  2: { destruct (is_Exception e); intros E; exfalso; revert E;
         apply main_handler_silent; cbn; intros E;
         repeat (inversion E as [? ? X|? ? X]; [exact X|]; clear E;
                 rename X into E); inversion E. }
  intros _. exists args, w1.
  destruct (migrate_group schedule (source_session_of args)
              (target_session_of args) patience (max_workers args)
              (overwrite_arg args) fuel (source_group args)
              (mkState w2 (mkFrame (timeout_arg args) None)))
    as [[o s3] t3].
  destruct o as [a|r|e|]; [| |unfold main_handler;
                               destruct (is_Exception e); [|destruct e]|].
  all: eexists; (split; [reflexivity|]); (split; [exact A1|]);
    (split; [now rewrite A2|]); cbn [snd app connected]; reflexivity.
Qed.

(** When the source does not give the group of the command line. *)
Lemma main_without_source_group (args : Args) (w w1 w2 w3 : W) e :
  auth (source_session_of args) w = (Authenticated, w1) ->
  auth (target_session_of args) w1 = (Authenticated, w2) ->
  perform (GroupsGet (source_session_of args) (source_group args)) w2
  = (inl e, w3) ->
  is_Exception e = true ->
  main schedule patience (S fuel) clock (inr args) w =
  (Exited 1, w3,
   connected args ++
   [Script (Called (GroupsGet (source_session_of args) (source_group args)));
    match e with
    | GitlabGetError _ =>
        Script (Logged (SourceGroupNotFound (source_group args)))
    | _ => Said (MigrationFailed (str e))
    end]).
Proof.
  intros H1 H2 H3 He. unfold main, connect_to_gitlab.
  change (mkGitlab (source_url args) (source_token args) (timeout_arg args)
            (verify_ssl_arg args)) with (source_session_of args).
  change (mkGitlab (target_url args) (target_token args) (timeout_arg args)
            (verify_ssl_arg args)) with (target_session_of args).
  rewrite H1, H2. cbn [migrate_group].
  unfold get_source_group, invoke, try_except. unfold bind at 1.
  rewrite (call_bind (GroupsGet (source_session_of args) (source_group args))).
  cbn [world frame]. rewrite H3.
  destruct e; try discriminate; reflexivity.
Qed.

End Logins.

(** X11. Nothing is asked of either instance before both tokens are
    accepted. Whatever the platform: when the history of [main] holds an
    event of [migrate_group], the command line has parsed, the
    authentication of the source session and then that of the target
    session have gone through, and the history starts with the opening
    line, the two authentications and their two lines. *)
Theorem nothing_is_sent_before_both_logins :
  forall (W : Type) (platform : Platform W)
         (authenticator : Authenticator W)
         (schedule : list Project -> list Project) (patience fuel : nat)
         (clock : W -> Z) (parsed : exn + Args) (w : W),
    Exists of_the_script
      (snd (main schedule patience fuel clock parsed w)) ->
    exists args w1 t,
      parsed = inr args /\
      auth (source_session_of args) w = (Authenticated, w1) /\
      fst (auth (target_session_of args) w1) = Authenticated /\
      snd (main schedule patience fuel clock parsed w) = connected args ++ t.
Proof.
  intros W platform authenticator schedule patience fuel clock parsed w H.
  exact (@main_script W platform authenticator schedule patience fuel clock
           parsed w H).
Qed.

Lemma nothing_is_sent_before_both_logins_witness :
  let args := sim_args "source-token" "target-token" "team/alpha" 30 5 false in
  let r := main (fun l => l) 5 5 (fun _ => 0) (inr args)
             Scenario.empty_target in
  Exists of_the_script (snd r) /\
  exists args' w1 t,
    inr (A:=exn) args = inr args' /\
    auth (source_session_of args') Scenario.empty_target
    = (Authenticated, w1) /\
    fst (auth (target_session_of args') w1) = Authenticated /\
    snd r = connected args' ++ t.
Proof.
  intros args r.
  assert (H : Exists of_the_script (snd r)).
  { vm_compute. do 5 apply Exists_cons_tl. apply Exists_cons_hd. exact I. }
  split; [exact H|].
  exact (@nothing_is_sent_before_both_logins Sim.World Sim.platform
           sim_authenticator (fun l => l) 5%nat 5%nat (fun _ => 0)
           (inr args) Scenario.empty_target H).
Defined.

(** X12. A source group that cannot be fetched ends the run with exit
    status 1 before anything is asked of the target. Both tokens being
    accepted, when the lookup of the group of the command line on the
    source raises an [Exception], the history of [main] is the opening
    line, the two authentications with their lines, that lookup, and one
    more line: the one of [get_source_group] when the exception is a
    [GitlabGetError], the failure line of [main] with the text of the
    exception otherwise. *)
Theorem a_missing_source_group_ends_the_run :
  forall (W : Type) (platform : Platform W)
         (authenticator : Authenticator W)
         (schedule : list Project -> list Project) (patience fuel : nat)
         (clock : W -> Z) (args : Args) (w w1 w2 w3 : W) (e : exn),
    auth (source_session_of args) w = (Authenticated, w1) ->
    auth (target_session_of args) w1 = (Authenticated, w2) ->
    perform (GroupsGet (source_session_of args) (source_group args)) w2
    = (inl e, w3) ->
    is_Exception e = true ->
    main schedule patience (S fuel) clock (inr args) w =
    (Exited 1, w3,
     connected args ++
     [Script (Called (GroupsGet (source_session_of args)
                        (source_group args)));
      match e with
      | GitlabGetError _ =>
          Script (Logged (SourceGroupNotFound (source_group args)))
      | _ => Said (MigrationFailed (str e))
      end]).
Proof.
  intros W platform authenticator schedule patience fuel clock args
    w w1 w2 w3 e H1 H2 H3 He.
  exact (@main_without_source_group W platform authenticator schedule
           patience fuel clock args w w1 w2 w3 e H1 H2 H3 He).
Qed.

Lemma a_missing_source_group_ends_the_run_witness :
  let args := sim_args "source-token" "target-token" "team/gamma" 30 5 false in
  main (fun l => l) 5 5 (fun _ => 0) (inr args) Scenario.empty_target =
  (Exited 1, Scenario.empty_target,
   connected args ++
   [Script (Called (GroupsGet (source_session_of args) "team/gamma"));
    Script (Logged (SourceGroupNotFound "team/gamma"))]).
Proof.
  intros args.
  exact (@a_missing_source_group_ends_the_run Sim.World Sim.platform
           sim_authenticator (fun l => l) 5%nat 4%nat (fun _ => 0) args
           Scenario.empty_target Scenario.empty_target
           Scenario.empty_target Scenario.empty_target
           (GitlabGetError "404 Group Not Found")
           eq_refl eq_refl eq_refl eq_refl).
Defined.

(** ** A pool without workers *)

Section Refused.

Context {W : Type} {platform : Platform W}.

Lemma outcome_bind {R A B} (c : Prog W R A) (k : A -> Prog W R B) s :
  outcome_of (bind c k s) =
  match outcome_of (c s) with
  | Normal a => outcome_of (k a (final (c s)))
  | Returned r => Returned r
  | Raised e => Raised e
  | Diverged => Diverged
  end.
Proof.
  unfold bind, outcome_of, final. destruct (c s) as [[o s1] t1]. cbn.
  destruct o; try reflexivity. destruct (k a s1) as [[o2 s2] t2].
  reflexivity.
Qed.

Lemma halts_ret {R A} (a : A) : halts (ret (W:=W) (R:=R) a).
Proof. intros s. discriminate. Qed.

Lemma halts_return {R A} (r : R) : halts (return_ (W:=W) (A:=A) r).
Proof. intros s. discriminate. Qed.

Lemma halts_raise {R A} e : halts (raise (W:=W) (R:=R) (A:=A) e).
Proof. intros s. discriminate. Qed.

Lemma halts_log {R} l : halts (log (W:=W) (R:=R) l).
Proof. intros s. discriminate. Qed.

Lemma halts_call {R} c : halts (call (R:=R) c).
Proof.
  intros s. unfold call, outcome_of.
  destruct (perform c (world s)) as [[e|v] w']; discriminate.
Qed.

Lemma halts_bind {R A B} (c : Prog W R A) (k : A -> Prog W R B) :
  halts c -> (forall a, halts (k a)) -> halts (bind c k).
Proof.
  intros Hc Hk s. rewrite outcome_bind. specialize (Hc s).
  destruct (outcome_of (c s)); try discriminate; [apply Hk|contradiction].
Qed.

Lemma halts_try_except {R A} (c : Prog W R A) h :
  halts c -> (forall e, halts (h e)) -> halts (try_except c h).
Proof.
  intros Hc Hh s. unfold try_except. specialize (Hc s).
  destruct (c s) as [[o s1] t1]. unfold outcome_of in *. cbn in *.
  destruct o; try discriminate; [|contradiction].
  specialize (Hh e s1). unfold outcome_of in Hh.
  destruct (h e s1) as [[o2 s2] t2]. exact Hh.
Qed.

Lemma invoke_ends {R R'} (c : Prog W R R) :
  halts c -> falls_or_raises (invoke (R':=R') c).
Proof.
  intros Hc s. unfold invoke. specialize (Hc s).
  destruct (c s) as [[o s1] t1]. unfold outcome_of in *. cbn in *.
  destruct o; try exact I. contradiction.
Qed.

Ltac halts_step :=
  lazymatch goal with
  | |- halts ?c =>
      lazymatch c with
      | ret _ => apply halts_ret
      | return_ _ => apply halts_return
      | raise _ => apply halts_raise
      | log _ => apply halts_log
      | call ?r => apply (@halts_call _ r)
      | bind _ _ => apply halts_bind; [|intro]
      | try_except _ _ => apply halts_try_except; [|intro]
      | (if ?b then _ else _) => destruct b
      | (match ?x with _ => _ end) => destruct x
      | (let _ := _ in _) => cbv zeta
      end
  end.

Lemma get_source_group_ends source_gl path :
  falls_or_raises (get_source_group (W:=W) (R:=unit) source_gl path).
Proof.
  unfold get_source_group. apply invoke_ends. repeat halts_step.
Qed.

Lemma resolve_parts_halts {R} target_gl source_group parts :
  forall i cp parent,
    halts
      (resolve_parts (W:=W) (R:=R) target_gl source_group i parts cp parent).
Proof.
  induction parts as [|part rest IH]; intros i cp parent;
    cbn [resolve_parts]; [apply halts_ret|].
  apply halts_bind; [|intro; apply IH]. repeat halts_step.
Qed.

Lemma create_target_group_structure_ends target_gl path source_group :
  falls_or_raises
    (create_target_group_structure (W:=W) (R:=unit) target_gl path
       source_group).
Proof.
  unfold create_target_group_structure. apply invoke_ends. cbv zeta.
  apply halts_bind; [apply resolve_parts_halts|]. intro.
  repeat halts_step.
Qed.

Variable schedule : list Project -> list Project.
Variables (source_gl target_gl : Gitlab) (patience : nat) (overwrite : bool).

(** With a bound that is not positive the run ends with an exception
    before the batch: its history is made of the lookups, the creations
    and the listing of the projects. *)
Lemma migrate_group_refused max_workers fuel path (s : State W) :
  max_workers <= 0 ->
  Forall head_event
    (history (migrate_group schedule source_gl target_gl patience
                max_workers overwrite (S fuel) path s)) /\
  exists e,
    outcome_of (migrate_group schedule source_gl target_gl patience
                  max_workers overwrite (S fuel) path s) = Raised e.
Proof.
  intros Hmw. cbn [migrate_group].
  rewrite history_bind, outcome_bind.
  pose proof (get_source_group_head (R:=unit) source_gl path s) as Ha.
  pose proof (get_source_group_ends source_gl path s) as Ea.
  destruct (outcome_of (get_source_group source_gl path s))
    as [source_group| |e|]; try contradiction.
  2: { rewrite app_nil_r. split; [exact Ha|]. now exists e. }
  set (sa := final (get_source_group source_gl path s)) in *.
  rewrite history_bind, outcome_bind.
  pose proof (create_target_group_structure_head (R:=unit) target_gl path
                source_group sa) as Hb.
  pose proof (create_target_group_structure_ends target_gl path
                source_group sa) as Eb.
  destruct (outcome_of
              (create_target_group_structure target_gl path source_group sa))
    as [target_group| |e|]; try contradiction.
  2: { rewrite app_nil_r. split; [apply Forall_app; auto|]. now exists e. }
  set (sb := final (create_target_group_structure target_gl path
                      source_group sa)) in *.
  rewrite (call_bind (GroupProjectsList source_group)).
  destruct (perform (GroupProjectsList source_group) (world sb))
    as [[e|projects] w1].
  { split; [|now exists e]. cbn [history snd].
    repeat (apply Forall_app; split; auto). all: repeat constructor. }
  rewrite history_after, outcome_after, log_bind, history_after,
    outcome_after.
  rewrite open_pool_refuses by exact Hmw.
  split; [|eexists; reflexivity]. cbn [history snd]. rewrite app_nil_r.
  repeat (apply Forall_app; split; auto). all: repeat constructor.
Qed.

End Refused.

Section RefusedMain.

Context {W : Type} {platform : Platform W} {authenticator : Authenticator W}.

Hypothesis platform_exceptions : forall c (w : W) e,
  fst (perform c w) = inl e -> is_Exception e = true.
Hypothesis auth_exceptions : forall gl (w : W) e,
  fst (auth gl w) = AuthRaised e -> is_Exception e = true.

Lemma main_handler_before (e : exn) (w : W) (t : list MainEvent) :
  Forall before_the_batch t ->
  Forall before_the_batch (snd (main_handler e w t)).
Proof.
  intros H. unfold main_handler.
  destruct (is_Exception e); [|destruct e; exact H].
  cbn. apply Forall_app. split; [exact H|]. repeat constructor.
Qed.

Lemma main_refused schedule patience fuel clock (args : Args) (w : W) :
  max_workers args <= 0 ->
  let '(exit, _, t) :=
    main schedule patience (S fuel) clock (inr args) w in
  exit = Exited 1 /\ unfinished t /\ Forall before_the_batch t.
Proof.
  intros Hmw.
  assert (Hone : forall e (w : W) t,
            exits_with_one e -> unfinished t -> Forall before_the_batch t ->
            let '(exit, _, t) := main_handler e w t in
            exit = Exited 1 /\ unfinished t /\ Forall before_the_batch t).
  { intros e w' t He Ht Hb.
    pose proof (@main_handler_one W e w' t He Ht) as H.
    pose proof (@main_handler_before e w' t Hb) as H'.
    destruct (main_handler e w' t) as [[exit w''] t'].
    destruct H as [-> H]. auto. }
  unfold main.
  pose proof (@connect_to_gitlab_result W authenticator auth_exceptions
                (source_url args) (source_token args)
                (timeout_arg args) (verify_ssl_arg args) w) as H1.
  assert (B1 : Forall before_the_batch
                 (snd (connect_to_gitlab (source_url args)
                         (source_token args) (timeout_arg args)
                         (verify_ssl_arg args) w))).
  { unfold connect_to_gitlab. destruct (auth _ w) as [[| |e] w1];
      [| |destruct (is_Exception e)]; repeat constructor. }
  destruct (connect_to_gitlab (source_url args) (source_token args)
              (timeout_arg args) (verify_ssl_arg args) w)
    as [[[e|source_gl] w1] t1]; destruct H1 as [U1 H1]; cbn [snd] in B1.
  { subst e. apply Hone; [now right| |].
    - apply Forall_app. split; [repeat constructor; cbn; tauto|exact U1].
    - apply Forall_app. split; [repeat constructor|exact B1]. }
  pose proof (@connect_to_gitlab_result W authenticator auth_exceptions
                (target_url args) (target_token args)
                (timeout_arg args) (verify_ssl_arg args) w1) as H2.
  assert (B2 : Forall before_the_batch
                 (snd (connect_to_gitlab (target_url args)
                         (target_token args) (timeout_arg args)
                         (verify_ssl_arg args) w1))).
  { unfold connect_to_gitlab. destruct (auth _ w1) as [[| |e] w2];
      [| |destruct (is_Exception e)]; repeat constructor. }
  destruct (connect_to_gitlab (target_url args) (target_token args)
              (timeout_arg args) (verify_ssl_arg args) w1)
    as [[[e|target_gl] w2] t2]; destruct H2 as [U2 H2]; cbn [snd] in B2.
  { subst e. apply Hone; [now right| |].
    - repeat (apply Forall_app; split); try assumption.
      repeat constructor; cbn; tauto.
    - repeat (apply Forall_app; split); try assumption.
      repeat constructor. }
  set (s2 := mkState w2 (mkFrame (timeout_arg args) None)).
  pose proof (@migrate_group_raises W platform platform_exceptions schedule
                source_gl target_gl patience (overwrite_arg args)
                (max_workers args) (S fuel) (source_group args) s2) as Hr.
  destruct (@migrate_group_refused W platform schedule source_gl target_gl
              patience (overwrite_arg args) (max_workers args) fuel
              (source_group args) s2 Hmw) as [Hh [e He]].
  unfold outcome_of, history in *.
  destruct (migrate_group schedule source_gl target_gl patience
              (max_workers args) (overwrite_arg args) (S fuel)
              (source_group args) s2) as [[o s3] t3]. cbn [fst snd] in *.
  subst o. apply Hone; [now apply Hr| |].
  - repeat (apply Forall_app; split); try assumption.
    + repeat constructor; cbn; tauto.
    + apply unfinished_script.
  - repeat (apply Forall_app; split); try assumption.
    + repeat constructor.
    + apply Forall_forall. intros x Hx. apply in_map_iff in Hx.
      destruct Hx as (y & <- & Hy). rewrite Forall_forall in Hh.
      now apply Hh.
Qed.

End RefusedMain.

(** X13. A bound on the workers that is not positive fails the run
    before any project is handed out. On a platform and with an
    authentication that raise nothing but [Exception]s, with
    [--max-workers] at 0 or below [main] exits with status 1 and without
    the completion line, and its history holds no future and nothing that
    follows a batch: beside the lines and the authentications of [main]
    there are only lookups and creations of groups and listings of
    projects. *)
Theorem a_pool_without_workers_ends_the_run :
  forall (W : Type) (platform : Platform W)
         (authenticator : Authenticator W)
         (schedule : list Project -> list Project) (patience fuel : nat)
         (clock : W -> Z) (args : Args) (w : W),
    (forall c (w : W) e,
        fst (perform c w) = inl e -> is_Exception e = true) ->
    (forall gl (w : W) e,
        fst (auth gl w) = AuthRaised e -> is_Exception e = true) ->
    max_workers args <= 0 ->
    let '(exit, _, t) :=
      main schedule patience (S fuel) clock (inr args) w in
    exit = Exited 1 /\ unfinished t /\ Forall before_the_batch t.
Proof.
  intros W platform authenticator schedule patience fuel clock args w
    Hp Ha Hmw.
  exact (@main_refused W platform authenticator Hp Ha schedule patience fuel
           clock args w Hmw).
Qed.

(** The sample with [--max-workers 0]: the groups are made, the projects
    of [team/alpha] are listed, and the run fails with the message of
    the pool. *)
Lemma a_pool_without_workers_ends_the_run_witness :
  let r := main (fun l => l) 5 5 (fun _ => 0)
             (inr (sim_args "source-token" "target-token" "team/alpha" 30 0
                     false))
             Scenario.empty_target in
  (fst (fst r) = Exited 1 /\ unfinished (snd r) /\
   Forall before_the_batch (snd r)) /\
  In (Script (Logged (FoundProjects "team/alpha" 2))) (snd r) /\
  In (Said (MigrationFailed "max_workers must be greater than 0")) (snd r).
Proof.
  intros r. split.
  - pose proof (@a_pool_without_workers_ends_the_run Sim.World Sim.platform
                  sim_authenticator (fun l => l) 5%nat 4%nat (fun _ => 0)
                  (sim_args "source-token" "target-token" "team/alpha" 30 0
                     false)
                  Scenario.empty_target sim_raises_exceptions
                  sim_auth_exceptions ltac:(vm_compute; discriminate)) as H.
    fold r in H. destruct r as [[exit w'] t]. exact H.
  - vm_compute. split; in_history.
Defined.
